(** * Job orchestration of the optimized batch tester

    A shallow embedding of the orchestration code of the batch tester
    (the optimized batch script and [index.js]): the resource manager that
    bounds the number of browser instances, the result cache, the retrying
    [testWebsite], the fan-out of [optimizedBatchTest], the summary report
    and [loadConfig].

    JavaScript runs these on one thread; an [async] function gives up control
    only at an [await].  The model is therefore sequential inside a job and
    interleaves jobs at their [await]s.  *)

From stdpp Require Import base numbers option list gmap strings pretty.
From Stdlib Require Import ZArith QArith Qcanon Qround Qabs Lia.

Set Warnings "-register-all".
Local Open Scope Z_scope.

(** ** Completions: a JavaScript call returns a value or throws *)

Inductive completion (A : Type) : Type :=
  | Return (a : A)
  | Throw (message : string).
Arguments Return {A} a.
Arguments Throw {A} message.

(** ** The resource manager (class ResourceManager)

    [queue] holds the [resolve] callbacks of the pending [acquire] promises;
    a callback is identified by the job that waits on it. *)

Record ResourceManager : Type := mkResourceManager {
  maxConcurrent : Z;
  running : Z;
  queue : list nat;
}.

Definition newResourceManager (c : Z) : ResourceManager :=
  {| maxConcurrent := c; running := 0; queue := [] |}.

(** [acquire me rm]: the boolean tells whether the promise is already
    fulfilled when [acquire] returns ([true]) or still pending ([false]). *)
Definition acquire (me : nat) (rm : ResourceManager) : ResourceManager * bool :=
  if running rm <? maxConcurrent rm
  then ({| maxConcurrent := maxConcurrent rm;
           running := running rm + 1;
           queue := queue rm |}, true)
  else ({| maxConcurrent := maxConcurrent rm;
           running := running rm;
           queue := queue rm ++ [me] |}, false).

(** [release rm]: the optional job is the waiter whose [resolve] was called. *)
Definition release (rm : ResourceManager) : ResourceManager * option nat :=
  match queue rm with
  | next :: rest =>
      ({| maxConcurrent := maxConcurrent rm;
          running := running rm;
          queue := rest |}, Some next)
  | [] =>
      ({| maxConcurrent := maxConcurrent rm;
          running := running rm - 1;
          queue := [] |}, None)
  end.

(** ** JavaScript values and the object heap

    Objects and arrays live in a heap and are passed by reference, so that
    what a callee does to an object it shares with its caller is visible in
    the model.  An object keeps its properties in insertion order. *)

Inductive Value : Type :=
  | VUndefined
  | VNull
  | VBool (b : bool)
  | VNum (n : Z)
  | VStr (s : string)
  | VRef (l : nat).

Inductive Cell : Type :=
  | CObj (fields : list (string * Value))
  | CArr (items : list Value).

Definition is_undefined (v : Value) : bool :=
  match v with VUndefined => true | _ => false end.

(** [o[k]] on the property list of an object. *)
Fixpoint obj_get (k : string) (o : list (string * Value)) : Value :=
  match o with
  | [] => VUndefined
  | (k', v) :: o' => if String.eqb k k' then v else obj_get k o'
  end.

(** [o[k] = v]: an existing property keeps its place, a new one goes last. *)
Fixpoint obj_set (k : string) (v : Value) (o : list (string * Value))
  : list (string * Value) :=
  match o with
  | [] => [(k, v)]
  | (k', v') :: o' =>
      if String.eqb k k' then (k, v) :: o' else (k', v') :: obj_set k v o'
  end.

Definition chars (s : string) : list Value :=
  map (fun a => VStr (String a EmptyString)) (String.list_ascii_of_string s).

Definition index_props (vs : list Value) : list (string * Value) :=
  imap (fun i v => (pretty i, v)) vs.

(** The own enumerable properties that [{...v}] copies. *)
Definition own_props (h : list Cell) (v : Value) : list (string * Value) :=
  match v with
  | VRef l =>
      match h !! l with
      | Some (CObj fields) => fields
      | Some (CArr items) => index_props items
      | None => []
      end
  | VStr s => index_props (chars s)
  | _ => []
  end.

(** [{...v, k1: v1, ..., kn: vn}] as a property list. *)
Definition spread_with (h : list Cell) (v : Value)
    (extra : list (string * Value)) : list (string * Value) :=
  fold_left (fun o kv => obj_set kv.1 kv.2 o) extra (own_props h v).

(** Property read [v.k] through a reference to an object.  The jobs read and
    write the properties of objects only ([job_heap] below says which); on
    any other value the model reads [undefined] and writes nothing. *)
Definition get_prop (h : list Cell) (v : Value) (k : string) : Value :=
  match v with
  | VRef l =>
      match h !! l with
      | Some (CObj fields) => obj_get k fields
      | _ => VUndefined
      end
  | _ => VUndefined
  end.

(** Property write [v.k = x] through a reference. *)
Definition set_prop (h : list Cell) (v : Value) (k : string) (x : Value)
  : list Cell :=
  match v with
  | VRef l =>
      match h !! l with
      | Some (CObj fields) => <[l := CObj (obj_set k x fields)]> h
      | _ => h
      end
  | _ => h
  end.

(** ** JSON *)

Inductive JSON : Type :=
  | JNull
  | JBool (b : bool)
  | JNum (n : Z)
  | JStr (s : string)
  | JArr (items : list JSON)
  | JObj (fields : list (string * JSON)).

(** The tree [JSON.stringify] walks from a value.  A property whose value is
    [undefined] is left out of an object and written [null] in an array.
    [None] stands for the TypeError on a circular structure: the walk gives
    up when it has followed more references than the heap has cells.  A
    reference to no cell is no value of the heap, and gives [None] too. *)
Fixpoint to_json (fuel : nat) (h : list Cell) (v : Value) : option JSON :=
  match v with
  | VUndefined | VNull => Some JNull
  | VBool b => Some (JBool b)
  | VNum n => Some (JNum n)
  | VStr s => Some (JStr s)
  | VRef l =>
      match fuel with
      | O => None
      | S fuel' =>
          match h !! l with
          | None => None
          | Some (CArr items) =>
              JArr <$> mapM (to_json fuel' h) items
          | Some (CObj fields) =>
              JObj <$> mapM (fun kv => pair kv.1 <$> to_json fuel' h kv.2)
                        (filter (fun kv => is_undefined kv.2 = false) fields)
          end
      end
  end.

(** What the orchestration takes from the platform: the text
    [JSON.stringify] writes for a tree and the hex MD5 digest of a text
    ([crypto.createHash('md5').update(data).digest('hex')]). *)
Class Platform : Type := {
  JSON_stringify : JSON -> string;
  md5_hex : string -> string;
}.

(** ** What a full test returns ([runFullTest] of index.js)

    The records keep the properties the orchestration reads or forwards. *)

Record Lighthouse : Type := mkLighthouse {
  filePath : string;
  summaryPath : string;
  scores : gmap string Qc;
}.

Record Results : Type := mkResults {
  screenshotPath : option string;
  lighthouse : Lighthouse;
}.

(** What [testWebsite] hands back: the results of a full test, the object
    [{url, error}], or the [null] that [ResultCache.get] can return. *)
Inductive TestOutcome : Type :=
  | TNull
  | TResults (r : Results)
  | TError (url : string) (error : string).

(** ** The file system under the cache directory

    A file is known by what [JSON.parse] makes of its text: the object
    [{timestamp, result}] that [set] wrote, or no JSON at all.  The three sets
    name the paths on which the operating system refuses the operation. *)

Inductive FileContent : Type :=
  | FCache (timestamp : Z) (result : Results)
  | FGarbage.

Record Disk : Type := mkDisk {
  files : gmap string FileContent;
  read_denied : gset string;
  write_denied : gset string;
  unlink_denied : gset string;
}.

Definition existsSync (p : string) (d : Disk) : bool :=
  bool_decide (is_Some (files d !! p)).

Definition readFileSync (p : string) (d : Disk) : completion FileContent :=
  match files d !! p with
  | None => Throw ("ENOENT: no such file or directory, open " +:+ p)
  | Some c =>
      if bool_decide (p ∈ read_denied d)
      then Throw ("EACCES: permission denied, open " +:+ p)
      else Return c
  end.

Definition writeFileSync (p : string) (c : FileContent) (d : Disk)
  : completion Disk :=
  if bool_decide (p ∈ write_denied d)
  then Throw ("EACCES: permission denied, open " +:+ p)
  else Return {| files := <[p := c]> (files d);
                 read_denied := read_denied d;
                 write_denied := write_denied d;
                 unlink_denied := unlink_denied d |}.

Definition unlinkSync (p : string) (d : Disk) : completion Disk :=
  match files d !! p with
  | None => Throw ("ENOENT: no such file or directory, unlink " +:+ p)
  | Some _ =>
      if bool_decide (p ∈ unlink_denied d)
      then Throw ("EACCES: permission denied, unlink " +:+ p)
      else Return {| files := delete p (files d);
                     read_denied := read_denied d;
                     write_denied := write_denied d;
                     unlink_denied := unlink_denied d |}
  end.

(** ** The world a job runs in *)

(** The fields of a [ResultCache]: the map from key to [{timestamp}] and the
    cache duration ([cacheDir] is the constant [./cache]). *)
Record ResultCache : Type := mkResultCache {
  cache : gmap string Z;
  cacheDuration : Z;
}.

(** What a job leaves for the outside to see. *)
Inductive Event : Type :=
  | EvRunFullTest (website : string) (retries : nat) (waitUntil timeout : Value)
  | EvWarmup (website : string)
  | EvSleep (ms : Z).

Record World : Type := mkWorld {
  heap : list Cell;
  resultCache : ResultCache;
  disk : Disk;
  resourceManager : ResourceManager;
  (** waiters whose promise [release] has resolved and that have not run on *)
  resolved : list nat;
  (** what [Date.now()] returns *)
  clock : Z;
  log : list Event;
}.

Definition with_heap (h : list Cell) (w : World) : World :=
  mkWorld h (resultCache w) (disk w) (resourceManager w) (resolved w)
    (clock w) (log w).
Definition with_cache (c : gmap string Z) (w : World) : World :=
  mkWorld (heap w) (mkResultCache c (cacheDuration (resultCache w))) (disk w)
    (resourceManager w) (resolved w) (clock w) (log w).
Definition with_disk (d : Disk) (w : World) : World :=
  mkWorld (heap w) (resultCache w) d (resourceManager w) (resolved w)
    (clock w) (log w).
Definition with_resourceManager (rm : ResourceManager) (w : World) : World :=
  mkWorld (heap w) (resultCache w) (disk w) rm (resolved w) (clock w) (log w).
Definition with_resolved (l : list nat) (w : World) : World :=
  mkWorld (heap w) (resultCache w) (disk w) (resourceManager w) l
    (clock w) (log w).
Definition with_clock (t : Z) (w : World) : World :=
  mkWorld (heap w) (resultCache w) (disk w) (resourceManager w) (resolved w)
    t (log w).
Definition emit (e : Event) (w : World) : World :=
  mkWorld (heap w) (resultCache w) (disk w) (resourceManager w) (resolved w)
    (clock w) (log w ++ [e]).

(** A computation changes the world and returns or throws; what it did to the
    world before a throw stays done. *)
Definition M (A : Type) : Type := World -> completion A * World.

Definition ret {A} (a : A) : M A := fun w => (Return a, w).
Definition throw {A} (message : string) : M A := fun w => (Throw message, w).
Definition bind {A B} (m : M A) (k : A -> M B) : M B :=
  fun w =>
    match m w with
    | (Return a, w') => k a w'
    | (Throw e, w') => (Throw e, w')
    end.
(** [try { m } catch (error) { handler error.message }] *)
Definition try_catch {A} (m : M A) (handler : string -> M A) : M A :=
  fun w =>
    match m w with
    | (Return a, w') => (Return a, w')
    | (Throw e, w') => handler e w'
    end.
Definition modify (f : World -> World) : M unit := fun w => (Return tt, f w).
Definition gets {A} (f : World -> A) : M A := fun w => (Return (f w), w).

Notation "'let*' x ':=' m 'in' k" := (bind m (fun x => k))
  (at level 10, x pattern, m at level 100, k at level 200).
Notation "m ';;' k" := (bind m (fun _ => k))
  (at level 100, k at level 200, right associativity).

(** ** The result cache (class ResultCache) *)

Section Cache.
Context `{Platform}.

Definition cacheFile (key : string) : string :=
  "cache/" +:+ key +:+ ".json".

(** [JSON.stringify({ url, options })] *)
Definition key_data (h : list Cell) (url : string) (options : Value)
  : option JSON :=
  JObj <$> mapM (fun kv => pair kv.1 <$> to_json (S (length h)) h kv.2)
            (filter (fun kv => is_undefined kv.2 = false)
               [("url", VStr url); ("options", options)]).

(** [crypto.createHash('md5').update(data).digest('hex')] *)
Definition key_of (data : JSON) : string := md5_hex (JSON_stringify data).

Definition generateKey (url : string) (options : Value) : M string :=
  fun w =>
    match key_data (heap w) url options with
    | None => (Throw "Converting circular structure to JSON", w)
    | Some data => (Return (key_of data), w)
    end.

Definition has (url : string) (options : Value) : M bool :=
  let* key := generateKey url options in
  let* entry := gets (fun w => cache (resultCache w) !! key) in
  match entry with
  | None => ret false
  | Some timestamp =>
      let* now := gets clock in
      let* duration := gets (fun w => cacheDuration (resultCache w)) in
      let isValid := bool_decide (now - timestamp < duration) in
      (if isValid then ret tt
       else
         modify (fun w => with_cache (delete key (cache (resultCache w))) w) ;;
         let* there := gets (fun w => existsSync (cacheFile key) (disk w)) in
         if there then
           fun w =>
             match unlinkSync (cacheFile key) (disk w) with
             | Return d => (Return tt, with_disk d w)
             | Throw e => (Throw e, w)
             end
         else ret tt) ;;
      ret isValid
  end.

Definition get (url : string) (options : Value) : M (option Results) :=
  let* key := generateKey url options in
  let* hit := has url options in
  if negb hit then ret None
  else
    try_catch
      (let* there := gets (fun w => existsSync (cacheFile key) (disk w)) in
       if there then
         let* data := (fun w => (readFileSync (cacheFile key) (disk w), w)) in
         match data with
         | FCache _ result => ret (Some result)
         | FGarbage => throw "Unexpected token in JSON"
         end
       else ret None)
      (fun _ => ret None).

Definition set (url : string) (options : Value) (result : Results) : M unit :=
  let* key := generateKey url options in
  let* timestamp := gets clock in
  modify (fun w => with_cache (<[key := timestamp]> (cache (resultCache w))) w) ;;
  try_catch
    (fun w =>
       match writeFileSync (cacheFile key) (FCache timestamp result) (disk w) with
       | Return d => (Return tt, with_disk d w)
       | Throw e => (Throw e, w)
       end)
    (fun _ => ret tt).

(** The world [set] leaves when the file can be written, and the world once
    an expired entry is evicted, file included. *)
Definition stored (key : string) (r : Results) (w : World) : World :=
  with_disk
    (mkDisk (<[cacheFile key := FCache (clock w) r]> (files (disk w)))
       (read_denied (disk w)) (write_denied (disk w)) (unlink_denied (disk w)))
    (with_cache (<[key := clock w]> (cache (resultCache w))) w).

Definition evicted (key : string) (w : World) : World :=
  with_disk
    (mkDisk (delete (cacheFile key) (files (disk w)))
       (read_denied (disk w)) (write_denied (disk w)) (unlink_denied (disk w)))
    (with_cache (delete key (cache (resultCache w))) w).

End Cache.

(** ** One job: [testWebsite] *)

(** What the [i]-th call of [runFullTest] in a job does: it returns results,
    returns something without a [lighthouse] property, or throws.  The
    integer is what [Date.now()] returns once the call is over. *)
Inductive FullTestOutcome : Type :=
  | FTResults (r : Results)
  | FTInvalid
  | FTThrow (message : string).

Definition JobEnv : Type := nat -> FullTestOutcome * Z.

(** [haystack.includes(needle)] *)
Fixpoint includes (needle haystack : string) : bool :=
  String.prefix needle haystack
  || match haystack with
     | EmptyString => false
     | String _ rest => includes needle rest
     end.

Definition alloc (c : Cell) : M Value :=
  fun w => (Return (VRef (length (heap w))), with_heap (heap w ++ [c]) w).

(** [target.k = x] *)
Definition assign (target : Value) (k : string) (x : Value) : M unit :=
  modify (fun w => with_heap (set_prop (heap w) target k x) w).

(** [target.k] *)
Definition read (target : Value) (k : string) : M Value :=
  gets (fun w => get_prop (heap w) target k).

(** [resourceManager.acquire()] and [resourceManager.release()] on the
    manager of the world; the waiter that [release] resolves is noted in
    [resolved]. *)
Definition rm_acquire (me : nat) : M bool :=
  fun w =>
    let (rm, granted) := acquire me (resourceManager w) in
    (Return granted, with_resourceManager rm w).

Definition rm_release : M unit :=
  fun w =>
    let (rm, next) := release (resourceManager w) in
    (Return tt,
     with_resolved (resolved w ++ option_list next) (with_resourceManager rm w)).

Definition sleep (ms : Z) : M unit := modify (emit (EvSleep ms)).

(** The warm-up request before a retry: whatever the request does, the promise
    resolves; two seconds of waiting follow. *)
Definition warmup (website : string) : M unit :=
  modify (emit (EvWarmup website)) ;; sleep 2000.

(** [await runFullTest(website, enhancedOptions)], the [retries]-th call of
    the job: the log notes the [waitUntil] and the [timeout] that
    [enhancedOptions.screenshotOptions] carries at the call, and [env] says
    how the call ends.  [runFullTest] writes none of its options.  What the
    call does in the browser is modelled apart, in [Index.runFullTest]. *)
Definition runFullTest (env : JobEnv) (website : string)
    (enhancedOptions : Value) (retries : nat) : M (option Results) :=
  let* so := read enhancedOptions "screenshotOptions" in
  let* waitUntil := read so "waitUntil" in
  let* timeout := read so "timeout" in
  modify (emit (EvRunFullTest website retries waitUntil timeout)) ;;
  fun w =>
    match env retries with
    | (FTResults r, t) => (Return (Some r), with_clock t w)
    | (FTInvalid, t) => (Return None, with_clock t w)
    | (FTThrow e, t) => (Throw e, with_clock t w)
    end.

(** The calls of [runFullTest] in a log, and the value that
    [enhancedOptions.screenshotOptions.waitUntil] has at each of them.  This
    is the field [testWebsite] writes when it relaxes.  It is not what the
    navigations of a full test wait for: [Index.runFullTest] hands no
    screenshot options on to [captureScreenshot]. *)
Definition is_attempt (e : Event) : bool :=
  match e with EvRunFullTest _ _ _ _ => true | _ => false end.

Definition attempts_made (l : list Event) : nat :=
  length (filter (fun e => is_attempt e = true) l).

Definition waitUntil_carried (l : list Event) : list Value :=
  omap (fun e =>
          match e with
          | EvRunFullTest _ _ waitUntil _ => Some waitUntil
          | _ => None
          end) l.

(** The [i]-th full test of the job fails: it throws or returns nothing the
    loop accepts. *)
Definition fails (o : FullTestOutcome * Z) : option string :=
  match o.1 with
  | FTResults _ => None
  | FTInvalid => Some "测试未返回有效结果"
  | FTThrow message => Some message
  end.

(** The heap of a job at work: the cells [h0] that were there when the job
    resumed, then its copy of the options and the screenshot options of the
    copy, whose wait condition is [waitUntil]. *)
Definition job_heap (h0 : list Cell) (waitUntil : Value) (w : World) : Prop :=
  exists fe fs,
    heap w = h0 ++ [CObj fe; CObj fs]
    /\ obj_get "screenshotOptions" fe = VRef (S (length h0))
    /\ obj_get "waitUntil" fs = waitUntil.

(** [w'] is [w] after one call of [release], as far as the resource manager
    and the resolved promises go. *)
Definition released (w w' : World) : Prop :=
  resourceManager w' = (release (resourceManager w)).1
  /\ resolved w' = resolved w ++ option_list (release (resourceManager w)).2.

Section Job.
Context `{Platform}.

(** The [try] block of the loop: it ends the job with the results, or throws. *)
Definition attempt (env : JobEnv) (website : string)
    (options enhancedOptions : Value) (retries : nat) : M Results :=
  (if (0 <? retries)%nat then
     let* so := read enhancedOptions "screenshotOptions" in
     assign so "timeout" (VNum (60000 + Z.of_nat retries * 30000)) ;;
     if (2 <=? retries)%nat then
       let* so := read enhancedOptions "screenshotOptions" in
       assign so "waitUntil" (VStr "load")
     else ret tt
   else ret tt) ;;
  (if (0 <? retries)%nat then warmup website else ret tt) ;;
  let* results := runFullTest env website enhancedOptions retries in
  match results with
  | Some r =>
      set website options r ;;
      rm_release ;;
      ret r
  | None => throw "测试未返回有效结果"
  end.

(** After the loop: release, and the failure object. *)
Definition fail_job (website : string) (lastError : option string)
  : M TestOutcome :=
  rm_release ;;
  ret (TError website
         (match lastError with
          | Some message => message
          | None => "未知错误"
          end)).

(** [while (retries <= maxRetries) { try {...} catch (error) {...} }] and what
    follows it.  [fuel] bounds the number of iterations; the loop makes at
    most [maxRetries - retries + 1], and [testWebsite_resume] gives it
    [maxRetries + 1]. *)
Fixpoint retry_loop (fuel : nat) (env : JobEnv) (website : string)
    (options enhancedOptions : Value) (maxRetries retries : nat)
    (lastError : option string) {struct fuel} : M TestOutcome :=
  match fuel with
  | O => fail_job website lastError
  | S fuel' =>
      if (retries <=? maxRetries)%nat then
        try_catch
          (let* r := attempt env website options enhancedOptions retries in
           ret (TResults r))
          (fun error =>
             (if includes "start lh:driver:navigate" error
                 && (retries <? maxRetries)%nat
              then
                let* so := read enhancedOptions "screenshotOptions" in
                assign so "waitUntil" (VStr "load")
              else ret tt) ;;
             if (retries <? maxRetries)%nat then
               sleep (Z.of_nat (S retries) * 5000) ;;
               retry_loop fuel' env website options enhancedOptions
                 maxRetries (S retries) (Some error)
             else fail_job website (Some error))
      else fail_job website lastError
  end.

(** [testWebsite] up to [await resourceManager.acquire()]: the job is settled
    from the cache, or it waits for the promise of [acquire], which is
    fulfilled at once ([Awaiting true]) or pending ([Awaiting false]). *)
Inductive Started : Type :=
  | Settled (r : TestOutcome)
  | Awaiting (granted : bool).

Definition testWebsite_start (me : nat) (website : string) (options : Value)
  : M Started :=
  let* hit := has website options in
  if hit then
    let* r := get website options in
    ret (Settled (match r with Some r => TResults r | None => TNull end))
  else
    let* granted := rm_acquire me in
    ret (Awaiting granted).

(** [testWebsite] from the moment the promise of [acquire] is fulfilled. *)
Definition testWebsite_resume (env : JobEnv) (website : string)
    (options : Value) (maxRetries : nat) : M TestOutcome :=
  let* copy := gets (fun w => spread_with (heap w) options []) in
  let* enhancedOptions := alloc (CObj copy) in
  let* so := read enhancedOptions "screenshotOptions" in
  let* fields :=
    gets (fun w =>
            spread_with (heap w) so
              [("waitUntil", VStr "domcontentloaded");
               ("timeout", VNum 60000)]) in
  let* so' := alloc (CObj fields) in
  assign enhancedOptions "screenshotOptions" so' ;;
  retry_loop (S maxRetries) env website options enhancedOptions maxRetries
    0 None.

(** A job on its own.  [None]: every slot is taken, and the job stays
    suspended until some other job releases one. *)
Definition testWebsite (me : nat) (env : JobEnv) (website : string)
    (options : Value) (maxRetries : nat) : M (option TestOutcome) :=
  let* s := testWebsite_start me website options in
  match s with
  | Settled r => ret (Some r)
  | Awaiting true =>
      let* r := testWebsite_resume env website options maxRetries in
      ret (Some r)
  | Awaiting false => ret None
  end.

End Job.

(** ** The batch: [optimizedBatchTest] *)

(** An element of [batchResults]. *)
Inductive Entry : Type :=
  | EError (url : string) (error : string)
  | EScores (url : string) (scores : gmap string Qc) (reportPath : string)
      (screenshotPath : option string).

Definition entry_url (e : Entry) : string :=
  match e with
  | EError url _ => url
  | EScores url _ _ _ => url
  end.

(** A non-empty string is truthy. *)
Definition truthy (s : string) : bool :=
  match s with EmptyString => false | _ => true end.

(** What the callback of [websites.map] pushes once [testWebsite] is settled:
    reading [results.error] of [null], or [results.lighthouse.scores] of an
    object without [lighthouse], throws a TypeError that the [catch] of the
    callback turns into an entry. *)
Definition entry_of (website : string) (settled : completion TestOutcome)
  : Entry :=
  match settled with
  | Throw message => EError website message
  | Return TNull =>
      EError website "Cannot read properties of null (reading 'error')"
  | Return (TError _ error) =>
      if truthy error then EError website error
      else EError website
             "Cannot read properties of undefined (reading 'scores')"
  | Return (TResults r) =>
      EScores website (scores (lighthouse r)) (filePath (lighthouse r))
        (screenshotPath r)
  end.

(** Where a job of the batch stands; [options] is the local [testOptions] of
    its callback.
    - [Queued]: it waits on a pending promise of [acquire];
    - [Holding]: [acquire] is over and [release] is not yet called;
    - [Done]: [testWebsite] is settled;
    - [Pushed]: its entry is in [batchResults]. *)
Inductive JobStatus : Type :=
  | NotStarted
  | Queued (options : Value)
  | Holding (options : Value)
  | Done (settled : completion TestOutcome)
  | Pushed.

Record Batch : Type := mkBatch {
  world : World;
  status : list JobStatus;
  batchResults : list Entry;
}.

Definition is_NotStarted (s : JobStatus) : bool :=
  match s with NotStarted => true | _ => false end.
Definition is_Queued (s : JobStatus) : bool :=
  match s with Queued _ => true | _ => false end.
Definition is_Holding (s : JobStatus) : bool :=
  match s with Holding _ => true | _ => false end.
Definition is_Done (s : JobStatus) : bool :=
  match s with Done _ => true | _ => false end.
Definition is_Pushed (s : JobStatus) : bool :=
  match s with Pushed => true | _ => false end.

(** The jobs between a completed [acquire] and the matching [release]: those
    that run, and the waiters whose promise [release] has fulfilled. *)
Definition in_flight (b : Batch) : nat :=
  (length (filter (fun s => is_Holding s = true) (status b))
   + length (resolved (world b)))%nat.

Section BatchRun.
Context `{Platform}.
Variable websites : list string.
(** [config.testOptions], one object for all jobs, when the configuration has
    it; otherwise each job builds the default options. *)
Variable testOptions : option Value.
Variable envs : nat -> JobEnv.
Variable maxRetries : nat.

Definition job_options : M Value :=
  match testOptions with
  | Some options => ret options
  | None =>
      let* categories :=
        alloc (CArr [VStr "performance"; VStr "accessibility";
                     VStr "best-practices"; VStr "seo"]) in
      alloc (CObj [("outputFormat", VStr "html"); ("categories", categories)])
  end.

(** The status a job takes when its callback reaches its first [await]. *)
Definition started (options : Value) (c : completion Started) : JobStatus :=
  match c with
  | Return (Settled r) => Done (Return r)
  | Return (Awaiting true) => Holding options
  | Return (Awaiting false) => Queued options
  | Throw message => Done (Throw message)
  end.

(** One turn of the event loop.
    - [step_start]: [map] calls the callback of the next website, which runs
      up to its first [await]; [t] is the time on the clock.
    - [step_resume]: a waiter whose promise was fulfilled runs on.
    - [step_run]: a job runs from [acquire] to its return.  No other job reads
      or writes what the job works on in between (its own copy of the
      options); its writes to the cache and its [release] come last, with no
      [await] of an outside event between them.
    - [step_push]: the callback pushes the entry of a settled job.
    The callbacks all start before any of them runs on: [map] is synchronous. *)
Inductive step : Batch -> Batch -> Prop :=
  | step_start i website t w options c w' b :
      status b !! i = Some NotStarted ->
      (forall j, (j < i)%nat -> status b !! j <> Some NotStarted) ->
      websites !! i = Some website ->
      job_options (with_clock t (world b)) = (Return options, w) ->
      testWebsite_start i website options w = (c, w') ->
      step b (mkBatch w' (<[i := started options c]> (status b))
                (batchResults b))
  | step_resume i options b :
      NotStarted ∉ status b ->
      status b !! i = Some (Queued options) ->
      i ∈ resolved (world b) ->
      step b (mkBatch
                (with_resolved (filter (fun j => j <> i) (resolved (world b)))
                   (world b))
                (<[i := Holding options]> (status b)) (batchResults b))
  | step_run i website options c w' b :
      NotStarted ∉ status b ->
      status b !! i = Some (Holding options) ->
      websites !! i = Some website ->
      testWebsite_resume (envs i) website options maxRetries (world b)
        = (c, w') ->
      step b (mkBatch w' (<[i := Done c]> (status b)) (batchResults b))
  | step_push i website c b :
      NotStarted ∉ status b ->
      status b !! i = Some (Done c) ->
      websites !! i = Some website ->
      step b (mkBatch (world b) (<[i := Pushed]> (status b))
                (batchResults b ++ [entry_of website c])).


(** The batch when [map] is about to start: a fresh resource manager, no job
    started, nothing pushed. *)
Definition initial (maxConcurrent : Z) (w : World) : Batch :=
  mkBatch
    (with_resolved [] (with_resourceManager (newResourceManager maxConcurrent) w))
    (replicate (length websites) NotStarted) [].

(** [Promise.all] is fulfilled when every callback is over. *)
Definition finished (b : Batch) : Prop :=
  Forall (fun s => s = Pushed) (status b).

End BatchRun.

(** ** Numbers

    A JavaScript number is an IEEE 754 double.  A finite double is a rational
    number, and [+], [*] and [/] give the double nearest to the exact result,
    a tie going to the even mantissa.  [to_double] is this rounding: 53 bits
    of mantissa, the exponent of the last bit not below -1074 (so subnormal
    numbers are there).  Infinities, NaN and the sign of zero are not
    modelled: scores are finite, and sums of scores stay far from overflow. *)

Definition pow2 (e : Z) : Q :=
  if 0 <=? e then inject_Z (2 ^ e) else 1 # Z.to_pos (2 ^ (- e)).

(** The integer nearest to [q], the even one of two that are equally near. *)
Definition nearest_even (q : Q) : Z :=
  let f := Qfloor q in
  match (q - inject_Z f ?= 1 # 2)%Q with
  | Lt => f
  | Gt => f + 1
  | Eq => if Z.even f then f else f + 1
  end.

(** The exponent of the last mantissa bit of a positive [q]: the [e] with
    [2^52 <= q / 2^e < 2^53], or -1074 where that would be lower. *)
Definition exponent (q : Q) : Z :=
  let e := Z.log2 (Qnum q) - Z.log2 (Z.pos (Qden q)) in
  Z.max (if Qle_bool (pow2 e) q then e - 52 else e - 53) (-1074).

Definition to_double (x : Qc) : Qc :=
  let a := Qabs x in
  let e := exponent a in
  let m := inject_Z (nearest_even (a / pow2 e)) in
  match (x ?= 0)%Q with
  | Eq => 0%Qc
  | Gt => Q2Qc (m * pow2 e)
  | Lt => Q2Qc (- (m * pow2 e))
  end.

(** [x + y], [x * y], [x - y] and [x / y] on numbers *)
Definition number_add (x y : Qc) : Qc := to_double (x + y).
Definition number_mul (x y : Qc) : Qc := to_double (x * y).
Definition number_sub (x y : Qc) : Qc := to_double (x - y).
Definition number_div (x y : Qc) : Qc := to_double (x / y).

(** [x] is a double: rounding leaves it as it is. *)
Definition is_double (x : Qc) : Prop := to_double x = x.

(** ** The summary: [generateSummaryReport]

    The numbers of the summary; the average scores are absent when no result
    has scores.  A score is the rational number the double stands for; the
    sum of a category is added up from 0 along the results, each addition
    rounded, and the division by the count is rounded. *)

Record SummaryData : Type := mkSummaryData {
  totalWebsites : nat;
  successfulTests : nat;
  failedTests : nat;
  averageScores : option (gmap string Qc);
}.

(** [r.error] is truthy *)
Definition has_error (r : Entry) : bool :=
  match r with
  | EError _ error => truthy error
  | EScores _ _ _ _ => false
  end.

(** [r.scores] *)
Definition entry_scores (r : Entry) : option (gmap string Qc) :=
  match r with
  | EError _ _ => None
  | EScores _ s _ _ => Some s
  end.

(** [r.scores[category]] of a result that has scores *)
Definition score (category : string) (r : Entry) : option Qc :=
  s ← entry_scores r; s !! category.

Definition successfulResults (results : list Entry) : list Entry :=
  filter (fun r => is_Some (entry_scores r)) results.

(** The set the [forEach] over the successful results fills. *)
Definition categories (results : list Entry) : gset string :=
  ⋃ (map (fun r => dom (default ∅ (entry_scores r))) (successfulResults results)).

Definition with_category (category : string) (results : list Entry)
  : list Entry :=
  filter (fun r => is_Some (score category r)) (successfulResults results).

Definition average (category : string) (results : list Entry) : Qc :=
  let sum :=
    foldl (fun acc r => number_add acc (default 0%Qc (score category r))) 0%Qc
      (with_category category results) in
  let count := length (with_category category results) in
  if (0 <? count)%nat then number_div sum (Qc_of_Z (Z.of_nat count)) else 0%Qc.

Definition generateSummaryReport (results : list Entry) : SummaryData :=
  {| totalWebsites := length results;
     successfulTests := length (filter (fun r => has_error r = false) results);
     failedTests := length (filter (fun r => has_error r = true) results);
     averageScores :=
       if (0 <? length (successfulResults results))%nat
       then Some (set_to_map (fun c => (c, average c results))
                    (categories results))
       else None |}.

(** The arithmetic mean of a list of numbers in exact arithmetic, and the
    scores a list of results has for a category: what the summary is checked
    against. *)
Definition mean (xs : list Qc) : Qc :=
  (foldr Qcplus 0 xs / Qc_of_Z (Z.of_nat (length xs)))%Qc.

(** No addition of the sum of [xs], started at [acc], rounds. *)
Fixpoint exact_sum (acc : Qc) (xs : list Qc) : Prop :=
  match xs with
  | [] => True
  | x :: rest => is_double (acc + x) /\ exact_sum (acc + x)%Qc rest
  end.

Definition category_scores (category : string) (results : list Entry)
  : list Qc :=
  omap (score category) results.

(** ** The configuration: [loadConfig] and the guard of the batch *)

(** Reading the text of a file ([fs.readFileSync(path, 'utf8')]) and
    [JSON.parse]; [None] stands for its SyntaxError. *)
Class ConfigSource : Type := {
  readTextSync : string -> completion string;
  JSON_parse : string -> option JSON;
}.

Definition no_websites : JSON := JObj [("websites", JArr [])].

Definition loadConfig `{ConfigSource} (configPath : string) : JSON :=
  match readTextSync configPath with
  | Throw _ => no_websites
  | Return configData =>
      match JSON_parse configData with
      | None => no_websites
      | Some config => config
      end
  end.

Fixpoint json_get (k : string) (fields : list (string * JSON)) : option JSON :=
  match fields with
  | [] => None
  | (k', v) :: rest => if String.eqb k k' then Some v else json_get k rest
  end.

Definition falsy (j : JSON) : bool :=
  match j with
  | JNull | JBool false | JNum 0 | JStr EmptyString => true
  | _ => false
  end.

(** The start of [optimizedBatchTest], from [loadConfig] to [websites.map]:
    [Return None] when it returns before any job is optimizedBatchTest_guard,
    [Return (Some websites)] when it dispatches one job per website, and a
    throw when the configuration is [null] or its [websites] cannot be
    mapped over. *)
Definition optimizedBatchTest_guard `{ConfigSource} (configPath : string)
  : completion (option (list JSON)) :=
  match loadConfig configPath with
  | JNull => Throw "Cannot read properties of null (reading 'websites')"
  | JObj fields =>
      match json_get "websites" fields with
      | None => Return None
      | Some websites =>
          if falsy websites then Return None
          else
            match websites with
            | JArr [] => Return None
            | JArr items => Return (Some items)
            | JObj inner =>
                match json_get "length" inner with
                | Some (JNum 0) => Return None
                | _ => Throw "config.websites.map is not a function"
                end
            | _ => Throw "config.websites.map is not a function"
            end
      end
  | _ => Return None
  end.

(** ** A small platform and world for the examples

    The examples run the model on a platform whose [JSON.stringify] prints
    without escapes and whose digest is the text itself. *)

Definition quote : string := String (Ascii.ascii_of_nat 34) EmptyString.

Fixpoint print_json (j : JSON) : string :=
  match j with
  | JNull => "null"
  | JBool true => "true"
  | JBool false => "false"
  | JNum n => pretty n
  | JStr s => quote +:+ s +:+ quote
  | JArr items => "[" +:+ String.concat "," (map print_json items) +:+ "]"
  | JObj fields =>
      "{" +:+ String.concat ","
                (map (fun kv : string * JSON =>
                        let (k, v) := kv in
                        quote +:+ k +:+ quote +:+ ":" +:+ print_json v)
                   fields) +:+ "}"
  end.

#[export] Instance example_platform : Platform :=
  {| JSON_stringify := print_json; md5_hex := fun text => text |}.

Definition example_disk : Disk := mkDisk ∅ ∅ ∅ ∅.

(** An empty cache that keeps results for an hour, three slots, and one
    options object [{outputFormat: 'html'}] at address 0. *)
Definition example_world : World :=
  mkWorld [CObj [("outputFormat", VStr "html")]]
    (mkResultCache ∅ 3600000) example_disk (newResourceManager 3) [] 1000 [].

Definition example_results (performance : Z) : Results :=
  mkResults (Some "reports/site/screenshot.png")
    (mkLighthouse "reports/site/lighthouse.html" "reports/site/summary.json"
       {[ "performance" := Qc_of_Z performance ]}).

(** A site whose full test fails twice, the first time on the navigation mark
    of Lighthouse, and then returns results. *)
Definition example_env : JobEnv :=
  fun i =>
    match i with
    | 0%nat => (FTThrow "Protocol error: start lh:driver:navigate", 5000)
    | 1%nat => (FTInvalid, 9000)
    | _ => (FTResults (example_results 80), 20000)
    end.

(** The example world on a disk that refuses to write the cache file of the
    example site, and on a disk that refuses to delete it. *)
Definition example_file : string :=
  cacheFile
    (key_of (JObj [("url", JStr "https://a.example");
                   ("options", JObj [("outputFormat", JStr "html")])])).

Definition read_only_world : World :=
  with_disk (mkDisk ∅ ∅ {[example_file]} ∅) example_world.

Definition undeletable_world : World :=
  with_disk (mkDisk ∅ ∅ ∅ {[example_file]}) example_world.

Definition unreadable_world : World :=
  with_disk (mkDisk ∅ {[example_file]} ∅ ∅) example_world.

(** ** What the proofs about a batch keep track of *)

(** The websites whose entry is pushed, in the order of the input. *)
Fixpoint pushed (st : list JobStatus) (ws : list string) : list string :=
  match st, ws with
  | s :: st', u :: ws' => (if is_Pushed s then [u] else []) ++ pushed st' ws'
  | _, _ => []
  end.

(** How far a job has come. *)
Definition rank (s : JobStatus) : nat :=
  match s with
  | NotStarted => 0
  | Queued _ => 1
  | Holding _ => 2
  | Done _ => 3
  | Pushed => 4
  end.

Definition progress (b : Batch) : nat := sum_list (map rank (status b)).

(** The resource manager and the jobs agree: the running count is the number
    of jobs in flight and stays within the cap, the waiters in the queue and
    the waiters just resolved are the jobs that are queued, each once, and
    jobs wait only while every slot is taken. *)
Record consistent (cap : Z) (n : nat) (b : Batch) : Prop := mkConsistent {
  cons_length : length (status b) = n;
  cons_cap : maxConcurrent (resourceManager (world b)) = cap;
  cons_running : Z.of_nat (in_flight b) = running (resourceManager (world b));
  cons_bound : running (resourceManager (world b)) <= Z.max 0 cap;
  cons_waiters :
    forall i,
      i ∈ queue (resourceManager (world b)) ++ resolved (world b)
      <-> exists options, status b !! i = Some (Queued options);
  cons_nodup : NoDup (queue (resourceManager (world b)) ++ resolved (world b));
  cons_full :
    queue (resourceManager (world b)) <> [] ->
    cap <= running (resourceManager (world b));
}.

(** ** Schedules: running the event loop along a given order of turns *)

Inductive Turn : Type :=
  | TStart (i : nat) (t : Z)
  | TResume (i : nat)
  | TRun (i : nat)
  | TPush (i : nat).

Definition all_started (st : list JobStatus) : bool :=
  forallb (fun s => negb (is_NotStarted s)) st.

Section Schedules.
Context `{Platform}.
Variable websites : list string.
Variable testOptions : option Value.
Variable envs : nat -> JobEnv.
Variable maxRetries : nat.

(** The batch after a turn, when the event loop can take it. *)
Definition take_turn (turn : Turn) (b : Batch) : option Batch :=
  match turn with
  | TStart i t =>
      match status b !! i, websites !! i with
      | Some NotStarted, Some website =>
          if all_started (take i (status b)) then
            match job_options testOptions (with_clock t (world b)) with
            | (Return options, w) =>
                let (c, w') := testWebsite_start i website options w in
                Some (mkBatch w' (<[i := started options c]> (status b))
                        (batchResults b))
            | (Throw _, _) => None
            end
          else None
      | _, _ => None
      end
  | TResume i =>
      match status b !! i with
      | Some (Queued options) =>
          if all_started (status b) && bool_decide (i ∈ resolved (world b))
          then Some (mkBatch
                       (with_resolved
                          (filter (fun j => j <> i) (resolved (world b)))
                          (world b))
                       (<[i := Holding options]> (status b)) (batchResults b))
          else None
      | _ => None
      end
  | TRun i =>
      match status b !! i, websites !! i with
      | Some (Holding options), Some website =>
          if all_started (status b) then
            let (c, w') :=
              testWebsite_resume (envs i) website options maxRetries (world b)
            in
            Some (mkBatch w' (<[i := Done c]> (status b)) (batchResults b))
          else None
      | _, _ => None
      end
  | TPush i =>
      match status b !! i, websites !! i with
      | Some (Done c), Some website =>
          if all_started (status b) then
            Some (mkBatch (world b) (<[i := Pushed]> (status b))
                    (batchResults b ++ [entry_of website c]))
          else None
      | _, _ => None
      end
  end.

Fixpoint run_schedule (turns : list Turn) (b : Batch) : option Batch :=
  match turns with
  | [] => Some b
  | turn :: rest =>
      match take_turn turn b with
      | Some b' => run_schedule rest b'
      | None => None
      end
  end.

(** The websites whose entries the [TPush] turns of a schedule push, in the
    order of the turns. *)
Definition push_order (turns : list Turn) : list string :=
  omap (fun turn =>
          match turn with
          | TPush i => websites !! i
          | _ => None
          end) turns.

End Schedules.

(** Two sites that both succeed at the first full test, on the example
    world; the second site is done before the first. *)
Definition two_sites : list string := ["https://a.example"; "https://b.example"].

Definition first_try (performance : Z) : JobEnv :=
  fun _ => (FTResults (example_results performance), 5000).

Definition two_envs (i : nat) : JobEnv :=
  match i with 0%nat => first_try 80 | _ => first_try 100 end.

Definition second_site_first : list Turn :=
  [TStart 0 1000; TStart 1 1000; TRun 1; TPush 1; TRun 0; TPush 0].

(** The two sites with three slots once every callback is over, and with one
    slot once both callbacks have started. *)
Definition reordered_batch : Batch :=
  default (initial two_sites 3 example_world)
    (run_schedule two_sites (Some (VRef 0)) two_envs 2 second_site_first
       (initial two_sites 3 example_world)).

(** The same run when the second site has pushed its entry and the first has
    not yet run. *)
Definition second_pushed_batch : Batch :=
  default (initial two_sites 3 example_world)
    (run_schedule two_sites (Some (VRef 0)) two_envs 2
       (take 4 second_site_first) (initial two_sites 3 example_world)).

Definition one_slot_batch : Batch :=
  default (initial two_sites 1 example_world)
    (run_schedule two_sites (Some (VRef 0)) two_envs 2
       [TStart 0 1000; TStart 1 1000] (initial two_sites 1 example_world)).

(** A batch of three sites: one fails, two have performance scores 80 and
    100. *)
Definition three_results : list Entry :=
  [EScores "https://a.example" {[ "performance" := Qc_of_Z 80 ]}
     "reports/a/lighthouse.html" None;
   EError "https://b.example" "net::ERR_NAME_NOT_RESOLVED";
   EScores "https://c.example" {[ "performance" := Qc_of_Z 100 ]}
     "reports/c/lighthouse.html" None].

(** The same batch when the failure has the message [error]. *)
Definition one_failure (error : string) : list Entry :=
  [EScores "https://a.example" {[ "performance" := Qc_of_Z 80 ]}
     "reports/a/lighthouse.html" None;
   EError "https://b.example" error;
   EScores "https://c.example" {[ "performance" := Qc_of_Z 100 ]}
     "reports/c/lighthouse.html" None].

(** Three sites whose performance scores are 0.21, 0.58 and 0.29 times 100,
    the way [runLighthouseTest] computes a score from the fraction Lighthouse
    reports. *)
Definition percent (hundredths : Z) : Qc :=
  number_mul (to_double (Q2Qc (hundredths # 100))) (Qc_of_Z 100).

Definition rounded_results : list Entry :=
  [EScores "https://a.example" {[ "performance" := percent 21 ]}
     "reports/a/lighthouse.html" None;
   EScores "https://b.example" {[ "performance" := percent 58 ]}
     "reports/b/lighthouse.html" None;
   EScores "https://c.example" {[ "performance" := percent 29 ]}
     "reports/c/lighthouse.html" None].

(** Two worlds that differ in the order in which the properties of the
    options object at address 0 were written. *)
Definition format_first_world : World :=
  with_heap [CObj [("outputFormat", VStr "html"); ("timeout", VNum 60000)]]
    example_world.

Definition timeout_first_world : World :=
  with_heap [CObj [("timeout", VNum 60000); ("outputFormat", VStr "html")]]
    example_world.

(** A configuration directory for the examples: [./websites.json] is cut off
    in the middle, [./empty.json] is the empty object, and there is no other
    file; the parser knows the empty object only. *)
#[export] Instance example_config : ConfigSource :=
  {| readTextSync := fun path =>
       if String.eqb path "./websites.json" then Return "{ websites: [" 
       else if String.eqb path "./empty.json" then Return "{}"
       else Throw ("ENOENT: no such file or directory, open " +:+ path);
     JSON_parse := fun text =>
       if String.eqb text "{}" then Some (JObj []) else None |}.

(** * The rest of the orchestration

    What follows models the code around the functions above: the resource
    manager under a series of calls, the loading and the cleaning of the
    cache, the sequential batch of [batch-test.js], and the retry loops of
    [index.js]. *)

(** ** The resource manager under a series of calls *)

(** The jobs [js] call [acquire] one after the other; the list tells, call by
    call, whether the promise was fulfilled at once. *)
Fixpoint acquire_all (js : list nat) (rm : ResourceManager)
  : ResourceManager * list bool :=
  match js with
  | [] => (rm, [])
  | me :: rest =>
      let (rm1, granted) := acquire me rm in
      let (rm2, more) := acquire_all rest rm1 in
      (rm2, granted :: more)
  end.

(** [release] called [n] times; the list names the waiter each call
    resolved. *)
Fixpoint release_n (n : nat) (rm : ResourceManager)
  : ResourceManager * list (option nat) :=
  match n with
  | O => (rm, [])
  | S n' =>
      let (rm1, next) := release rm in
      let (rm2, more) := release_n n' rm1 in
      (rm2, next :: more)
  end.

(** ** Worlds for the examples of the cache *)

(** The example world once the results of the example site are cached. *)
Definition cached_world : World :=
  (set "https://a.example" (VRef 0) (example_results 80) example_world).2.

(** ** What a job leaves in the cache *)

Section Cached.
Context `{Platform}.

(** In [w'] the results [r] are cached under the key of the site and the
    options, with the time on the clock of [w'] as their timestamp; [w] is
    the world the job started from.  The file of the key has the results
    when the disk refuses no write. *)
Definition cached_in (website : string) (options : Value) (r : Results)
    (w w' : World) : Prop :=
  exists data,
    key_data (heap w') website options = Some data
    /\ cache (resultCache w') !! key_of data = Some (clock w')
    /\ cacheDuration (resultCache w') = cacheDuration (resultCache w)
    /\ read_denied (disk w') = read_denied (disk w)
    /\ (write_denied (disk w) = ∅ ->
        files (disk w') !! cacheFile (key_of data)
        = Some (FCache (clock w') r)).

End Cached.

(** [w'] has the cache duration, the clock and the refusals of the disk of
    [w]. *)
Definition same_settings (w w' : World) : Prop :=
  cacheDuration (resultCache w') = cacheDuration (resultCache w)
  /\ clock w' = clock w
  /\ read_denied (disk w') = read_denied (disk w)
  /\ write_denied (disk w') = write_denied (disk w)
  /\ unlink_denied (disk w') = unlink_denied (disk w).


(** The example world after the job of the example site, whose third full
    test succeeds, and after a job whose full tests all fail. *)
Definition tested_world : World :=
  (testWebsite 0 example_env "https://a.example" (VRef 0) 3 example_world).2.

Definition failing_env : JobEnv :=
  fun _ => (FTThrow "net::ERR_NAME_NOT_RESOLVED", 7000).

Definition failed_world : World :=
  (testWebsite 0 failing_env "https://a.example" (VRef 0) 1 example_world).2.

(** The two sites on a manager without a slot, once both callbacks have
    started. *)
Definition no_slot_batch : Batch :=
  default (initial two_sites 0 example_world)
    (run_schedule two_sites (Some (VRef 0)) two_envs 2
       [TStart 0 1000; TStart 1 1000] (initial two_sites 0 example_world)).

(** ** The summary *)

(** An entry [{url, error: ''}]: the callback caught an error whose message
    is empty. *)
Definition empty_error (r : Entry) : bool :=
  match r with
  | EError _ EmptyString => true
  | _ => false
  end.

(** ** Loading and cleaning the cache ([loadCache], [cleanup])

    The disk of the model holds files as [JSON.parse] sees them: the files
    that [set] wrote, and files that are no JSON.  What [fs.readdirSync]
    returns for the cache directory, names in an order that the operating
    system chooses, is a parameter. *)

(** [s.endsWith(suffix)] *)
Fixpoint endsWith (suffix s : string) : bool :=
  String.eqb s suffix
  || match s with
     | EmptyString => false
     | String _ rest => endsWith suffix rest
     end.

Fixpoint drop_string (n : nat) (s : string) : string :=
  match n, s with
  | S n', String _ rest => drop_string n' rest
  | _, _ => s
  end.

(** [s.replace(needle, replacement)] for a string [needle]: the first
    occurrence is replaced (the replacement has no [$] pattern). *)
Fixpoint replace_first (needle replacement s : string) : string :=
  if String.prefix needle s
  then replacement +:+ drop_string (String.length needle) s
  else match s with
       | EmptyString => EmptyString
       | String a rest => String a (replace_first needle replacement rest)
       end.

(** [path.join(this.cacheDir, file)] *)
Definition cachePath (file : string) : string := "cache/" +:+ file.

(** One turn of the loop of [loadCache], for the name [file]. *)
Definition load_file (file : string) : M unit :=
  if endsWith ".json" file then
    let key := replace_first ".json" "" file in
    let* data := (fun w => (readFileSync (cachePath file) (disk w), w)) in
    match data with
    | FCache timestamp _ =>
        modify (fun w =>
                  with_cache (<[key := timestamp]> (cache (resultCache w))) w)
    | FGarbage => throw "Unexpected token in JSON"
    end
  else ret tt.

(** The loop of [loadCache] over the names of the directory. *)
Fixpoint load_files (listing : list string) : M unit :=
  match listing with
  | [] => ret tt
  | file :: rest => load_file file ;; load_files rest
  end.

(** [loadCache]; [readdir] is what [fs.readdirSync(this.cacheDir)] does. *)
Definition loadCache (readdir : completion (list string)) : M unit :=
  try_catch
    (match readdir with
     | Return listing => load_files listing
     | Throw message => throw message
     end)
    (fun _ => ret tt).

(** [new ResultCache(cacheDuration)]: an empty map, then [loadCache].  The
    cache directory exists. *)
Definition newResultCache (duration : Z) (readdir : completion (list string))
  : M unit :=
  modify (fun w =>
            mkWorld (heap w) (mkResultCache ∅ duration) (disk w)
              (resourceManager w) (resolved w) (clock w) (log w)) ;;
  loadCache readdir.

(** One turn of the loop of [cleanup], for the entry of [key]. *)
Definition cleanup_entry (now : Z) (key : string) (timestamp : Z) : M unit :=
  let* duration := gets (fun w => cacheDuration (resultCache w)) in
  if bool_decide (duration <= now - timestamp) then
    modify (fun w => with_cache (delete key (cache (resultCache w))) w) ;;
    let* there := gets (fun w => existsSync (cacheFile key) (disk w)) in
    if there then
      fun w =>
        match unlinkSync (cacheFile key) (disk w) with
        | Return d => (Return tt, with_disk d w)
        | Throw e => (Throw e, w)
        end
    else ret tt
  else ret tt.

(** The loop of [cleanup] over the entries of the map, which come in the
    order of their insertion. *)
Fixpoint cleanup_entries (now : Z) (entries : list (string * Z)) : M unit :=
  match entries with
  | [] => ret tt
  | (key, timestamp) :: rest =>
      cleanup_entry now key timestamp ;; cleanup_entries now rest
  end.

Definition cleanup (entries : list (string * Z)) : M unit :=
  let* now := gets clock in
  cleanup_entries now entries.

(** The names of a cache directory that only [set] has written to: each is
    the key of an entry followed by [.json], and the file can be read. *)
Definition written_by_set (d : Disk) (file : string) : Prop :=
  (exists key, file = key +:+ ".json" /\ includes ".json" key = false)
  /\ (exists timestamp result,
        files d !! cachePath file = Some (FCache timestamp result))
  /\ cachePath file ∉ read_denied d.


(** The key of the example site on the example platform, the listing of the
    cache directory of [cached_world], and that world with one more file,
    which is no JSON, and an empty map. *)
Definition example_key : string :=
  key_of (JObj [("url", JStr "https://a.example");
                ("options", JObj [("outputFormat", JStr "html")])]).

Definition example_listing : list string := [example_key +:+ ".json"].

Definition corrupt_world : World :=
  with_cache ∅
    (with_disk
       (mkDisk (<[cachePath "broken.json" := FGarbage]>
                  (files (disk cached_world))) ∅ ∅ ∅)
       cached_world).

(** The keys of the entries that have expired at [now]. *)
Definition expired_keys (duration now : Z) (entries : list (string * Z))
  : list string :=
  (filter (fun kt => duration <= now - kt.2) entries).*1.

(** [cached_world] an hour and a second later, on a disk that lets no file
    of the cache go. *)
Definition locked_world : World :=
  with_clock 3601000
    (with_disk
       (mkDisk (files (disk cached_world)) ∅ ∅ {[cacheFile example_key]})
       cached_world).

(** ** The sequential batch ([batchTest] of batch-test.js)

    The loop tests the websites one after the other; [runs i] is what the
    full test of the [i]-th website does. *)

(** What one turn of the loop appends to [batchResults]: nothing when the
    full test returns no object with a [lighthouse] property. *)
Definition batchTest_turn (website : string) (outcome : FullTestOutcome)
  : list Entry :=
  match outcome with
  | FTResults r =>
      [EScores website (scores (lighthouse r)) (filePath (lighthouse r))
         (screenshotPath r)]
  | FTInvalid => []
  | FTThrow message => [EError website message]
  end.

(** [for (let i = ...; i < config.websites.length; i++)], from index [i] on,
    with the websites still to test. *)
Fixpoint batchTest_loop (i : nat) (websites : list string)
    (runs : nat -> FullTestOutcome) (batchResults : list Entry) : list Entry :=
  match websites with
  | [] => batchResults
  | website :: rest =>
      batchTest_loop (S i) rest runs
        (batchResults ++ batchTest_turn website (runs i))
  end.

(** The rows of the table in [generateHtmlReport].  The row of a result
    whose [error] is truthy shows the message.  Every other row reads
    [result.scores[category]], for 'performance' first: a result without
    scores, which is the entry of an error with an empty message, makes that
    read throw a TypeError. *)
Definition generateResultRows (results : list Entry) : completion unit :=
  if existsb empty_error results
  then Throw "Cannot read properties of undefined (reading 'performance')"
  else Return tt.

(** The directory of the summary on the disk: how the making of the
    directory ends ([fs.mkdirSync], called when [fs.existsSync] finds no
    directory; [Return] also when there is one), and how the
    [fs.writeFileSync] of the JSON summary and of the HTML summary end. *)
Record SummaryDir : Type := mkSummaryDir {
  mkdirSync : completion unit;
  write_json : completion unit;
  write_html : completion unit;
}.

(** What [batchTest] returns when it returns an object. *)
Record BatchReturn : Type := mkBatchReturn {
  returned_totalWebsites : nat;
  returned_results : list Entry;
}.

(** [batchTest]: how the call ends, and the summary that stands in
    [batch-summary.json] by then, if any.  [Return None] is the [undefined]
    it returns for an empty list.  The directory is made before the loop; the
    JSON summary is written before the HTML report is generated; none of
    this is inside a [try], so an error there rejects the promise of
    [batchTest]. *)
Definition batchTest (dir : SummaryDir) (websites : list string)
    (runs : nat -> FullTestOutcome)
  : completion (option BatchReturn) * option SummaryData :=
  match websites with
  | [] => (Return None, None)
  | _ =>
      match mkdirSync dir with
      | Throw e => (Throw e, None)
      | Return _ =>
          let batchResults := batchTest_loop 0 websites runs [] in
          let summaryData := generateSummaryReport batchResults in
          match write_json dir with
          | Throw e => (Throw e, None)
          | Return _ =>
              match generateResultRows batchResults with
              | Throw e => (Throw e, Some summaryData)
              | Return _ =>
                  match write_html dir with
                  | Throw e => (Throw e, Some summaryData)
                  | Return _ =>
                      (Return
                         (Some {| returned_totalWebsites := length websites;
                                  returned_results := batchResults |}),
                       Some summaryData)
                  end
              end
          end
      end
  end.

(** A directory that takes every write. *)
Definition writable_dir : SummaryDir :=
  {| mkdirSync := Return tt; write_json := Return tt; write_html := Return tt |}.

(** Three sites, of which the second returns nothing to push. *)
Definition three_runs (i : nat) : FullTestOutcome :=
  match i with
  | 0%nat => FTResults (example_results 80)
  | 1%nat => FTInvalid
  | _ => FTThrow "net::ERR_NAME_NOT_RESOLVED"
  end.

(** Two sites, of which the second throws an error without a message. *)
Definition silent_runs (i : nat) : FullTestOutcome :=
  match i with
  | 0%nat => FTResults (example_results 80)
  | _ => FTThrow ""
  end.

(** ** Old reports ([cleanupOldReports])

    The reports directory is the environment: whether it exists, what
    [fs.readdirSync] lists, what [fs.statSync] says of an item, and whether
    [fs.rmSync] removes it. *)

Record Stats : Type := mkStats {
  isDirectory : bool;
  mtimeMs : Z;
}.

Record ReportsDir : Type := mkReportsDir {
  reports_exist : bool;
  readdirSync : completion (list string);
  statSync : string -> completion Stats;
  (** [Some message] when [fs.rmSync] throws *)
  rmSync : string -> option string;
}.

(** The loop over the items: the items it removed, and how it ended. *)
Fixpoint remove_old (dir : ReportsDir) (now maxAgeMs : Z)
    (items : list string) : completion unit * list string :=
  match items with
  | [] => (Return tt, [])
  | item :: rest =>
      match statSync dir item with
      | Throw message => (Throw message, [])
      | Return stats =>
          if isDirectory stats && String.prefix "batch-summary-" item
             && (maxAgeMs <? now - mtimeMs stats)
          then
            match rmSync dir item with
            | Some message => (Throw message, [])
            | None =>
                let (c, removed) := remove_old dir now maxAgeMs rest in
                (c, item :: removed)
            end
          else remove_old dir now maxAgeMs rest
      end
  end.

(** [cleanupOldReports]: it returns nothing and catches every error; the
    model returns the items it removed. *)
Definition cleanupOldReports (dir : ReportsDir) (now maxAgeDays : Z)
  : list string :=
  if reports_exist dir then
    match readdirSync dir with
    | Throw _ => []
    | Return items =>
        (remove_old dir now (maxAgeDays * 24 * 60 * 60 * 1000) items).2
    end
  else [].

(** The items [cleanupOldReports] is after. *)
Definition old_summary (dir : ReportsDir) (now maxAgeDays : Z) (item : string)
  : Prop :=
  exists stats,
    statSync dir item = Return stats
    /\ isDirectory stats = true
    /\ String.prefix "batch-summary-" item = true
    /\ maxAgeDays * 86400000 < now - mtimeMs stats.

(** A reports directory on the first of the month: the reports of a site, a
    summary of forty days ago and the summary of the batch that runs. *)
Definition example_reports : ReportsDir :=
  {| reports_exist := true;
     readdirSync :=
       Return ["a.example"; "batch-summary-old"; "batch-summary-now"];
     statSync := fun item =>
       if String.eqb item "a.example" then Return (mkStats true 0)
       else if String.eqb item "batch-summary-old" then Return (mkStats true 0)
       else Return (mkStats true 3456000000);
     rmSync := fun _ => None |}.

(** ** The browser side: [captureScreenshot], [runLighthouseTest] and
    [runFullTest] of index.js

    Playwright, chrome-launcher and Lighthouse are the environment: it says
    how each call ends.  The functions leave a trace of the calls they make.
    The output directories exist (the model leaves [fs.mkdirSync] out), and
    what is thrown by the environment is an [Error] with a message. *)

Module Index.

(** A call returns, or throws: an [Error] with its message, or the value
    [null] ([None]). *)
Inductive result (A : Type) : Type :=
  | Returned (a : A)
  | Thrown (error : option string).
Arguments Returned {A} a.
Arguments Thrown {A} error.

Inductive BrowserEvent : Type :=
  (** [chromium.launch()] returned *)
  | BrLaunch
  (** an attempt of [captureScreenshot] starts, with the wait condition and
      the timeout of [screenshotOptions] at that moment *)
  | BrAttempt (retryAttempt : Z) (waitUntil : string) (timeout : Z)
  (** [browser.close()] is called *)
  | BrClose
  (** the wait before a retry *)
  | Backoff (ms : Z)
  (** [chromeLauncher.launch()] returned its [chrome]-th instance *)
  | ChLaunch (chrome : nat)
  (** [chrome.kill()] is called on an instance *)
  | ChKill (chrome : nat)
  (** [lighthouse(testUrl, lighthouseOptions)] is called, with the instance
      whose port the options name and their [settings.throttlingMethod] *)
  | LhRun (retryCount : Z) (chrome : nat) (throttlingMethod : string).

#[export] Instance BrowserEvent_eq_dec : EqDecision BrowserEvent.
Proof. solve_decision. Defined.

(** How a call of [lighthouse] ends: a result with a report and the scores of
    its categories (from 0 to 1), a result without a report, nothing
    ([undefined]), or an error. *)
Inductive RunnerResult : Type :=
  | RReport (categories : gmap string Qc)
  | RNoReport
  | RNothing.

Inductive LhOutcome : Type :=
  | LhReturn (runnerResult : RunnerResult)
  | LhThrow (message : string).

Record Env : Type := mkEnv {
  (** [chromium.launch()]: [Some message] when it throws *)
  chromium_launch : option string;
  (** the attempt [retryAttempt] of [captureScreenshot], from
      [browser.newContext] to [context.close] *)
  page_attempt : Z -> option string;
  browser_close : option string;
  (** the [n]-th call of [chromeLauncher.launch()] *)
  chrome_launch : nat -> option string;
  (** the [n]-th call of [chrome.kill()] *)
  chrome_kill : nat -> option string;
  (** [getLighthouse()] returns the module, or [null] *)
  lighthouse_loads : bool;
  (** the call of [lighthouse] at [retryCount] *)
  lighthouse_run : Z -> LhOutcome;
  (** the two [fs.writeFileSync] of the report and the summary *)
  write_reports : option string;
  (** the paths of the screenshot, of the report and of the summary *)
  screenshotFile : string;
  reportFile : string;
  summaryFile : string;
}.

(** *** [captureScreenshot] *)

(** [screenshotOptions], and the [options] argument: the properties it
    sets. *)
Record ScreenshotOptions : Type := mkScreenshotOptions {
  fullPage : bool;
  timeout : Z;
  waitUntil : string;
  deviceScaleFactor : Z;
  retryCount : Z;
}.

Record ScreenshotOverrides : Type := mkScreenshotOverrides {
  set_fullPage : option bool;
  set_timeout : option Z;
  set_waitUntil : option string;
  set_deviceScaleFactor : option Z;
  set_retryCount : option Z;
}.

Definition no_overrides : ScreenshotOverrides :=
  mkScreenshotOverrides None None None None None.

Definition defaultScreenshotOptions : ScreenshotOptions :=
  {| fullPage := true;
     timeout := 60000;
     waitUntil := "domcontentloaded";
     deviceScaleFactor := 1;
     retryCount := 2 |}.

(** [{ ...defaultOptions, ...options }] *)
Definition screenshotOptions (options : ScreenshotOverrides)
  : ScreenshotOptions :=
  {| fullPage := default (fullPage defaultScreenshotOptions) (set_fullPage options);
     timeout := default (timeout defaultScreenshotOptions) (set_timeout options);
     waitUntil :=
       default (waitUntil defaultScreenshotOptions) (set_waitUntil options);
     deviceScaleFactor :=
       default (deviceScaleFactor defaultScreenshotOptions)
         (set_deviceScaleFactor options);
     retryCount :=
       default (retryCount defaultScreenshotOptions) (set_retryCount options) |}.

(** [screenshotOptions.waitUntil = ...] after [retryAttempt++] *)
Definition next_waitUntil (retryAttempt : Z) (current : string) : string :=
  if retryAttempt =? 1 then "load"
  else if retryAttempt =? 2 then "commit"
  else current.

(** [while (retryAttempt <= screenshotOptions.retryCount) { try ... }] and
    the [throw lastError] after it.  [fuel] bounds the iterations; the loop
    makes at most [retryCount + 1]. *)
Fixpoint screenshot_loop (fuel : nat) (env : Env) (outputPath : string)
    (so : ScreenshotOptions) (retryAttempt : Z) (lastError : option string)
  : result string * list BrowserEvent :=
  match fuel with
  | O => (Thrown lastError, [])
  | S fuel' =>
      if retryAttempt <=? retryCount so then
        match page_attempt env retryAttempt with
        | None =>
            (Returned outputPath,
             [BrAttempt retryAttempt (waitUntil so) (timeout so)])
        | Some error =>
            if retryAttempt <? retryCount so then
              let retryAttempt' := retryAttempt + 1 in
              let so' :=
                mkScreenshotOptions (fullPage so) (timeout so)
                  (next_waitUntil retryAttempt' (waitUntil so))
                  (deviceScaleFactor so) (retryCount so) in
              let (r, trace) :=
                screenshot_loop fuel' env outputPath so' retryAttempt'
                  (Some error) in
              (r,
               BrAttempt retryAttempt (waitUntil so) (timeout so)
               :: Backoff (2 ^ retryAttempt' * 1000) :: trace)
            else
              (Thrown (Some error),
               [BrAttempt retryAttempt (waitUntil so) (timeout so)])
        end
      else (Thrown lastError, [])
  end.

Definition captureScreenshot (env : Env) (outputPath : string)
    (options : ScreenshotOverrides) : result string * list BrowserEvent :=
  let so := screenshotOptions options in
  match chromium_launch env with
  | Some message => (Thrown (Some message), [])
  | None =>
      let (r, trace) :=
        screenshot_loop (Z.to_nat (retryCount so + 1)) env outputPath so 0
          None in
      (** [finally { await browser.close() }] *)
      (match browser_close env with
       | Some message => Thrown (Some message)
       | None => r
       end,
       BrLaunch :: trace ++ [BrClose])
  end.

(** The wait condition of the attempt [retryAttempt], when the first attempt
    has [initial], and the trace of the attempts [retryAttempt] to
    [retryAttempt + more] with the waits between them. *)
Definition wait_at (initial : string) (retryAttempt : Z) : string :=
  if retryAttempt <=? 0 then initial
  else if retryAttempt =? 1 then "load"
  else "commit".

Fixpoint schedule (initial : string) (timeout : Z) (retryAttempt : Z)
    (more : nat) : list BrowserEvent :=
  BrAttempt retryAttempt (wait_at initial retryAttempt) timeout
  :: match more with
     | O => []
     | S more' =>
         Backoff (2 ^ (retryAttempt + 1) * 1000)
         :: schedule initial timeout (retryAttempt + 1) more'
     end.

(** *** [runLighthouseTest] *)

(** The variables of [runLighthouseTest] that change: the instance in
    [chrome], the instance whose port [lighthouseOptions.port] names,
    [lighthouseOptions.settings.throttlingMethod], and how many times
    [launch] and [kill] have been called. *)
Record LhState : Type := mkLhState {
  chrome : nat;
  port : nat;
  throttlingMethod : string;
  launches : nat;
  kills : nat;
}.

Definition maxRetries : Z := 2.

(** [try { await chrome.kill(); chrome = await chromeLauncher.launch(...);
    lighthouseOptions.port = chrome.port; ... } catch (restartError) { }] *)
Definition restart (env : Env) (s : LhState) : LhState * list BrowserEvent :=
  match chrome_kill env (kills s) with
  | Some _ =>
      (mkLhState (chrome s) (port s) (throttlingMethod s) (launches s)
         (S (kills s)),
       [ChKill (chrome s)])
  | None =>
      match chrome_launch env (launches s) with
      | Some _ =>
          (mkLhState (chrome s) (port s) (throttlingMethod s)
             (S (launches s)) (S (kills s)),
           [ChKill (chrome s)])
      | None =>
          (mkLhState (launches s) (launches s) (throttlingMethod s)
             (S (launches s)) (S (kills s)),
           [ChKill (chrome s); ChLaunch (launches s)])
      end
  end.

(** [if (lhError.message.includes('start lh:driver:navigate'))
    { lighthouseOptions.settings = { ..., throttlingMethod: 'provided', ... } }] *)
Definition relax (message : string) (s : LhState) : LhState :=
  if includes "start lh:driver:navigate" message
  then mkLhState (chrome s) (port s) "provided" (launches s) (kills s)
  else s.

(** [while (retryCount <= maxRetries) { try { ...; break; } catch ... }]:
    the loop ends with [runnerResult], which is [undefined] when the loop
    never assigned it, or throws. *)
Fixpoint lighthouse_loop (fuel : nat) (env : Env) (s : LhState)
    (retryCount : Z) : result RunnerResult * LhState * list BrowserEvent :=
  match fuel with
  | O => (Returned RNothing, s, [])
  | S fuel' =>
      if retryCount <=? maxRetries then
        match lighthouse_run env retryCount with
        | LhReturn runnerResult =>
            (Returned runnerResult, s,
             [LhRun retryCount (port s) (throttlingMethod s)])
        | LhThrow message =>
            let s1 := relax message s in
            if retryCount <? maxRetries then
              let retryCount' := retryCount + 1 in
              let (s2, restarted) := restart env s1 in
              let '(r, s3, trace) :=
                lighthouse_loop fuel' env s2 retryCount' in
              (r, s3,
               LhRun retryCount (port s) (throttlingMethod s)
               :: Backoff (2 ^ retryCount' * 2000) :: restarted ++ trace)
            else
              (Thrown (Some message), s1,
               [LhRun retryCount (port s) (throttlingMethod s)])
        end
      else (Returned RNothing, s, [])
  end.

(** What [runLighthouseTest] returns, as far as the batch reads it. *)
Definition report (env : Env) (categories : gmap string Qc) : Lighthouse :=
  {| filePath := reportFile env;
     summaryPath := summaryFile env;
     scores := (fun score => number_mul score (Qc_of_Z 100)) <$> categories |}.

Definition runLighthouseTest (env : Env)
  : result Lighthouse * list BrowserEvent :=
  match chrome_launch env 0 with
  | Some message => (Thrown (Some message), [])
  | None =>
      let s0 := mkLhState 0 0 "simulate" 1 0 in
      let '(r, s, trace) :=
        if lighthouse_loads env then
          let '(r, s, trace) := lighthouse_loop 3 env s0 0 in
          (match r with
           | Thrown error => Thrown error
           | Returned RNothing => Thrown (Some "Lighthouse审计未返回结果")
           | Returned RNoReport => Thrown (Some "Lighthouse未能生成报告")
           | Returned (RReport categories) =>
               match write_reports env with
               | Some message => Thrown (Some message)
               | None => Returned (report env categories)
               end
           end, s, trace)
        else (Thrown (Some "无法加载Lighthouse模块"), s0, []) in
      (** [finally { if (chrome) { try { await chrome.kill() } catch ... } }] *)
      (r, ChLaunch 0 :: trace ++ [ChKill (chrome s)])
  end.

(** *** [runFullTest] *)

Definition value_truthy (v : Value) : bool :=
  match v with
  | VUndefined | VNull => false
  | VBool b => b
  | VNum n => negb (n =? 0)
  | VStr s => truthy s
  | VRef _ => true
  end.

(** [{ ...defaultOptions, ...options }] as a property list; the array of
    the default categories is a new object, at the first free address. *)
Definition fullTestConfig (h : list Cell) (options : Value)
  : list (string * Value) :=
  fold_left (fun o kv => obj_set kv.1 kv.2 o) (own_props h options)
    [("outputDir", VStr "./reports");
     ("outputFormat", VStr "html");
     ("createUrlSubDir", VBool true);
     ("categories", VRef (length h));
     ("captureScreenshot", VBool true)].

Definition runFullTest (env : Env) (h : list Cell) (options : Value)
  : result Results * list BrowserEvent :=
  let config := fullTestConfig h options in
  if value_truthy (obj_get "captureScreenshot" config) then
    match captureScreenshot env (screenshotFile env) no_overrides with
    | (Returned path, shot) =>
        let (r, audit) := runLighthouseTest env in
        (match r with
         | Returned lh => Returned (mkResults (Some path) lh)
         | Thrown error => Thrown error
         end, shot ++ audit)
    | (Thrown error, shot) => (Thrown error, shot)
    end
  else
    let (r, audit) := runLighthouseTest env in
    (match r with
     | Returned lh => Returned (mkResults None lh)
     | Thrown error => Thrown error
     end, audit).

(** *** Reading a trace *)

Definition attempts_of (trace : list BrowserEvent) : list (Z * string * Z) :=
  omap (fun e =>
          match e with
          | BrAttempt retryAttempt waitUntil timeout =>
              Some (retryAttempt, waitUntil, timeout)
          | _ => None
          end) trace.

Definition runs_of (trace : list BrowserEvent) : list (Z * string) :=
  omap (fun e =>
          match e with
          | LhRun retryCount _ throttlingMethod =>
              Some (retryCount, throttlingMethod)
          | _ => None
          end) trace.

Definition backoffs (trace : list BrowserEvent) : list Z :=
  omap (fun e => match e with Backoff ms => Some ms | _ => None end) trace.

(** The error of a call of [lighthouse] names the navigation mark. *)
Definition marked (o : LhOutcome) : bool :=
  match o with
  | LhThrow message => includes "start lh:driver:navigate" message
  | LhReturn _ => false
  end.

(** One of the first [n] calls of [lighthouse] failed on the navigation
    mark. *)
Fixpoint marked_before (env : Env) (n : nat) : bool :=
  match n with
  | O => false
  | S n' => marked_before env n' || marked (lighthouse_run env (Z.of_nat n'))
  end.

(** The calls of [lighthouse] from the call [retryCount] on, when [more]
    calls follow it and the throttling is [throttling] at the first. *)
Fixpoint runs_from (env : Env) (retryCount : Z) (throttling : string)
    (more : nat) : list (Z * string) :=
  (retryCount, throttling)
  :: match more with
     | O => []
     | S more' =>
         runs_from env (retryCount + 1)
           (if marked (lighthouse_run env retryCount) then "provided"
            else throttling)
           more'
     end.

Fixpoint backoffs_from (retryCount : Z) (more : nat) : list Z :=
  match more with
  | O => []
  | S more' =>
      2 ^ (retryCount + 1) * 2000 :: backoffs_from (retryCount + 1) more'
  end.

(** The calls of [lighthouse] a trace should show when [n] calls were made:
    the throttling is simulated until a call fails on the navigation mark,
    and provided from then on. *)
Definition expected_runs (env : Env) (n : nat) : list (Z * string) :=
  map (fun i => (Z.of_nat i,
                 if marked_before env i then "provided" else "simulate"))
    (seq 0 n).

(** The instances launched in a trace that are not sent [kill] later in
    it. *)
Fixpoint unkilled (trace : list BrowserEvent) : list nat :=
  match trace with
  | [] => []
  | ChLaunch instance :: rest =>
      if bool_decide (ChKill instance ∈ rest) then unkilled rest
      else instance :: unkilled rest
  | _ :: rest => unkilled rest
  end.

(** An environment in which the page fails once and the audit fails once, on
    the navigation mark; the relaunch of Chrome fails too. *)
Definition example_env : Env :=
  {| chromium_launch := None;
     page_attempt := fun i =>
       if i =? 0 then Some "page.goto: Timeout 60000ms exceeded" else None;
     browser_close := None;
     chrome_launch := fun n =>
       match n with
       | O => None
       | S _ => Some "connect ECONNREFUSED"
       end;
     chrome_kill := fun _ => None;
     lighthouse_loads := true;
     lighthouse_run := fun i =>
       if i =? 0 then LhThrow "Protocol error: start lh:driver:navigate"
       else LhReturn (RReport {[ "performance" := Q2Qc (4 # 5) ]});
     write_reports := None;
     screenshotFile := "reports/a.example/screenshot.png";
     reportFile := "reports/a.example/lighthouse.html";
     summaryFile := "reports/a.example/summary.json" |}.

(** A browser whose pages never load. *)
Definition offline_env : Env :=
  {| chromium_launch := None;
     page_attempt := fun _ => Some "page.goto: net::ERR_INTERNET_DISCONNECTED";
     browser_close := None;
     chrome_launch := fun _ => None;
     chrome_kill := fun _ => None;
     lighthouse_loads := true;
     lighthouse_run := fun _ => LhReturn RNothing;
     write_reports := None;
     screenshotFile := "reports/a.example/screenshot.png";
     reportFile := "reports/a.example/lighthouse.html";
     summaryFile := "reports/a.example/summary.json" |}.

End Index.

(** ** The navigations of a job

    [testWebsite] calls [runFullTest] of index.js once per attempt, with its
    copy of the options.  [browsers i] is the browser side of the [i]-th call
    and [heaps i] the heap at that call.  [job_navigations] lists the wait
    conditions of the page navigations of the first [calls] calls, in the
    order in which they are made. *)
Definition job_navigations (browsers : nat -> Index.Env)
    (heaps : nat -> list Cell) (enhancedOptions : Value) (calls : nat)
  : list string :=
  flat_map
    (fun i =>
       map (fun a : Z * string * Z => a.1.2)
         (Index.attempts_of
            (Index.runFullTest (browsers i) (heaps i) enhancedOptions).2))
    (seq 0 calls).

(** ** Comparing two runs ([compareResults] of version-compare.js)

    The comparison of the scores; a [scores] object is the list of its
    properties, in the order of [Object.keys].  Of the comparison the model
    keeps the three lists [improved], [degraded] and [unchanged]; the
    comparison of the metrics, which are texts, is left out. *)

Module VersionCompare.

(** An element of [improved], [degraded] or [unchanged]. *)
Record Change : Type := mkChange {
  category : string;
  diff : Qc;
  percentChange : Qc;
}.

Record Comparison : Type := mkComparison {
  improved : list Change;
  degraded : list Change;
  unchanged : list Change;
}.

(** [scores[category]] *)
Fixpoint score_of (category : string) (scores : list (string * Qc))
  : option Qc :=
  match scores with
  | [] => None
  | (k, score) :: rest =>
      if String.eqb category k then Some score else score_of category rest
  end.

(** The change of a category: [previous] is
    [previousResult.scores[category] || 0]. *)
Definition change_of (previousScores : list (string * Qc))
    (kv : string * Qc) : Change :=
  let previous := default 0%Qc (score_of kv.1 previousScores) in
  let diff := number_sub kv.2 previous in
  {| category := kv.1;
     diff := diff;
     percentChange :=
       if bool_decide (0 < previous)%Qc
       then number_mul (number_div diff previous) (Qc_of_Z 100)
       else 0%Qc |}.

(** The callback of [Object.keys(currentResult.scores).forEach]. *)
Definition compare_category (previousScores : list (string * Qc))
    (c : Comparison) (kv : string * Qc) : Comparison :=
  let change := change_of previousScores kv in
  if bool_decide (1 < diff change)%Qc then
    mkComparison (improved c ++ [change]) (degraded c) (unchanged c)
  else if bool_decide (diff change < - (1))%Qc then
    mkComparison (improved c) (degraded c ++ [change]) (unchanged c)
  else
    mkComparison (improved c) (degraded c) (unchanged c ++ [change]).

Definition compareResults (currentScores previousScores : list (string * Qc))
  : Comparison :=
  fold_left (compare_category previousScores) currentScores
    (mkComparison [] [] []).

End VersionCompare.

(** * Properties *)

(** Running the plumbing of a computation. *)
Ltac mrun := unfold bind, ret, gets, modify, throw, try_catch; cbn.

(** ** The result cache *)

Section CacheFacts.
Context `{Platform}.

Lemma generateKey_run url options w data :
  key_data (heap w) url options = Some data ->
  generateKey url options w = (Return (key_of data), w).
Proof. intros E. unfold generateKey. now rewrite E. Qed.

Lemma set_run url options r w data :
  key_data (heap w) url options = Some data ->
  cacheFile (key_of data) ∉ write_denied (disk w) ->
  set url options r w = (Return tt, stored (key_of data) r w).
Proof.
  intros E Hw. unfold set, bind. rewrite (generateKey_run _ _ _ _ E).
  cbn. unfold try_catch, writeFileSync. cbn.
  rewrite bool_decide_eq_false_2 by exact Hw. reflexivity.
Qed.

Lemma has_absent url options w data :
  key_data (heap w) url options = Some data ->
  cache (resultCache w) !! key_of data = None ->
  has url options w = (Return false, w).
Proof.
  intros E Hc. unfold has, bind. rewrite (generateKey_run _ _ _ _ E).
  cbn. now rewrite Hc.
Qed.

Lemma has_fresh url options w data timestamp :
  key_data (heap w) url options = Some data ->
  cache (resultCache w) !! key_of data = Some timestamp ->
  clock w - timestamp < cacheDuration (resultCache w) ->
  has url options w = (Return true, w).
Proof.
  intros E Hc Ht. unfold has, bind. rewrite (generateKey_run _ _ _ _ E).
  mrun. rewrite Hc. mrun. now rewrite bool_decide_eq_true_2 by exact Ht.
Qed.

Lemma has_expired url options w data timestamp c :
  key_data (heap w) url options = Some data ->
  cache (resultCache w) !! key_of data = Some timestamp ->
  cacheDuration (resultCache w) <= clock w - timestamp ->
  files (disk w) !! cacheFile (key_of data) = Some c ->
  cacheFile (key_of data) ∉ unlink_denied (disk w) ->
  has url options w = (Return false, evicted (key_of data) w).
Proof.
  intros E Hc Ht Hf Hu. unfold has, bind. rewrite (generateKey_run _ _ _ _ E).
  mrun. rewrite Hc. mrun. rewrite bool_decide_eq_false_2 by lia. mrun.
  unfold existsSync, unlinkSync. cbn. repeat (rewrite Hf; cbn).
  now rewrite bool_decide_eq_false_2 by exact Hu.
Qed.

(** A fresh entry whose file is readable is a hit. *)
Lemma get_hit url options w data timestamp r :
  key_data (heap w) url options = Some data ->
  cache (resultCache w) !! key_of data = Some timestamp ->
  clock w - timestamp < cacheDuration (resultCache w) ->
  files (disk w) !! cacheFile (key_of data) = Some (FCache timestamp r) ->
  cacheFile (key_of data) ∉ read_denied (disk w) ->
  get url options w = (Return (Some r), w).
Proof.
  intros E Hc Ht Hf Hr. unfold get, bind.
  rewrite (generateKey_run _ _ _ _ E), (has_fresh _ _ _ _ _ E Hc Ht). cbn.
  mrun. unfold existsSync, readFileSync. repeat (rewrite Hf; cbn).
  now rewrite bool_decide_eq_false_2 by exact Hr.
Qed.

(** An expired entry whose file can be deleted is a miss, and is evicted. *)
Lemma get_expired url options w data timestamp c :
  key_data (heap w) url options = Some data ->
  cache (resultCache w) !! key_of data = Some timestamp ->
  cacheDuration (resultCache w) <= clock w - timestamp ->
  files (disk w) !! cacheFile (key_of data) = Some c ->
  cacheFile (key_of data) ∉ unlink_denied (disk w) ->
  get url options w = (Return None, evicted (key_of data) w).
Proof.
  intros E Hc Ht Hf Hu. unfold get, bind.
  now rewrite (generateKey_run _ _ _ _ E), (has_expired _ _ _ _ _ _ E Hc Ht Hf Hu).
Qed.

(** The tree of a value does not change when the heap grows. *)
Lemma to_json_prefix fuel h v j :
  to_json fuel h v = Some j ->
  forall fuel' h', (fuel <= fuel')%nat -> h `prefix_of` h' ->
  to_json fuel' h' v = Some j.
Proof.
  revert v j. induction fuel as [|fuel IH]; intros v j Hj fuel' h' Hf Hp;
    destruct v; try (destruct fuel'; exact Hj); try discriminate.
  destruct fuel' as [|fuel']; [lia|]. cbn in Hj |- *.
  destruct (h !! l) as [cell|] eqn:Hl; [|discriminate].
  rewrite (prefix_lookup_Some _ _ _ _ Hl Hp).
  destruct cell as [fields|items].
  - apply fmap_Some in Hj as (js & Hjs & ->).
    apply mapM_Some in Hjs.
    assert (mapM (fun kv : string * Value =>
                    pair kv.1 <$> to_json fuel' h' kv.2)
              (filter (fun kv => is_undefined kv.2 = false) fields)
            = Some js) as ->; [|reflexivity].
    apply mapM_Some. eapply Forall2_impl; [exact Hjs|].
    intros kv y Hy. apply fmap_Some in Hy as (j' & Hj' & ->).
    rewrite (IH _ _ Hj' fuel' h') by (lia || assumption). reflexivity.
  - apply fmap_Some in Hj as (js & Hjs & ->).
    apply mapM_Some in Hjs.
    assert (mapM (to_json fuel' h') items = Some js) as ->; [|reflexivity].
    apply mapM_Some. eapply Forall2_impl; [exact Hjs|].
    intros x y Hy. apply (IH _ _ Hy); [lia|assumption].
Qed.

Lemma key_data_prefix h h' url options data :
  key_data h url options = Some data -> h `prefix_of` h' ->
  key_data h' url options = Some data.
Proof.
  unfold key_data. intros Hd Hp.
  apply fmap_Some in Hd as (js & Hjs & ->). apply mapM_Some in Hjs.
  match goal with |- _ <$> ?m = _ => assert (m = Some js) as -> end;
    [|reflexivity].
  apply mapM_Some. eapply Forall2_impl; [exact Hjs|].
  intros kv y Hy. apply fmap_Some in Hy as (j' & Hj' & ->).
  rewrite (to_json_prefix _ _ _ _ Hj' (S (length h')) h');
    [reflexivity| |exact Hp].
  apply prefix_length in Hp. lia.
Qed.

(** C4.  With a backing store that performs the operations on the file of
    the key: [get] after [set] returns the stored result unchanged, and leaves
    the world as it is, while less than [cacheDuration] milliseconds have
    passed on the clock; once [cacheDuration] milliseconds or more have
    passed, [get] returns [null] and the entry is gone from the map in memory
    and from the disk. *)
Theorem get_after_set url options r w data t :
  key_data (heap w) url options = Some data ->
  cacheFile (key_of data) ∉ write_denied (disk w) ->
  cacheFile (key_of data) ∉ read_denied (disk w) ->
  cacheFile (key_of data) ∉ unlink_denied (disk w) ->
  exists w1,
    set url options r w = (Return tt, w1) /\
    (t - clock w < cacheDuration (resultCache w) ->
     get url options (with_clock t w1) = (Return (Some r), with_clock t w1)) /\
    (cacheDuration (resultCache w) <= t - clock w ->
     exists w2,
       get url options (with_clock t w1) = (Return None, w2) /\
       cache (resultCache w2) !! key_of data = None /\
       files (disk w2) !! cacheFile (key_of data) = None).
Proof.
  intros E Hw Hr Hu. exists (stored (key_of data) r w).
  split; [exact (set_run _ _ _ _ _ E Hw)|]. split.
  - intros Ht. apply (get_hit _ _ _ data (clock w)); cbn; try assumption.
    + apply lookup_insert_eq.
    + apply lookup_insert_eq.
  - intros Ht. eexists. split.
    + apply (get_expired _ _ _ data (clock w) (FCache (clock w) r));
        cbn; try assumption; apply lookup_insert_eq.
    + cbn. split; apply lookup_delete_eq.
Qed.

Lemma key_data_tree h url options tree :
  to_json (S (length h)) h options = Some tree ->
  key_data h url options
  = Some (JObj (("url", JStr url)
                :: if is_undefined options then [] else [("options", tree)])).
Proof.
  intros Htree. unfold key_data. rewrite filter_cons.
  case_decide as Hurl; [|contradiction Hurl; reflexivity].
  rewrite filter_cons. cbn [snd].
  destruct (is_undefined options) eqn:Hu.
  - case_decide; [discriminate|]. reflexivity.
  - case_decide; [|congruence].
    rewrite filter_nil. cbn [mapM fst snd]. rewrite Htree. reflexivity.
Qed.


End CacheFacts.

(** C4 on the example world: a result stored at time 1000 is read back at
    time 2000 and is gone one hour after it was stored. *)
Lemma get_after_set_witness :
  exists w1,
    set "https://a.example" (VRef 0) (example_results 80) example_world
      = (Return tt, w1) /\
    (2000 - clock example_world < cacheDuration (resultCache example_world) ->
     get "https://a.example" (VRef 0) (with_clock 2000 w1)
       = (Return (Some (example_results 80)), with_clock 2000 w1)) /\
    (cacheDuration (resultCache example_world) <= 2000 - clock example_world ->
     exists w2,
       get "https://a.example" (VRef 0) (with_clock 2000 w1) = (Return None, w2) /\
       cache (resultCache w2) !!
         key_of (JObj [("url", JStr "https://a.example");
                       ("options", JObj [("outputFormat", JStr "html")])])
         = None /\
       files (disk w2) !!
         cacheFile
           (key_of (JObj [("url", JStr "https://a.example");
                          ("options", JObj [("outputFormat", JStr "html")])]))
         = None).
Proof.
  apply (get_after_set "https://a.example" (VRef 0) (example_results 80)
           example_world
           (JObj [("url", JStr "https://a.example");
                  ("options", JObj [("outputFormat", JStr "html")])])
           2000).
  - reflexivity.
  - apply not_elem_of_empty.
  - apply not_elem_of_empty.
  - apply not_elem_of_empty.
Defined.



(** ** One job *)

Lemma obj_get_set_eq k v o : obj_get k (obj_set k v o) = v.
Proof.
  induction o as [|[k' v'] o IH]; cbn.
  - now rewrite String.eqb_refl.
  - destruct (String.eqb k k') eqn:E; cbn; rewrite ?String.eqb_refl, ?E; auto.
Qed.

Lemma obj_get_set_ne k k' v o :
  k <> k' -> obj_get k' (obj_set k v o) = obj_get k' o.
Proof.
  intros Hne. induction o as [|[k0 v0] o IH]; cbn.
  - destruct (String.eqb k' k) eqn:E; [|reflexivity].
    apply String.eqb_eq in E. congruence.
  - destruct (String.eqb k k0) eqn:E; cbn.
    + apply String.eqb_eq in E as <-.
      destruct (String.eqb k' k) eqn:E'; [|reflexivity].
      apply String.eqb_eq in E'. congruence.
    + now rewrite IH.
Qed.

Lemma get_prop_copy h0 c1 c2 k :
  get_prop (h0 ++ [c1; c2]) (VRef (length h0)) k
  = match c1 with CObj fe => obj_get k fe | _ => VUndefined end.
Proof.
  unfold get_prop. rewrite lookup_app_r by lia.
  now replace (length h0 - length h0)%nat with 0%nat by lia.
Qed.

Lemma get_prop_so h0 c1 c2 k :
  get_prop (h0 ++ [c1; c2]) (VRef (S (length h0))) k
  = match c2 with CObj fs => obj_get k fs | _ => VUndefined end.
Proof.
  unfold get_prop. rewrite lookup_app_r by lia.
  now replace (S (length h0) - length h0)%nat with 1%nat by lia.
Qed.

Lemma set_prop_so h0 c1 fs k v :
  set_prop (h0 ++ [c1; CObj fs]) (VRef (S (length h0))) k v
  = h0 ++ [c1; CObj (obj_set k v fs)].
Proof.
  unfold set_prop. rewrite lookup_app_r by lia.
  replace (S (length h0) - length h0)%nat with 1%nat by lia. cbn.
  rewrite insert_app_r_alt by lia.
  now replace (S (length h0) - length h0)%nat with 1%nat by lia.
Qed.

#[local] Arguments get_prop : simpl never.
#[local] Arguments set_prop : simpl never.
#[local] Arguments set : simpl never.
#[local] Arguments key_data : simpl never.

Lemma set_prop_copy h0 fe c2 k v :
  set_prop (h0 ++ [CObj fe; c2]) (VRef (length h0)) k v
  = h0 ++ [CObj (obj_set k v fe); c2].
Proof.
  unfold set_prop. rewrite lookup_app_r by lia.
  replace (length h0 - length h0)%nat with 0%nat by lia. cbn.
  rewrite insert_app_r_alt by lia.
  now replace (length h0 - length h0)%nat with 0%nat by lia.
Qed.

Section JobFacts.
Context `{Platform}.

(** [set] changes the cache and the disk, and nothing else; it throws only
    when the options have no tree. *)
Lemma set_cases url options r w :
  exists c w',
    set url options r w = (c, w')
    /\ heap w' = heap w /\ resourceManager w' = resourceManager w
    /\ resolved w' = resolved w /\ log w' = log w
    /\ match c with
       | Return _ => key_data (heap w) url options <> None
       | Throw _ => key_data (heap w) url options = None
       end.
Proof.
  unfold set, bind, generateKey.
  destruct (key_data (heap w) url options) as [data|] eqn:E.
  - mrun. unfold writeFileSync.
    destruct (bool_decide _); cbn; eexists _, _; (split; [reflexivity|]);
      cbn; repeat split; congruence.
  - eexists _, _. split; [reflexivity|]. repeat split; congruence.
Qed.

Lemma attempt_cases env website options h0 retries wu w :
  job_heap h0 wu w ->
  exists c w' pre timeout,
    attempt env website options (VRef (length h0)) retries w = (c, w')
    /\ job_heap h0 (if (2 <=? retries)%nat then VStr "load" else wu) w'
    /\ log w' = log w ++ pre ++
                 [EvRunFullTest website retries
                    (if (2 <=? retries)%nat then VStr "load" else wu) timeout]
    /\ Forall (fun e => is_attempt e = false) pre
    /\ match c with
       | Return r =>
           (env retries).1 = FTResults r /\ released w w'
       | Throw message =>
           resourceManager w' = resourceManager w
           /\ resolved w' = resolved w
           /\ match fails (env retries) with
              | Some failure => message = failure
              | None => key_data (heap w') website options = None
              end
       end.
Proof.
  intros (fe & fs & Hh & Hso & Hwu). unfold attempt.
  assert (Hne : "timeout"%string <> "waitUntil"%string) by discriminate.
  set (pre := if (0 <? retries)%nat
              then [EvWarmup website; EvSleep 2000] else []).
  assert (Hpre : Forall (fun e => is_attempt e = false) pre)
    by (subst pre; destruct (0 <? retries)%nat; repeat constructor).
  destruct (0 <? retries)%nat eqn:E0; destruct (2 <=? retries)%nat eqn:E2;
    try (apply Nat.ltb_ge in E0; apply Nat.leb_le in E2; lia);
    unfold read, assign, warmup, sleep, runFullTest; mrun;
    repeat (progress (cbn; rewrite ?Hh, ?get_prop_copy, ?get_prop_so,
                        ?set_prop_so, ?Hso));
    rewrite ?obj_get_set_eq, ?(obj_get_set_ne _ _ _ _ Hne), ?Hwu;
    unfold fails;
    destruct (env retries) as [[r| |message] t]; cbn.
  all: try match goal with
    | |- context [set ?u ?o ?r ?w0] =>
        destruct (set_cases u o r w0)
          as (c & w1 & -> & Hh1 & Hrm1 & Hrs1 & Hl1 & Hc1);
        destruct c as [[]|message]
    end; cbn.
  all: unfold rm_release; cbn.
  all: try (destruct (release (resourceManager _)) as [rm next] eqn:Erel; cbn).
  all: cbn in *.
  all: eexists _, _, pre, _; (split; [reflexivity|]).
  all: split;
    [unfold job_heap; cbn; rewrite ?Hh1, ?Hh; eexists _, _;
     split; [reflexivity|]; split; [exact Hso|];
     rewrite ?obj_get_set_eq, ?(obj_get_set_ne _ _ _ _ Hne); done|].
  all: split; [cbn; rewrite ?Hl1; cbn; rewrite <- ?app_assoc; reflexivity|].
  all: split; [exact Hpre|].
  all: unfold released; cbn; rewrite ?Hrm1, ?Hrs1; cbn; rewrite ?Hh1.
  all: auto.
  all: rewrite Hrm1 in Erel; cbn in Erel; rewrite Erel; auto.
Qed.

Lemma waitUntil_carried_app l1 l2 :
  waitUntil_carried (l1 ++ l2) = waitUntil_carried l1 ++ waitUntil_carried l2.
Proof. apply omap_app. Qed.

Lemma attempts_made_app l1 l2 :
  attempts_made (l1 ++ l2) = (attempts_made l1 + attempts_made l2)%nat.
Proof. unfold attempts_made. now rewrite filter_app, length_app. Qed.

Lemma attempts_made_one website retries waitUntil timeout l :
  attempts_made (EvRunFullTest website retries waitUntil timeout :: l)
  = S (attempts_made l).
Proof. reflexivity. Qed.

Lemma attempts_made_sleep ms l :
  attempts_made (EvSleep ms :: l) = attempts_made l.
Proof. reflexivity. Qed.

Lemma no_attempt_waitUntil_carried pre :
  Forall (fun e => is_attempt e = false) pre -> waitUntil_carried pre = [].
Proof.
  induction 1 as [|e pre He _ IH]; [reflexivity|].
  destruct e; try discriminate; exact IH.
Qed.

Lemma no_attempt_attempts_made pre :
  Forall (fun e => is_attempt e = false) pre -> attempts_made pre = 0%nat.
Proof.
  induction 1 as [|e pre He _ IH]; [reflexivity|].
  destruct e; try discriminate; exact IH.
Qed.

Lemma fail_job_run website lastError w :
  exists w',
    fail_job website lastError w
      = (Return (TError website
                   (match lastError with
                    | Some message => message
                    | None => "未知错误"%string
                    end)), w')
    /\ released w w' /\ heap w' = heap w /\ log w' = log w.
Proof.
  unfold fail_job, rm_release, released. mrun.
  destruct (release (resourceManager w)) as [rm next]. cbn.
  eexists. split; [reflexivity|]. cbn. auto.
Qed.

(** The [catch] block switching to the wait condition ['load']. *)
Lemma relax_run h0 wu w :
  job_heap h0 wu w ->
  exists w',
    (let* so := read (VRef (length h0)) "screenshotOptions" in
     assign so "waitUntil" (VStr "load")) w = (Return tt, w')
    /\ job_heap h0 (VStr "load") w'
    /\ resourceManager w' = resourceManager w /\ resolved w' = resolved w
    /\ log w' = log w.
Proof.
  intros (fe & fs & Hh & Hso & Hwu). unfold read, assign. mrun.
  rewrite Hh, get_prop_copy, Hso, set_prop_so.
  eexists. split; [reflexivity|]. cbn. repeat split.
  eexists _, _. split; [reflexivity|]. split; [exact Hso|].
  apply obj_get_set_eq.
Qed.

Lemma job_heap_emit h0 wu e w : job_heap h0 wu w -> job_heap h0 wu (emit e w).
Proof. exact id. Qed.

Lemma fail_job_spec website lastError h0 wu w :
  job_heap h0 wu w ->
  exists r w' new wu' a b,
    fail_job website lastError w = (Return r, w')
    /\ job_heap h0 wu' w'
    /\ released w w'
    /\ log w' = log w ++ new
    /\ waitUntil_carried new = replicate a wu ++ replicate b (VStr "load")
    /\ match r with
       | TResults _ => True
       | TError url _ => url = website
       | TNull => False
       end.
Proof.
  intros Hjh.
  destruct (fail_job_run website lastError w) as (w' & -> & Hrel & Hh & Hl).
  eexists _, w', [], wu, 0%nat, 0%nat.
  split; [reflexivity|]. split.
  { destruct Hjh as (fe & fs & ? & ? & ?). exists fe, fs. now rewrite Hh. }
  split; [exact Hrel|]. split; [now rewrite app_nil_r|].
  split; reflexivity.
Qed.

(** What the retry loop does whatever the full tests do: it returns, it
    leaves the cells that were there alone, it releases once, and its wait
    conditions start as [wu] and end as ['load']. *)
Lemma retry_loop_spec env website options h0 maxRetries fuel :
  forall retries lastError wu w,
    job_heap h0 wu w ->
    exists r w' new wu' a b,
      retry_loop fuel env website options (VRef (length h0)) maxRetries
        retries lastError w = (Return r, w')
      /\ job_heap h0 wu' w'
      /\ released w w'
      /\ log w' = log w ++ new
      /\ waitUntil_carried new = replicate a wu ++ replicate b (VStr "load")
      /\ match r with
         | TResults _ => True
         | TError url _ => url = website
         | TNull => False
         end.
Proof.
  induction fuel as [|fuel IH]; intros retries lastError wu w Hjh;
    cbn [retry_loop].
  - exact (fail_job_spec website lastError h0 wu w Hjh).
  - destruct (retries <=? maxRetries)%nat;
      [|exact (fail_job_spec website lastError h0 wu w Hjh)].
    destruct (attempt_cases env website options h0 retries wu w Hjh)
      as (c & w1 & pre & timeout & Hrun & Hjh1 & Hl1 & Hpre & Hc).
    unfold try_catch. unfold bind at 1. rewrite Hrun.
    destruct c as [r|message].
    + destruct Hc as [_ Hrel]. cbn.
      eexists (TResults r), w1, _, _,
        (if (2 <=? retries)%nat then 0%nat else 1%nat),
        (if (2 <=? retries)%nat then 1%nat else 0%nat).
      split; [reflexivity|]. split; [exact Hjh1|]. split; [exact Hrel|].
      split; [exact Hl1|]. split; [|exact I].
      rewrite waitUntil_carried_app, (no_attempt_waitUntil_carried _ Hpre).
      now destruct (2 <=? retries)%nat.
    + destruct Hc as (Hrm1 & Hrs1 & _).
      set (wu1 := if (2 <=? retries)%nat then VStr "load" else wu) in *.
      assert (exists w2 wu2,
                 (if includes "start lh:driver:navigate" message
                     && (retries <? maxRetries)%nat
                  then
                    let* so := read (VRef (length h0)) "screenshotOptions" in
                    assign so "waitUntil" (VStr "load")
                  else ret tt) w1 = (Return tt, w2)
                 /\ job_heap h0 wu2 w2 /\ (wu2 = wu1 \/ wu2 = VStr "load")
                 /\ resourceManager w2 = resourceManager w
                 /\ resolved w2 = resolved w /\ log w2 = log w1)
        as (w2 & wu2 & Hrelax & Hjh2 & Hwu2 & Hrm2 & Hrs2 & Hl2).
      { destruct (_ && _).
        - destruct (relax_run h0 wu1 w1 Hjh1) as (w2 & E & ? & ? & ? & ?).
          exists w2, (VStr "load"). rewrite E. repeat split; auto; congruence.
        - exists w1, wu1. repeat split; auto. }
      unfold bind at 1. rewrite Hrelax.
      destruct (retries <? maxRetries)%nat.
      * unfold sleep, modify, bind at 1.
        destruct (IH (S retries) (Some message) wu2
                    (emit (EvSleep (Z.of_nat (S retries) * 5000)) w2)
                    (job_heap_emit _ _ _ _ Hjh2))
          as (r & w' & new & wu' & a & b & Hloop & Hjh' & Hrel' & Hl' & Hwc & Hr).
        rewrite Hloop.
        exists r, w', (pre ++ [EvRunFullTest website retries wu1 timeout]
                        ++ [EvSleep (Z.of_nat (S retries) * 5000)] ++ new), wu'.
        assert (Hwc' : waitUntil_carried
                         (pre ++ [EvRunFullTest website retries wu1 timeout]
                          ++ [EvSleep (Z.of_nat (S retries) * 5000)] ++ new)
                       = wu1 :: replicate a wu2 ++ replicate b (VStr "load")).
        { rewrite !waitUntil_carried_app, (no_attempt_waitUntil_carried _ Hpre).
          now rewrite Hwc. }
        assert (exists a' b',
                   wu1 :: replicate a wu2 ++ replicate b (VStr "load")
                   = replicate a' wu ++ replicate b' (VStr "load"))
          as (a' & b' & Hab).
        { subst wu1. destruct Hwu2 as [-> | ->].
          - destruct (2 <=? retries)%nat.
            + exists 0%nat, (S (a + b)). cbn. now rewrite <- replicate_add.
            + exists (S a), b. reflexivity.
          - destruct (2 <=? retries)%nat.
            + exists 0%nat, (S (a + b)). cbn. now rewrite <- replicate_add.
            + exists 1%nat, (a + b)%nat. cbn. now rewrite <- replicate_add. }
        exists a', b'. split; [reflexivity|]. split; [exact Hjh'|].
        split.
        { destruct Hrel' as [Ha Hb]. cbn in Ha, Hb. unfold released.
          now rewrite Ha, Hb, Hrm2, Hrs2. }
        split.
        { rewrite Hl'. cbn. rewrite Hl2, Hl1. now rewrite <- !app_assoc. }
        split; [congruence|exact Hr].
      * destruct (fail_job_run website (Some message) w2)
          as (w' & -> & Hrel & Hh & Hl).
        exists (TError website message), w',
          (pre ++ [EvRunFullTest website retries wu1 timeout]), wu2.
        exists (if (2 <=? retries)%nat then 0%nat else 1%nat),
          (if (2 <=? retries)%nat then 1%nat else 0%nat).
        split; [reflexivity|]. split.
        { destruct Hjh2 as (fe & fs & ? & ? & ?). exists fe, fs.
          now rewrite Hh. }
        split.
        { destruct Hrel as [Ha Hb]. unfold released.
          now rewrite Ha, Hb, Hrm2, Hrs2. }
        split; [congruence|]. split; [|reflexivity].
        rewrite waitUntil_carried_app, (no_attempt_waitUntil_carried _ Hpre).
        subst wu1. now destruct (2 <=? retries)%nat.
Qed.

Lemma bind_ext {A B} (m : M A) (k1 k2 : A -> M B) w :
  (forall a w', m w = (Return a, w') -> k1 a w' = k2 a w') ->
  bind m k1 w = bind m k2 w.
Proof.
  intros Hk. unfold bind. destruct (m w) as [[a|e] w']; [|reflexivity].
  now apply Hk.
Qed.

(** The bound on the iterations is never what ends the loop: with
    [maxRetries - retries] iterations to spare, more fuel changes nothing.
    [testWebsite_resume] starts the loop with [maxRetries + 1]. *)
Lemma retry_loop_fuel env website options enhancedOptions maxRetries fuel1 :
  forall fuel2 retries lastError w,
    (maxRetries - retries < fuel1)%nat ->
    (maxRetries - retries < fuel2)%nat ->
    retry_loop fuel1 env website options enhancedOptions maxRetries retries
      lastError w
    = retry_loop fuel2 env website options enhancedOptions maxRetries retries
        lastError w.
Proof.
  induction fuel1 as [|fuel1 IH]; intros [|fuel2] retries lastError w H1 H2;
    try lia.
  cbn [retry_loop]. destruct (retries <=? maxRetries)%nat; [|reflexivity].
  unfold try_catch.
  destruct ((let* r := attempt env website options enhancedOptions retries in
             ret (TResults r)) w) as [[r|error] w1]; [reflexivity|].
  apply bind_ext. intros _ w2 _.
  destruct (retries <? maxRetries)%nat eqn:E; [|reflexivity].
  apply Nat.ltb_lt in E. apply bind_ext. intros _ w3 _.
  apply IH; lia.
Qed.

(** The world when the loop starts: the copy of the options and its fresh
    screenshot options follow the cells that were there. *)
Lemma testWebsite_resume_unfold env website options maxRetries w :
  exists w0,
    testWebsite_resume env website options maxRetries w
    = retry_loop (S maxRetries) env website options (VRef (length (heap w)))
        maxRetries 0 None w0
    /\ job_heap (heap w) (VStr "domcontentloaded") w0
    /\ resourceManager w0 = resourceManager w /\ resolved w0 = resolved w
    /\ log w0 = log w.
Proof.
  unfold testWebsite_resume, alloc, read, assign. mrun.
  rewrite length_app. cbn. rewrite Nat.add_1_r.
  rewrite <- (app_assoc (heap w) [_] [_]). cbn.
  rewrite set_prop_copy.
  eexists. split; [reflexivity|]. cbn. repeat split.
  eexists _, _. split; [reflexivity|]. split; [apply obj_get_set_eq|].
  unfold spread_with. cbn.
  rewrite obj_get_set_ne by discriminate. apply obj_get_set_eq.
Qed.

Lemma testWebsite_resume_spec env website options maxRetries w :
  exists r w' new wu' a b,
    testWebsite_resume env website options maxRetries w = (Return r, w')
    /\ job_heap (heap w) wu' w'
    /\ released w w'
    /\ log w' = log w ++ new
    /\ waitUntil_carried new
       = replicate a (VStr "domcontentloaded") ++ replicate b (VStr "load")
    /\ match r with
       | TResults _ => True
       | TError url _ => url = website
       | TNull => False
       end.
Proof.
  destruct (testWebsite_resume_unfold env website options maxRetries w)
    as (w0 & -> & Hjh & Hrm & Hrs & Hl).
  destruct (retry_loop_spec env website options (heap w) maxRetries
              (S maxRetries) 0 None _ w0 Hjh)
    as (r & w' & new & wu' & a & b & Hloop & Hjh' & [Ha Hb] & Hl' & Hwc & Hr).
  exists r, w', new, wu', a, b. split; [exact Hloop|]. split; [exact Hjh'|].
  split; [unfold released; now rewrite Ha, Hb, Hrm, Hrs|].
  split; [congruence|]. split; assumption.
Qed.

Ltac frame_done := cbn; intros [= <- <-]; auto.

(** The cache check and [acquire] leave the heap, the log and the clock
    alone. *)
Lemma has_frame url options w c w' :
  has url options w = (c, w') ->
  heap w' = heap w /\ log w' = log w
  /\ resourceManager w' = resourceManager w /\ resolved w' = resolved w.
Proof.
  unfold has, generateKey, existsSync, unlinkSync. mrun.
  destruct (key_data (heap w) url options); [|frame_done].
  destruct (cache (resultCache w) !! _); [|frame_done].
  cbn. destruct (bool_decide (clock w - _ < _)); [frame_done|].
  cbn. destruct (bool_decide (is_Some _)); [|frame_done].
  cbn. destruct (files (disk w) !! _); [|frame_done].
  cbn. destruct (bool_decide (_ ∈ _)); frame_done.
Qed.

Lemma get_frame url options w c w' :
  get url options w = (c, w') ->
  heap w' = heap w /\ log w' = log w
  /\ resourceManager w' = resourceManager w /\ resolved w' = resolved w.
Proof.
  unfold get. unfold bind at 1. unfold generateKey.
  destruct (key_data (heap w) url options); [|frame_done].
  unfold bind at 1.
  destruct (has url options w) as [[hit|e] w1] eqn:Hhas;
    apply has_frame in Hhas as (Hh & Hl & Hrm & Hrs);
    [|frame_done].
  rewrite <- Hh, <- Hl, <- Hrm, <- Hrs.
  destruct hit; cbn; [|frame_done].
  unfold existsSync, readFileSync. mrun.
  destruct (bool_decide (is_Some _)); [|frame_done].
  cbn. destruct (files (disk w1) !! _) as [content|]; [|frame_done].
  cbn. destruct (bool_decide (_ ∈ _)); [frame_done|].
  destruct content; frame_done.
Qed.

Lemma testWebsite_start_frame me website options w c w' :
  testWebsite_start me website options w = (c, w') ->
  heap w' = heap w /\ log w' = log w.
Proof.
  unfold testWebsite_start. unfold bind at 1.
  destruct (has website options w) as [[hit|e] w1] eqn:Hhas;
    apply has_frame in Hhas as (Hh & Hl & _);
    [|frame_done].
  rewrite <- Hh, <- Hl. destruct hit.
  - unfold bind at 1.
    destruct (get website options w1) as [[r|e] w2] eqn:Hget;
      apply get_frame in Hget as (Hh2 & Hl2 & _);
      cbn; frame_done.
  - unfold rm_acquire. mrun.
    destruct (acquire me (resourceManager w1)); cbn. frame_done.
Qed.

(** A job that got past the cache check has options with a tree. *)
Lemma testWebsite_start_awaiting me website options w granted w' :
  testWebsite_start me website options w = (Return (Awaiting granted), w') ->
  exists data, key_data (heap w) website options = Some data.
Proof.
  unfold testWebsite_start, has. unfold bind at 1 2. unfold generateKey.
  destruct (key_data (heap w) website options) as [data|]; [eauto|].
  discriminate.
Qed.

Lemma job_heap_prefix h0 wu w : job_heap h0 wu w -> h0 `prefix_of` heap w.
Proof. intros (fe & fs & -> & _). now eexists. Qed.

(** The loop when the full test fails until call [K] and [K] is within the
    budget. *)
Lemma retry_loop_succeeds env website options h0 data maxRetries K r t fuel :
  key_data h0 website options = Some data ->
  env K = (FTResults r, t) ->
  (K <= maxRetries)%nat ->
  forall retries lastError wu w,
    job_heap h0 wu w ->
    (retries <= K)%nat -> (K - retries < fuel)%nat ->
    (forall i, (retries <= i < K)%nat -> fails (env i) <> None) ->
    exists w',
      retry_loop fuel env website options (VRef (length h0)) maxRetries
        retries lastError w = (Return (TResults r), w')
      /\ attempts_made (log w')
         = (attempts_made (log w) + (K - retries) + 1)%nat.
Proof.
  intros Hdata HK HKm.
  induction fuel as [|fuel IH]; intros retries lastError wu w Hjh Hle Hfuel Hfail;
    [lia|]. cbn [retry_loop].
  rewrite (proj2 (Nat.leb_le retries maxRetries)) by lia.
  destruct (attempt_cases env website options h0 retries wu w Hjh)
    as (c & w1 & pre & timeout & Hrun & Hjh1 & Hl1 & Hpre & Hc).
  unfold try_catch. unfold bind at 1. rewrite Hrun.
  assert (Hcount : attempts_made (log w1) = (attempts_made (log w) + 1)%nat).
  { rewrite Hl1, !attempts_made_app, (no_attempt_attempts_made _ Hpre).
    rewrite attempts_made_one. change (attempts_made []) with 0%nat. lia. }
  destruct (decide (retries = K)) as [->|Hne].
  - rewrite HK in Hc. destruct c as [r'|message].
    + destruct Hc as [[= <-] _]. exists w1. split; [reflexivity|]. lia.
    + destruct Hc as (_ & _ & Hc). cbn in Hc.
      rewrite (key_data_prefix _ _ _ _ _ Hdata (job_heap_prefix _ _ _ Hjh1))
        in Hc. discriminate.
  - specialize (Hfail retries ltac:(lia)) as Hf.
    destruct c as [r'|message].
    + destruct Hc as [Hc _]. unfold fails in Hf. rewrite Hc in Hf. congruence.
    + destruct Hc as (Hrm1 & Hrs1 & _).
      rewrite (proj2 (Nat.ltb_lt retries maxRetries)) by lia.
      rewrite andb_true_r.
      assert (exists w2 wu2,
                 (if includes "start lh:driver:navigate" message
                  then
                    let* so := read (VRef (length h0)) "screenshotOptions" in
                    assign so "waitUntil" (VStr "load")
                  else ret tt) w1 = (Return tt, w2)
                 /\ job_heap h0 wu2 w2 /\ log w2 = log w1)
        as (w2 & wu2 & Hrelax & Hjh2 & Hl2).
      { destruct (includes _ _).
        - destruct (relax_run h0 _ w1 Hjh1) as (w2 & E & ? & ? & ? & ?).
          exists w2, (VStr "load"). now rewrite E.
        - eexists w1, _. split; [reflexivity|]. split; [exact Hjh1|reflexivity]. }
      unfold bind at 1. rewrite Hrelax.
      unfold sleep, modify, bind at 1.
      destruct (IH (S retries) (Some message) wu2
                  (emit (EvSleep (Z.of_nat (S retries) * 5000)) w2)
                  (job_heap_emit _ _ _ _ Hjh2) ltac:(lia) ltac:(lia))
        as (w' & Hloop & Hn).
      { intros i Hi. apply Hfail. lia. }
      exists w'. split; [exact Hloop|].
      rewrite Hn. cbn [log emit]. rewrite Hl2, attempts_made_app.
      rewrite attempts_made_sleep. change (attempts_made []) with 0%nat. lia.
Qed.

(** The loop when every full test within the budget fails. *)
Lemma retry_loop_exhausts env website options h0 maxRetries fuel :
  forall retries lastError wu w,
    job_heap h0 wu w ->
    (retries <= maxRetries)%nat -> (maxRetries - retries < fuel)%nat ->
    (forall i, (retries <= i <= maxRetries)%nat -> fails (env i) <> None) ->
    exists w' message,
      retry_loop fuel env website options (VRef (length h0)) maxRetries
        retries lastError w = (Return (TError website message), w')
      /\ fails (env maxRetries) = Some message
      /\ attempts_made (log w')
         = (attempts_made (log w) + (maxRetries - retries) + 1)%nat.
Proof.
  induction fuel as [|fuel IH]; intros retries lastError wu w Hjh Hle Hfuel Hfail;
    [lia|]. cbn [retry_loop].
  rewrite (proj2 (Nat.leb_le retries maxRetries)) by lia.
  destruct (attempt_cases env website options h0 retries wu w Hjh)
    as (c & w1 & pre & timeout & Hrun & Hjh1 & Hl1 & Hpre & Hc).
  unfold try_catch. unfold bind at 1. rewrite Hrun.
  assert (Hcount : attempts_made (log w1) = (attempts_made (log w) + 1)%nat).
  { rewrite Hl1, !attempts_made_app, (no_attempt_attempts_made _ Hpre).
    rewrite attempts_made_one. change (attempts_made []) with 0%nat. lia. }
  specialize (Hfail retries ltac:(lia)) as Hf.
  destruct c as [r'|message].
  { destruct Hc as [Hc _]. unfold fails in Hf. rewrite Hc in Hf. congruence. }
  destruct Hc as (Hrm1 & Hrs1 & Hmsg).
  destruct (fails (env retries)) as [failure|] eqn:Hfails; [subst|congruence].
  assert (exists w2 wu2,
             (if includes "start lh:driver:navigate" failure
                 && (retries <? maxRetries)%nat
              then
                let* so := read (VRef (length h0)) "screenshotOptions" in
                assign so "waitUntil" (VStr "load")
              else ret tt) w1 = (Return tt, w2)
             /\ job_heap h0 wu2 w2 /\ log w2 = log w1)
    as (w2 & wu2 & Hrelax & Hjh2 & Hl2).
  { destruct (_ && _).
    - destruct (relax_run h0 _ w1 Hjh1) as (w2 & E & ? & ? & ? & ?).
      exists w2, (VStr "load"). now rewrite E.
    - eexists w1, _. split; [reflexivity|]. split; [exact Hjh1|reflexivity]. }
  unfold bind at 1. rewrite Hrelax.
  destruct (retries <? maxRetries)%nat eqn:Elt.
  - apply Nat.ltb_lt in Elt.
    unfold sleep, modify, bind at 1.
    destruct (IH (S retries) (Some failure) wu2
                (emit (EvSleep (Z.of_nat (S retries) * 5000)) w2)
                (job_heap_emit _ _ _ _ Hjh2) ltac:(lia) ltac:(lia))
      as (w' & message & Hloop & Hlast & Hn).
    { intros i Hi. apply Hfail. lia. }
    exists w', message. split; [exact Hloop|]. split; [exact Hlast|].
    rewrite Hn. cbn [log emit]. rewrite Hl2, attempts_made_app.
    rewrite attempts_made_sleep. change (attempts_made []) with 0%nat. lia.
  - apply Nat.ltb_ge in Elt. assert (retries = maxRetries) as -> by lia.
    destruct (fail_job_run website (Some failure) w2)
      as (w' & -> & _ & _ & Hl).
    exists w', failure. split; [reflexivity|]. split; [exact Hfails|].
    rewrite Hl, Hl2. lia.
Qed.

Lemma testWebsite_granted me env website options maxRetries w w0 :
  testWebsite_start me website options w = (Return (Awaiting true), w0) ->
  testWebsite me env website options maxRetries w
  = match testWebsite_resume env website options maxRetries w0 with
    | (Return r, w') => (Return (Some r), w')
    | (Throw e, w') => (Throw e, w')
    end.
Proof.
  intros Hstart. unfold testWebsite. unfold bind at 1. rewrite Hstart.
  reflexivity.
Qed.

(** The retry budget of a job that holds a slot, whether it got the slot at
    once or after waiting in the queue. *)
Lemma testWebsite_resume_retry_budget env website options maxRetries K r t w
    data :
  key_data (heap w) website options = Some data ->
  (forall i, (i < K)%nat -> fails (env i) <> None) ->
  env K = (FTResults r, t) ->
  ((K <= maxRetries)%nat ->
   exists w',
     testWebsite_resume env website options maxRetries w
       = (Return (TResults r), w')
     /\ attempts_made (log w') = (attempts_made (log w) + (K + 1))%nat)
  /\ ((maxRetries < K)%nat ->
      exists w' message,
        testWebsite_resume env website options maxRetries w
          = (Return (TError website message), w')
        /\ fails (env maxRetries) = Some message
        /\ attempts_made (log w')
           = (attempts_made (log w) + (maxRetries + 1))%nat).
Proof.
  intros Hdata Hfail HK.
  destruct (testWebsite_resume_unfold env website options maxRetries w)
    as (w1 & -> & Hjh & _ & _ & Hl1).
  split.
  - intros Hle.
    destruct (retry_loop_succeeds env website options (heap w) data maxRetries
                K r t (S maxRetries) Hdata HK Hle 0%nat None _ w1 Hjh)
      as (w' & Hloop & Hn); [lia|lia|intros i Hi; apply Hfail; lia|].
    exists w'. split; [exact Hloop|]. rewrite Hn, Hl1. lia.
  - intros Hlt.
    destruct (retry_loop_exhausts env website options (heap w) maxRetries
                (S maxRetries) 0%nat None _ w1 Hjh)
      as (w' & message & Hloop & Hlast & Hn);
      [lia|lia|intros i Hi; apply Hfail; lia|].
    exists w', message. split; [exact Hloop|]. split; [exact Hlast|].
    rewrite Hn, Hl1. lia.
Qed.

(** C3.  A job that misses the cache and gets a slot, and whose full test
    fails [K] times and then returns results: with [K <= maxRetries] the job
    returns these results after [K + 1] calls of the full test; with
    [maxRetries < K] it returns the failure object, with the message of the
    last failure, after [maxRetries + 1] calls. *)
Theorem testWebsite_retry_budget me env website options maxRetries K r t w w0 :
  testWebsite_start me website options w = (Return (Awaiting true), w0) ->
  (forall i, (i < K)%nat -> fails (env i) <> None) ->
  env K = (FTResults r, t) ->
  ((K <= maxRetries)%nat ->
   exists w',
     testWebsite me env website options maxRetries w
       = (Return (Some (TResults r)), w')
     /\ attempts_made (log w') = (attempts_made (log w) + (K + 1))%nat)
  /\ ((maxRetries < K)%nat ->
      exists w' message,
        testWebsite me env website options maxRetries w
          = (Return (Some (TError website message)), w')
        /\ fails (env maxRetries) = Some message
        /\ attempts_made (log w')
           = (attempts_made (log w) + (maxRetries + 1))%nat).
Proof.
  intros Hstart Hfail HK.
  destruct (testWebsite_start_awaiting _ _ _ _ _ _ Hstart) as (data & Hdata).
  destruct (testWebsite_start_frame _ _ _ _ _ _ Hstart) as (Hh0 & Hl0).
  rewrite <- Hh0 in Hdata.
  destruct (testWebsite_resume_retry_budget env website options maxRetries
              K r t w0 data Hdata Hfail HK) as [Hok Hko].
  rewrite (testWebsite_granted _ env _ _ maxRetries _ _ Hstart). split.
  - intros Hle. destruct (Hok Hle) as (w' & -> & Hn).
    exists w'. split; [reflexivity|]. now rewrite Hn, Hl0.
  - intros Hlt. destruct (Hko Hlt) as (w' & message & -> & Hlast & Hn).
    exists w', message. split; [reflexivity|]. split; [exact Hlast|].
    now rewrite Hn, Hl0.
Qed.

(** Once it holds a slot, a job returns, whatever the full tests do: the
    results of a full test or the failure object of its own website. *)
Lemma testWebsite_resume_returns env website options maxRetries w :
  exists r w',
    testWebsite_resume env website options maxRetries w = (Return r, w')
    /\ ((exists results, r = TResults results)
        \/ (exists message, r = TError website message)).
Proof.
  destruct (testWebsite_resume_spec env website options maxRetries w)
    as (r & w' & _ & _ & _ & _ & Hrun & _ & _ & _ & _ & Hr).
  exists r, w'. split; [exact Hrun|].
  destruct r as [|results|url message]; [contradiction|eauto|subst; eauto].
Qed.

(** Whatever a job does, every object that was in the heap when
    [testWebsite] was called, the options of the caller and their screenshot
    options among them, is as it was when [testWebsite] is over; and the
    [waitUntil] that the copy of the options carries at the calls of
    [runFullTest] is ['domcontentloaded'] some times and then ['load'] for
    the rest. *)
Lemma testWebsite_relaxation_field me env website options maxRetries w :
  exists c w' new a b,
    testWebsite me env website options maxRetries w = (c, w')
    /\ (forall l cell, heap w !! l = Some cell -> heap w' !! l = Some cell)
    /\ log w' = log w ++ new
    /\ waitUntil_carried new
       = replicate a (VStr "domcontentloaded") ++ replicate b (VStr "load").
Proof.
  unfold testWebsite. unfold bind at 1.
  destruct (testWebsite_start me website options w) as [[s|e] w0] eqn:Hstart;
    destruct (testWebsite_start_frame _ _ _ _ _ _ Hstart) as (Hh0 & Hl0).
  2:{ exists (Throw e), w0, [], 0%nat, 0%nat. split; [reflexivity|].
      rewrite Hh0, Hl0, app_nil_r. auto. }
  destruct s as [r|[|]].
  1,3: eexists _, w0, [], 0%nat, 0%nat; (split; [reflexivity|]);
       rewrite Hh0, Hl0, app_nil_r; auto.
  destruct (testWebsite_resume_spec env website options maxRetries w0)
    as (r & w' & new & wu' & a & b & Hrun & Hjh & _ & Hl & Hwc & _).
  unfold bind at 1. rewrite Hrun.
  exists (Return (Some r)), w', new, a, b. split; [reflexivity|].
  split; [|split; [congruence|exact Hwc]].
  intros l cell Hl'. rewrite <- Hh0 in Hl'.
  exact (prefix_lookup_Some _ _ _ _ Hl' (job_heap_prefix _ _ _ Hjh)).
Qed.

End JobFacts.

(** C3 on the example site, whose full test fails twice: with a budget of
    three retries the job returns the results after three calls, and with a
    budget of one it fails after two. *)
Lemma testWebsite_retry_budget_witness :
  (exists w',
     testWebsite 0 example_env "https://a.example" (VRef 0) 3 example_world
       = (Return (Some (TResults (example_results 80))), w')
     /\ attempts_made (log w')
        = (attempts_made (log example_world) + (2 + 1))%nat)
  /\ (exists w' message,
        testWebsite 0 example_env "https://a.example" (VRef 0) 1 example_world
          = (Return (Some (TError "https://a.example" message)), w')
        /\ fails (example_env 1%nat) = Some message
        /\ attempts_made (log w')
           = (attempts_made (log example_world) + (1 + 1))%nat).
Proof.
  split.
  - apply (testWebsite_retry_budget 0 example_env "https://a.example" (VRef 0)
             3 2 (example_results 80) 20000 example_world
             (with_resourceManager (mkResourceManager 3 1 []) example_world));
      [reflexivity| |reflexivity|lia].
    intros i Hi. destruct i as [|[|i]]; [discriminate|discriminate|lia].
  - apply (testWebsite_retry_budget 0 example_env "https://a.example" (VRef 0)
             1 2 (example_results 80) 20000 example_world
             (with_resourceManager (mkResourceManager 3 1 []) example_world));
      [reflexivity| |reflexivity|lia].
    intros i Hi. destruct i as [|[|i]]; [discriminate|discriminate|lia].
Defined.

(** ** Storage errors and the cache check of [testWebsite] *)

(** C5.  Two storage errors that make a job fail without a full test.
    - The entry of the site has expired and the disk refuses to delete its
      file: [has] throws, [testWebsite] throws with it, and the batch records
      the error for the site.
    - The entry is fresh and the disk refuses to read its file: [get] takes
      the error and returns [null], [testWebsite] returns the [null], and the
      batch records a TypeError for the site.
    On a miss the job would have waited for a slot and run the full test. *)
Theorem storage_error_fails_job :
  (exists message w',
     testWebsite 0 example_env "https://a.example" (VRef 0) 3
       (with_clock 3601000
          (set "https://a.example" (VRef 0) (example_results 80)
             undeletable_world).2)
     = (Throw message, w')
     /\ log w' = []
     /\ entry_of "https://a.example" (Throw message)
        = EError "https://a.example" message)
  /\ (exists w',
        testWebsite 0 example_env "https://a.example" (VRef 0) 3
          (with_clock 2000
             (set "https://a.example" (VRef 0) (example_results 80)
                unreadable_world).2)
        = (Return (Some TNull), w')
        /\ log w' = []
        /\ entry_of "https://a.example" (Return TNull)
           = EError "https://a.example"
               "Cannot read properties of null (reading 'error')")
  /\ (exists w',
        testWebsite 0 example_env "https://a.example" (VRef 0) 3 example_world
        = (Return (Some (TResults (example_results 80))), w')
        /\ attempts_made (log w') = 3%nat).
Proof.
  split; [|split].
  - eexists _, _. split; [vm_compute; reflexivity|]. split; reflexivity.
  - eexists. split; [vm_compute; reflexivity|]. split; reflexivity.
  - eexists. split; [vm_compute; reflexivity|]. reflexivity.
Qed.

(** C6.  [set] could not write the file of the site, so the map in memory has
    an entry with no file behind it.  The next [testWebsite] for the site,
    within the cache duration, returns [null]: neither results nor a failure
    object.  No full test is run. *)
Theorem testWebsite_returns_null :
  exists w',
    testWebsite 0 example_env "https://a.example" (VRef 0) 3
      (with_clock 2000
         (set "https://a.example" (VRef 0) (example_results 80)
            read_only_world).2)
    = (Return (Some TNull), w')
    /\ log w' = [].
Proof. eexists. split; [vm_compute; reflexivity|]. reflexivity. Qed.

(** ** The batch *)

#[local] Set Warnings "-clear-no-such-hyp".

Lemma holding_insert (st : list JobStatus) i s s' :
  st !! i = Some s ->
  (length (filter (fun s => is_Holding s = true) (<[i := s']> st))
   + (if is_Holding s then 1 else 0)
   = length (filter (fun s => is_Holding s = true) st)
     + (if is_Holding s' then 1 else 0))%nat.
Proof.
  revert i. induction st as [|x st IH]; intros [|i] Hi; try discriminate.
  - injection Hi as ->.
    change (<[0%nat := s']> (s :: st)) with (s' :: st). rewrite !filter_cons.
    destruct (is_Holding s), (is_Holding s'); repeat case_decide;
      try congruence; cbn [length]; lia.
  - change (<[S i := s']> (x :: st)) with (x :: <[i := s']> st).
    cbn in Hi. rewrite !filter_cons. specialize (IH i Hi).
    case_decide; cbn [length]; lia.
Qed.

Lemma length_filter_ne (l : list nat) i :
  NoDup l -> i ∈ l ->
  S (length (filter (fun j => j <> i) l)) = length l.
Proof.
  induction 1 as [|x l Hx Hnd IH]; intros Hi; [by apply elem_of_nil in Hi|].
  rewrite filter_cons. case_decide as Hxi.
  - cbn. f_equal. apply IH. apply elem_of_cons in Hi as [->|Hi]; [done|exact Hi].
  - subst x. cbn. f_equal.
    assert (filter (fun j => j <> i) l = l) as ->; [|reflexivity].
    clear IH Hi Hnd. induction l as [|y l IHl]; [reflexivity|].
    rewrite filter_cons. apply not_elem_of_cons in Hx as [Hy Hx].
    case_decide; [|congruence]. f_equal. apply IHl. exact Hx.
Qed.

Lemma entry_url_entry_of website c : entry_url (entry_of website c) = website.
Proof.
  destruct c as [[|r|url error]|message]; cbn; try reflexivity.
  now destruct (truthy error).
Qed.

Lemma pushed_insert_other st ws i s s' :
  st !! i = Some s -> is_Pushed s = false -> is_Pushed s' = false ->
  pushed (<[i := s']> st) ws = pushed st ws.
Proof.
  revert ws i. induction st as [|x st IH]; intros [|u ws] [|i] Hi Hs Hs';
    try discriminate; try reflexivity.
  - injection Hi as ->.
    change (<[0%nat := s']> (s :: st)) with (s' :: st). cbn [pushed].
    now rewrite Hs, Hs'.
  - change (<[S i := s']> (x :: st)) with (x :: <[i := s']> st).
    cbn [pushed]. cbn in Hi. now rewrite (IH ws i Hi Hs Hs').
Qed.

Lemma pushed_insert_Pushed st ws i s u :
  st !! i = Some s -> is_Pushed s = false -> ws !! i = Some u ->
  pushed (<[i := Pushed]> st) ws ≡ₚ pushed st ws ++ [u].
Proof.
  revert ws i. induction st as [|x st IH]; intros [|v ws] [|i] Hi Hs Hu;
    try discriminate.
  - injection Hi as ->. injection Hu as ->.
    change (<[0%nat := Pushed]> (s :: st)) with (Pushed :: st).
    cbn [pushed is_Pushed]. rewrite Hs. cbn [app].
    apply Permutation_cons_append.
  - change (<[S i := Pushed]> (x :: st)) with (x :: <[i := Pushed]> st).
    cbn [pushed]. cbn in Hi, Hu. rewrite (IH ws i Hi Hs Hu).
    now rewrite app_assoc.
Qed.

Lemma pushed_finished st ws :
  length st = length ws -> Forall (fun s => s = Pushed) st -> pushed st ws = ws.
Proof.
  revert ws. induction st as [|s st IH]; intros [|u ws] Hlen Hall;
    try discriminate; [reflexivity|].
  apply Forall_cons in Hall as [-> Hall]. cbn. f_equal. apply IH; [|exact Hall].
  now injection Hlen.
Qed.

Section BatchFacts.
Context `{Platform}.

Lemma job_options_frame testOptions w c w' :
  job_options testOptions w = (c, w') ->
  (exists options, c = Return options)
  /\ resourceManager w' = resourceManager w /\ resolved w' = resolved w.
Proof.
  unfold job_options. destruct testOptions as [options|].
  - intros [= <- <-]. eauto.
  - unfold alloc. mrun. intros [= <- <-]. eauto.
Qed.

Lemma testWebsite_start_rm me website options w c w' :
  testWebsite_start me website options w = (c, w') ->
  resolved w' = resolved w
  /\ match c with
     | Return (Awaiting granted) =>
         acquire me (resourceManager w) = (resourceManager w', granted)
     | _ => resourceManager w' = resourceManager w
     end.
Proof.
  unfold testWebsite_start. unfold bind at 1.
  destruct (has website options w) as [[hit|e] w1] eqn:Hhas;
    apply has_frame in Hhas as (_ & _ & Hrm & Hrs);
    [|intros [= <- <-]; auto].
  rewrite <- Hrm, <- Hrs. destruct hit.
  - unfold bind at 1.
    destruct (get website options w1) as [[r|e] w2] eqn:Hget;
      apply get_frame in Hget as (_ & _ & Hrm2 & Hrs2);
      cbn; intros [= <- <-]; auto.
  - unfold rm_acquire. mrun.
    destruct (acquire me (resourceManager w1)) as [rm granted]; cbn.
    intros [= <- <-]; auto.
Qed.

(** A step that moves job [i] from status [s] to status [s'] keeps the
    resource manager and the jobs consistent when it keeps the balance. *)
Lemma consistent_update cap n b i s s' w' results :
  consistent cap n b ->
  status b !! i = Some s ->
  maxConcurrent (resourceManager w') = cap ->
  Z.of_nat (length (resolved w')) + (if is_Holding s' then 1 else 0)
    - running (resourceManager w')
  = Z.of_nat (length (resolved (world b))) + (if is_Holding s then 1 else 0)
    - running (resourceManager (world b)) ->
  running (resourceManager w') <= Z.max 0 cap ->
  (forall j,
      j ∈ queue (resourceManager w') ++ resolved w'
      <-> (j <> i /\ j ∈ queue (resourceManager (world b)) ++ resolved (world b))
          \/ (j = i /\ is_Queued s' = true)) ->
  NoDup (queue (resourceManager w') ++ resolved w') ->
  (queue (resourceManager w') <> [] -> cap <= running (resourceManager w')) ->
  consistent cap n (mkBatch w' (<[i := s']> (status b)) results).
Proof.
  intros [Hlen Hcap Hrun Hbound Hwait Hnd Hfull] Hi Hcap' Hbal Hbound' Hwait'
    Hnd' Hfull'.
  constructor; cbn [world status]; try assumption.
  - now rewrite length_insert.
  - unfold in_flight in *. cbn [world status].
    pose proof (holding_insert _ _ _ s' Hi) as Hh.
    destruct (is_Holding s), (is_Holding s'); lia.
  - intros j. rewrite Hwait'. split.
    + intros [[Hne Hj]|[-> Hq]].
      * apply Hwait in Hj as (o & Hj). exists o.
        now rewrite list_lookup_insert_ne.
      * destruct s'; try discriminate. eexists.
        apply list_lookup_insert_eq. eapply lookup_lt_Some, Hi.
    + intros (o & Hj). destruct (decide (j = i)) as [->|Hne].
      * right. split; [reflexivity|].
        rewrite list_lookup_insert_eq in Hj by (eapply lookup_lt_Some, Hi).
        now injection Hj as ->.
      * left. split; [exact Hne|]. apply Hwait. exists o.
        now rewrite list_lookup_insert_ne in Hj.
Qed.

Lemma not_queued_not_waiting cap n b i s :
  consistent cap n b -> status b !! i = Some s -> is_Queued s = false ->
  i ∉ queue (resourceManager (world b)) ++ resolved (world b).
Proof.
  intros Hc Hi Hs Hin. apply (cons_waiters _ _ _ Hc) in Hin as (o & Ho).
  rewrite Hi in Ho. injection Ho as ->. discriminate.
Qed.

Lemma step_consistent websites testOptions envs maxRetries cap b b' :
  consistent cap (length websites) b ->
  step websites testOptions envs maxRetries b b' ->
  consistent cap (length websites) b'.
Proof.
  intros Hc Hstep.
  destruct Hstep as [i website t w options c w' b Hi _ _ Hopt Hstart
                    |i options b _ Hi Hres
                    |i website options c w' b _ Hi _ Hrun
                    |i website c b _ Hi _].
  - (* start *)
    pose proof (not_queued_not_waiting _ _ _ _ _ Hc Hi eq_refl) as Hnot.
    apply job_options_frame in Hopt as (_ & Hrm0 & Hrs0). cbn in Hrm0, Hrs0.
    apply testWebsite_start_rm in Hstart as (Hrs & Hrm).
    rewrite Hrs0 in Hrs. rewrite Hrm0 in Hrm.
    pose proof Hc as [_ Hcap _ Hbound _ Hnd Hfull].
    assert (Hsame : resourceManager w' = resourceManager (world b) ->
                    is_Holding (started options c) = false ->
                    is_Queued (started options c) = false ->
                    consistent cap (length websites)
                      (mkBatch w' (<[i := started options c]> (status b))
                         (batchResults b))).
    { intros E Hh Hq.
      apply (consistent_update _ _ _ _ _ _ _ _ Hc Hi); rewrite ?E, ?Hrs, ?Hh, ?Hq;
        try assumption; try reflexivity.
      intros j. split; [|intros [[_ ?]|[_ ?]]; [assumption|discriminate]].
      intros Hj. left. split; [|exact Hj]. intros ->. contradiction. }
    destruct c as [[r|granted]|e]; [now apply Hsame| |now apply Hsame].
    unfold acquire in Hrm.
    destruct (running (resourceManager (world b))
              <? maxConcurrent (resourceManager (world b))) eqn:Elt;
      injection Hrm as Hrm <-; cbn [started].
    + apply Z.ltb_lt in Elt.
      apply (consistent_update _ _ _ _ _ _ _ _ Hc Hi);
        rewrite <- ?Hrm, ?Hrs; cbn; try assumption; try lia.
      * intros j. split; [|intros [[_ ?]|[_ ?]]; [assumption|discriminate]].
        intros Hj. left. split; [|exact Hj]. intros ->. contradiction.
      * intros Hne. specialize (Hfull Hne). lia.
    + apply Z.ltb_ge in Elt.
      apply (consistent_update _ _ _ _ _ _ _ _ Hc Hi);
        rewrite <- ?Hrm, ?Hrs; cbn; try assumption; try lia.
      * clear -Hnot. intros j. set_solver.
      * rewrite <- app_assoc. cbn. apply NoDup_app.
        apply NoDup_app in Hnd as (Hq & Hdisj & Hr).
        rewrite elem_of_app in Hnot.
        split; [exact Hq|]. split; [|apply NoDup_cons; split; tauto].
        intros j Hj. rewrite elem_of_cons. intros [->|Hj']; [tauto|].
        exact (Hdisj j Hj Hj').
  - (* resume *)
    pose proof Hc as [_ Hcap _ Hbound _ Hnd Hfull].
    apply NoDup_app in Hnd as (Hq & Hdisj & Hr).
    apply (consistent_update _ _ _ _ _ _ _ _ Hc Hi); cbn; try assumption.
    + pose proof (length_filter_ne _ _ Hr Hres). lia.
    + clear -Hdisj Hres. intros j. specialize (Hdisj i).
      rewrite !elem_of_app, list_elem_of_filter. split.
      * intros [Hj|[Hne Hj]]; left; (split; [|tauto]); [|exact Hne].
        intros ->. tauto.
      * intros [[Hne [Hj|Hj]]|[_ ?]]; [tauto|tauto|discriminate].
    + apply NoDup_app. split; [exact Hq|]. split; [|now apply NoDup_filter].
      intros j Hj Hj'. apply list_elem_of_filter in Hj' as [_ Hj'].
      exact (Hdisj j Hj Hj').
  - (* run *)
    pose proof (not_queued_not_waiting _ _ _ _ _ Hc Hi eq_refl) as Hnot.
    destruct (testWebsite_resume_spec (envs i) website options maxRetries
                (world b))
      as (r & w1 & _ & _ & _ & _ & Hrun' & _ & [Hrm Hrs] & _).
    rewrite Hrun in Hrun'. injection Hrun' as -> <-.
    pose proof Hc as [_ Hcap _ Hbound _ Hnd Hfull].
    unfold release in Hrm, Hrs.
    destruct (queue (resourceManager (world b))) as [|k rest] eqn:Eq;
      cbn in Hrm, Hrs.
    + apply (consistent_update _ _ _ _ _ _ _ _ Hc Hi);
        rewrite ?Hrm, ?Hrs, ?Eq, ?app_nil_r; cbn; try assumption; try lia.
      * clear -Hnot. intros j. set_solver.
      * intros ?. congruence.
    + apply (consistent_update _ _ _ _ _ _ _ _ Hc Hi);
        rewrite ?Hrm, ?Hrs, ?Eq; cbn; try assumption; try lia.
      * rewrite length_app. cbn. lia.
      * try rewrite Eq in Hnot. clear -Hnot. intros j. set_solver.
      * try rewrite Eq in Hnd. cbn in Hnd.
        apply NoDup_cons in Hnd as [Hk Hnd].
        rewrite app_assoc. apply NoDup_app. split; [exact Hnd|].
        split; [|apply NoDup_singleton].
        intros j Hj. rewrite elem_of_cons, elem_of_nil.
        intros [->|[]]. contradiction.
      * intros _. apply Hfull. discriminate.
  - (* push *)
    pose proof (not_queued_not_waiting _ _ _ _ _ Hc Hi eq_refl) as Hnot.
    pose proof Hc as [_ Hcap _ Hbound _ Hnd Hfull].
    apply (consistent_update _ _ _ _ _ _ _ _ Hc Hi); cbn; try assumption;
      try reflexivity.
    intros j. split; [|intros [[_ ?]|[_ ?]]; [assumption|discriminate]].
    intros Hj. left. split; [|exact Hj]. intros ->. contradiction.
Qed.

Lemma initial_consistent websites cap w :
  consistent cap (length websites) (initial websites cap w).
Proof.
  assert (Hnone : forall n, filter (fun s => is_Holding s = true)
                              (replicate n NotStarted) = []).
  { induction n as [|n IH]; [reflexivity|].
    change (replicate (S n) NotStarted) with (NotStarted :: replicate n NotStarted).
    rewrite filter_cons. case_decide; [discriminate|exact IH]. }
  constructor; cbn.
  - apply length_replicate.
  - reflexivity.
  - unfold in_flight. cbn. now rewrite Hnone.
  - lia.
  - intros i. split; [intros Hi; by apply elem_of_nil in Hi|].
    intros (o & Ho). apply lookup_replicate in Ho as [? _]. discriminate.
  - constructor.
  - congruence.
Qed.

(** The urls of the entries are the websites of the jobs that have pushed. *)
Lemma step_pushed websites testOptions envs maxRetries b b' :
  step websites testOptions envs maxRetries b b' ->
  map entry_url (batchResults b) ≡ₚ pushed (status b) websites ->
  map entry_url (batchResults b') ≡ₚ pushed (status b') websites.
Proof.
  intros Hstep Hp.
  destruct Hstep as [i website t w options c w' b Hi _ _ _ _
                    |i options b _ Hi _
                    |i website options c w' b _ Hi _ _
                    |i website c b _ Hi Hw]; cbn [status batchResults].
  - rewrite (pushed_insert_other _ _ _ _ _ Hi); [exact Hp|reflexivity|].
    now destruct c as [[?|[|]]|?].
  - now rewrite (pushed_insert_other _ _ _ _ _ Hi).
  - now rewrite (pushed_insert_other _ _ _ _ _ Hi).
  - rewrite map_app. cbn. rewrite entry_url_entry_of.
    rewrite (pushed_insert_Pushed _ _ _ _ _ Hi eq_refl Hw). now rewrite Hp.
Qed.

Lemma pushed_replicate n ws : pushed (replicate n NotStarted) ws = [].
Proof.
  revert ws. induction n as [|n IH]; intros [|u ws]; cbn; auto.
Qed.

Lemma reachable_invariant websites testOptions envs maxRetries cap w b :
  rtc (step websites testOptions envs maxRetries) (initial websites cap w) b ->
  consistent cap (length websites) b
  /\ map entry_url (batchResults b) ≡ₚ pushed (status b) websites.
Proof.
  revert b. apply rtc_ind_r.
  - split; [apply initial_consistent|]. cbn. now rewrite pushed_replicate.
  - intros b b' _ Hstep [Hc Hp]. split.
    + exact (step_consistent _ _ _ _ _ _ _ Hc Hstep).
    + exact (step_pushed _ _ _ _ _ _ Hstep Hp).
Qed.

Lemma all_started_spec st : all_started st = true -> NotStarted ∉ st.
Proof.
  unfold all_started. rewrite forallb_forall. intros Hall Hin.
  apply list_elem_of_In in Hin. now apply Hall in Hin.
Qed.

(** A turn the scheduler takes is a step of the event loop. *)
Lemma take_turn_sound websites testOptions envs maxRetries turn b b' :
  take_turn websites testOptions envs maxRetries turn b = Some b' ->
  step websites testOptions envs maxRetries b b'.
Proof.
  destruct turn as [i t|i|i|i]; cbn [take_turn].
  - destruct (status b !! i) as [[| | | |]|] eqn:Hi; try discriminate.
    destruct (websites !! i) as [website|] eqn:Hw; try discriminate.
    destruct (all_started (take i (status b))) eqn:Hall; try discriminate.
    destruct (job_options testOptions (with_clock t (world b)))
      as [[options|e] w] eqn:Hopt; try discriminate.
    destruct (testWebsite_start i website options w) as [c w'] eqn:Hstart.
    intros [= <-]. eapply step_start; eauto.
    intros j Hj Hns. apply all_started_spec in Hall. apply Hall.
    apply list_elem_of_lookup. exists j. now rewrite lookup_take_lt.
  - destruct (status b !! i) as [[| | | |]|] eqn:Hi; try discriminate.
    destruct (all_started (status b)) eqn:Hall; try discriminate.
    case_bool_decide; try discriminate. cbn.
    intros [= <-]. apply step_resume; auto using all_started_spec.
  - destruct (status b !! i) as [[| | | |]|] eqn:Hi; try discriminate.
    destruct (websites !! i) as [website|] eqn:Hw; try discriminate.
    destruct (all_started (status b)) eqn:Hall; try discriminate.
    destruct (testWebsite_resume (envs i) website options maxRetries (world b))
      as [c w'] eqn:Hrun.
    intros [= <-]. eapply step_run; eauto using all_started_spec.
  - destruct (status b !! i) as [[| | | |]|] eqn:Hi; try discriminate.
    destruct (websites !! i) as [website|] eqn:Hw; try discriminate.
    destruct (all_started (status b)) eqn:Hall; try discriminate.
    intros [= <-]. eapply step_push; eauto using all_started_spec.
Qed.

Lemma run_schedule_sound websites testOptions envs maxRetries turns :
  forall b b',
    run_schedule websites testOptions envs maxRetries turns b = Some b' ->
    rtc (step websites testOptions envs maxRetries) b b'.
Proof.
  induction turns as [|turn turns IH]; intros b b'; cbn.
  - intros [= <-]. apply rtc_refl.
  - destruct (take_turn _ _ _ _ turn b) as [b1|] eqn:Hturn; [|discriminate].
    intros Hrest. eapply rtc_l; [|exact (IH _ _ Hrest)].
    exact (take_turn_sound _ _ _ _ _ _ _ Hturn).
Qed.

Lemma sum_rank_cons s (st : list JobStatus) :
  sum_list (map rank (s :: st)) = (rank s + sum_list (map rank st))%nat.
Proof. reflexivity. Qed.

Lemma sum_rank_insert (st : list JobStatus) i s s' :
  st !! i = Some s ->
  (sum_list (map rank (<[i := s']> st)) + rank s
   = sum_list (map rank st) + rank s')%nat.
Proof.
  revert i. induction st as [|x st IH]; intros [|i] Hi; try discriminate.
  - injection Hi as ->.
    change (<[0%nat := s']> (s :: st)) with (s' :: st).
    rewrite !sum_rank_cons. lia.
  - change (<[S i := s']> (x :: st)) with (x :: <[i := s']> st).
    cbn in Hi. specialize (IH i Hi). rewrite !sum_rank_cons. lia.
Qed.

(** Every step takes one job further. *)
Lemma step_progress websites testOptions envs maxRetries b b' :
  step websites testOptions envs maxRetries b b' ->
  (progress b < progress b')%nat.
Proof.
  unfold progress.
  intros [i website t w options c w' b0 Hi _ _ _ _
         |i options b0 _ Hi _
         |i website options c w' b0 _ Hi _ _
         |i website c b0 _ Hi _]; cbn [status].
  - pose proof (sum_rank_insert _ _ _ (started options c) Hi) as Hs.
    assert (1 <= rank (started options c))%nat
      by (destruct c as [[?|[|]]|?]; cbn; lia).
    cbn [rank] in Hs. lia.
  - pose proof (sum_rank_insert _ _ _ (Holding options) Hi) as Hs.
    cbn [rank] in Hs. lia.
  - pose proof (sum_rank_insert _ _ _ (Done c) Hi) as Hs.
    cbn [rank] in Hs. lia.
  - pose proof (sum_rank_insert _ _ _ Pushed Hi) as Hs.
    cbn [rank] in Hs. lia.
Qed.

Lemma progress_bound b : (progress b <= 4 * length (status b))%nat.
Proof.
  unfold progress. induction (status b) as [|s st IH]; cbn; [lia|].
  destruct s; cbn; lia.
Qed.

Lemma finished_forallb b :
  forallb is_Pushed (status b) = true <-> finished b.
Proof.
  unfold finished. rewrite forallb_forall, Forall_forall. split.
  - intros Hall s Hs. apply list_elem_of_In, Hall in Hs. now destruct s.
  - intros Hall s Hs. apply list_elem_of_In, Hall in Hs. now subst.
Qed.

Lemma all_started_complete st :
  all_started st = false -> exists i,
    st !! i = Some NotStarted
    /\ forall j, (j < i)%nat -> st !! j <> Some NotStarted.
Proof.
  induction st as [|s st IH]; [discriminate|]. cbn.
  destruct s; cbn; try (intros Hst; destruct (IH Hst) as (i & Hi & Hmin);
    exists (S i); split; [exact Hi|];
    intros [|j] Hj; [discriminate|apply Hmin; lia]).
  intros _. exists 0%nat. split; [reflexivity|]. intros j Hj. lia.
Qed.

Lemma find_status (P : JobStatus -> bool) st :
  forallb (fun s => negb (P s)) st = false ->
  exists i s, st !! i = Some s /\ P s = true.
Proof.
  induction st as [|s st IH]; [discriminate|]. cbn.
  destruct (P s) eqn:E; cbn.
  - intros _. exists 0%nat, s. auto.
  - intros Hst. destruct (IH Hst) as (i & s' & Hi & Hs).
    exists (S i), s'. auto.
Qed.

(** With at least one slot, a batch that is not finished can take a step:
    the event loop never runs dry before every callback is over. *)
Lemma can_step websites testOptions envs maxRetries cap b :
  1 <= cap ->
  consistent cap (length websites) b ->
  ~ finished b ->
  exists b', step websites testOptions envs maxRetries b b'.
Proof.
  intros Hcap Hc Hnf.
  destruct (all_started (status b)) eqn:Hall.
  2:{ destruct (all_started_complete _ Hall) as (i & Hi & Hmin).
      destruct (websites !! i) as [website|] eqn:Hw.
      2:{ apply lookup_ge_None in Hw. apply lookup_lt_Some in Hi.
          rewrite (cons_length _ _ _ Hc) in Hi. lia. }
      destruct (job_options testOptions (with_clock 0 (world b)))
        as [c0 w] eqn:Hopt.
      destruct (job_options_frame _ _ _ _ Hopt) as ((options & ->) & _).
      destruct (testWebsite_start i website options w) as [c w'] eqn:Hstart.
      eexists. eapply step_start; eauto. }
  pose proof (all_started_spec _ Hall) as Hns.
  destruct (forallb (fun s => negb (is_Done s)) (status b)) eqn:Hdone.
  2:{ destruct (find_status _ _ Hdone) as (i & s & Hi & Hs).
      destruct s; try discriminate.
      destruct (websites !! i) as [website|] eqn:Hw.
      2:{ apply lookup_ge_None in Hw. apply lookup_lt_Some in Hi.
          rewrite (cons_length _ _ _ Hc) in Hi. lia. }
      eexists. eapply step_push; eauto. }
  destruct (forallb (fun s => negb (is_Holding s)) (status b)) eqn:Hhold.
  2:{ destruct (find_status _ _ Hhold) as (i & s & Hi & Hs).
      destruct s; try discriminate.
      destruct (websites !! i) as [website|] eqn:Hw.
      2:{ apply lookup_ge_None in Hw. apply lookup_lt_Some in Hi.
          rewrite (cons_length _ _ _ Hc) in Hi. lia. }
      destruct (testWebsite_resume (envs i) website options maxRetries
                  (world b)) as [c w'] eqn:Hrun.
      eexists. eapply step_run; eauto. }
  destruct (resolved (world b)) as [|i rest] eqn:Hres.
  2:{ assert (Hin : i ∈ queue (resourceManager (world b)) ++ resolved (world b))
        by (rewrite Hres; set_solver).
      apply (cons_waiters _ _ _ Hc) in Hin as (options & Hi).
      eexists. eapply step_resume; eauto. rewrite Hres. set_solver. }
  exfalso. apply Hnf. apply finished_forallb.
  apply forallb_forall. intros s Hs. apply list_elem_of_In in Hs.
  apply list_elem_of_lookup in Hs as (i & Hi).
  destruct s as [|options|options|c|]; try reflexivity; exfalso.
  - apply Hns. apply list_elem_of_lookup. eauto.
  - assert (Hin : i ∈ queue (resourceManager (world b)) ++ resolved (world b))
      by (apply (cons_waiters _ _ _ Hc); eauto).
    rewrite Hres, app_nil_r in Hin.
    assert (Hq : queue (resourceManager (world b)) <> [])
      by (intros Hq; rewrite Hq in Hin; by apply elem_of_nil in Hin).
    pose proof (cons_full _ _ _ Hc Hq) as Hfull.
    pose proof (cons_running _ _ _ Hc) as Hrun.
    unfold in_flight in Hrun. rewrite Hres in Hrun. cbn in Hrun.
    assert (Hnone : filter (fun s => is_Holding s = true) (status b) = []).
    { clear -Hhold. induction (status b) as [|s st IH]; [reflexivity|].
      cbn in Hhold. apply andb_true_iff in Hhold as [Hs Hst].
      rewrite filter_cons. case_decide as Hh; [|auto].
      rewrite Hh in Hs. discriminate. }
    rewrite Hnone in Hrun. cbn in Hrun. lia.
  - rewrite forallb_forall in Hhold.
    assert (Hin : In (Holding options) (status b))
      by (apply list_elem_of_In, list_elem_of_lookup; eauto).
    apply Hhold in Hin. discriminate.
  - rewrite forallb_forall in Hdone.
    assert (Hin : In (Done c) (status b))
      by (apply list_elem_of_In, list_elem_of_lookup; eauto).
    apply Hdone in Hin. discriminate.
Qed.

(** With at least one slot, a batch always comes to its end: from every state
    it can reach, it reaches a state where every callback is over. *)
Lemma batch_finishes websites testOptions envs maxRetries cap w b :
  1 <= cap ->
  rtc (step websites testOptions envs maxRetries) (initial websites cap w) b ->
  exists b',
    rtc (step websites testOptions envs maxRetries) b b' /\ finished b'.
Proof.
  intros Hcap Hrun.
  remember (4 * length websites - progress b)%nat as k eqn:Hk.
  revert b Hrun Hk. induction k as [k IH] using lt_wf_ind. intros b Hrun Hk.
  destruct (forallb is_Pushed (status b)) eqn:Hfin.
  - exists b. split; [apply rtc_refl|]. now apply finished_forallb.
  - destruct (reachable_invariant _ _ _ _ _ _ _ Hrun) as [Hc _].
    destruct (can_step websites testOptions envs maxRetries cap b Hcap Hc)
      as (b1 & Hstep).
    { intros Hf. apply finished_forallb in Hf. congruence. }
    assert (Hrun1 : rtc (step websites testOptions envs maxRetries)
                      (initial websites cap w) b1)
      by (eapply rtc_r; eauto).
    destruct (reachable_invariant _ _ _ _ _ _ _ Hrun1) as [Hc1 _].
    pose proof (step_progress _ _ _ _ _ _ Hstep) as Hlt.
    pose proof (progress_bound b1) as Hb1.
    rewrite (cons_length _ _ _ Hc1) in Hb1.
    destruct (IH (4 * length websites - progress b1)%nat ltac:(lia) b1 Hrun1
                eq_refl) as (b' & Hrest & Hf).
    exists b'. split; [|exact Hf]. eapply rtc_l; eauto.
Qed.

(** C2.  In every state a batch with cap [cap] can reach, at most [cap] jobs
    are between a completed [acquire] and the matching [release].  [acquire]
    grants a slot at once exactly when the running count is below the cap,
    and counts it; otherwise it queues the caller and counts nothing.
    [release] with a waiter in the queue takes the first waiter out and
    resolves it, and leaves the running count as it is. *)
Theorem in_flight_bounded websites testOptions envs maxRetries cap w b :
  0 <= cap ->
  rtc (step websites testOptions envs maxRetries) (initial websites cap w) b ->
  Z.of_nat (in_flight b) <= cap
  /\ (forall me rm,
        (acquire me rm).2 = true <-> running rm < maxConcurrent rm)
  /\ (forall me rm,
        running rm < maxConcurrent rm ->
        acquire me rm
        = (mkResourceManager (maxConcurrent rm) (running rm + 1) (queue rm),
           true))
  /\ (forall me rm,
        maxConcurrent rm <= running rm ->
        acquire me rm
        = (mkResourceManager (maxConcurrent rm) (running rm)
             (queue rm ++ [me]), false))
  /\ (forall rm next rest,
        queue rm = next :: rest ->
        release rm
        = (mkResourceManager (maxConcurrent rm) (running rm) rest, Some next)).
Proof.
  intros Hcap Hrun.
  destruct (reachable_invariant _ _ _ _ _ _ _ Hrun) as [Hc _].
  split.
  { rewrite (cons_running _ _ _ Hc). pose proof (cons_bound _ _ _ Hc). lia. }
  split.
  { intros me rm. unfold acquire.
    destruct (running rm <? maxConcurrent rm) eqn:E; cbn.
    - apply Z.ltb_lt in E. tauto.
    - apply Z.ltb_ge in E. split; [discriminate|lia]. }
  split.
  { intros me rm Hlt. unfold acquire.
    now rewrite (proj2 (Z.ltb_lt _ _) Hlt). }
  split.
  { intros me rm Hge. unfold acquire.
    now rewrite (proj2 (Z.ltb_ge _ _) Hge). }
  intros rm next rest Hq. unfold release. now rewrite Hq.
Qed.

Lemma step_appends websites testOptions envs maxRetries b b' :
  step websites testOptions envs maxRetries b b' ->
  batchResults b `prefix_of` batchResults b'.
Proof.
  intros Hstep.
  destruct Hstep as [i website t w options c w' b _ _ _ _ _
                    |i options b _ _ _
                    |i website options c w' b _ _ _ _
                    |i website c b _ _ _]; cbn [batchResults];
    try reflexivity.
  now apply prefix_app_r.
Qed.

Lemma run_appends websites testOptions envs maxRetries b b' :
  rtc (step websites testOptions envs maxRetries) b b' ->
  batchResults b `prefix_of` batchResults b'.
Proof.
  induction 1 as [b|b b1 b2 Hstep _ IH]; [reflexivity|].
  etrans; [exact (step_appends _ _ _ _ _ _ Hstep)|exact IH].
Qed.

Lemma take_turn_push_order websites testOptions envs maxRetries turn b b' :
  take_turn websites testOptions envs maxRetries turn b = Some b' ->
  map entry_url (batchResults b')
  = map entry_url (batchResults b) ++ push_order websites [turn].
Proof.
  unfold push_order. cbn [omap list_omap].
  destruct turn as [i t|i|i|i]; cbn [take_turn].
  - destruct (status b !! i) as [[| | | |]|]; try discriminate.
    destruct (websites !! i) as [website|]; try discriminate.
    destruct (all_started (take i (status b))); try discriminate.
    destruct (job_options testOptions (with_clock t (world b)))
      as [[options|e] w]; try discriminate.
    destruct (testWebsite_start i website options w) as [c w'].
    intros [= <-]. cbn. now rewrite app_nil_r.
  - destruct (status b !! i) as [[| | | |]|]; try discriminate.
    destruct (all_started (status b) && bool_decide (i ∈ resolved (world b)));
      try discriminate.
    intros [= <-]. cbn. now rewrite app_nil_r.
  - destruct (status b !! i) as [[| | | |]|]; try discriminate.
    destruct (websites !! i) as [website|]; try discriminate.
    destruct (all_started (status b)); try discriminate.
    destruct (testWebsite_resume (envs i) website options maxRetries (world b))
      as [c w'].
    intros [= <-]. cbn. now rewrite app_nil_r.
  - destruct (status b !! i) as [[| | |c|]|]; try discriminate.
    destruct (websites !! i) as [website|]; try discriminate.
    destruct (all_started (status b)); try discriminate.
    intros [= <-]. cbn [batchResults]. rewrite map_app. cbn.
    now rewrite entry_url_entry_of.
Qed.

Lemma run_schedule_push_order websites testOptions envs maxRetries turns :
  forall b b',
    run_schedule websites testOptions envs maxRetries turns b = Some b' ->
    map entry_url (batchResults b')
    = map entry_url (batchResults b) ++ push_order websites turns.
Proof.
  induction turns as [|turn turns IH]; intros b b'; cbn [run_schedule].
  - intros [= <-]. now rewrite app_nil_r.
  - destruct (take_turn _ _ _ _ turn b) as [b1|] eqn:Hturn; [|discriminate].
    intros Hrest. rewrite (IH _ _ Hrest), (take_turn_push_order _ _ _ _ _ _ _ Hturn).
    rewrite <- app_assoc. f_equal.
    unfold push_order. cbn [omap list_omap].
    now destruct (match turn with TPush i => websites !! i | _ => None end).
Qed.

(** C1, as the code has it.  When every callback of a batch is over,
    [batchResults] has exactly one entry per input website: the urls of the
    entries are the input websites, in some order.  The order is the order of
    the pushes.  At any moment [b0] of the run [batchResults] holds the
    entries of the jobs that have pushed by then and of no other, and what
    it holds then are the first entries of the final list, in the same
    order; and when the run follows a schedule of turns, the urls of the
    final list are the websites of the push turns, in the order of the
    turns. *)
Theorem batchResults_one_per_website websites testOptions envs maxRetries
    cap w b0 b :
  rtc (step websites testOptions envs maxRetries) (initial websites cap w) b0 ->
  rtc (step websites testOptions envs maxRetries) b0 b ->
  finished b ->
  length (batchResults b) = length websites
  /\ map entry_url (batchResults b) ≡ₚ websites
  /\ batchResults b0 `prefix_of` batchResults b
  /\ map entry_url (batchResults b0) ≡ₚ pushed (status b0) websites
  /\ (forall turns,
        run_schedule websites testOptions envs maxRetries turns
          (initial websites cap w) = Some b ->
        map entry_url (batchResults b) = push_order websites turns).
Proof.
  intros Hrun0 Hrun Hfin.
  assert (Hall : rtc (step websites testOptions envs maxRetries)
                   (initial websites cap w) b) by (etrans; eassumption).
  destruct (reachable_invariant _ _ _ _ _ _ _ Hall) as [Hc Hp].
  rewrite (pushed_finished _ _ (cons_length _ _ _ Hc) Hfin) in Hp.
  split; [rewrite <- (length_map entry_url); now rewrite Hp|].
  split; [exact Hp|].
  split; [exact (run_appends _ _ _ _ _ _ Hrun)|].
  split; [exact (proj2 (reachable_invariant _ _ _ _ _ _ _ Hrun0))|].
  intros turns Hturns.
  now rewrite (run_schedule_push_order _ _ _ _ _ _ _ Hturns).
Qed.

End BatchFacts.

Lemma reordered_batch_reachable :
  rtc (step two_sites (Some (VRef 0)) two_envs 2)
    (initial two_sites 3 example_world) reordered_batch.
Proof.
  apply (run_schedule_sound _ _ _ _ second_site_first). vm_compute. reflexivity.
Qed.

Lemma reordered_batch_finished : finished reordered_batch.
Proof. vm_compute. repeat constructor. Qed.

(** C1 as the claim states it fails: with two websites and three slots, the
    second site can be done first, and its entry comes first. *)
Lemma batchResults_input_order_counterexample :
  ~ (forall b,
        rtc (step two_sites (Some (VRef 0)) two_envs 2)
          (initial two_sites 3 example_world) b ->
        finished b ->
        map entry_url (batchResults b) = two_sites).
Proof.
  intros Hall.
  specialize (Hall reordered_batch reordered_batch_reachable
                reordered_batch_finished).
  vm_compute in Hall. discriminate.
Qed.

(** C1 on the two sites: two entries, one for each site; the entry of the
    second site, pushed first, stands first. *)
Lemma batchResults_one_per_website_witness :
  length (batchResults reordered_batch) = length two_sites
  /\ map entry_url (batchResults reordered_batch) ≡ₚ two_sites
  /\ batchResults second_pushed_batch `prefix_of` batchResults reordered_batch
  /\ map entry_url (batchResults second_pushed_batch)
     ≡ₚ pushed (status second_pushed_batch) two_sites
  /\ (forall turns,
        run_schedule two_sites (Some (VRef 0)) two_envs 2 turns
          (initial two_sites 3 example_world) = Some reordered_batch ->
        map entry_url (batchResults reordered_batch)
        = push_order two_sites turns).
Proof.
  apply (batchResults_one_per_website two_sites (Some (VRef 0)) two_envs 2
           3 example_world second_pushed_batch reordered_batch).
  - apply (run_schedule_sound _ _ _ _ (take 4 second_site_first)).
    vm_compute. reflexivity.
  - apply (run_schedule_sound _ _ _ _ (drop 4 second_site_first)).
    vm_compute. reflexivity.
  - vm_compute. repeat constructor.
Defined.

(** C2 on the two sites with one slot: once both callbacks have started, one
    job holds the slot and the other waits in the queue. *)
Lemma in_flight_bounded_witness :
  Z.of_nat (in_flight one_slot_batch) <= 1
  /\ (forall me rm,
        (acquire me rm).2 = true <-> running rm < maxConcurrent rm)
  /\ (forall me rm,
        running rm < maxConcurrent rm ->
        acquire me rm
        = (mkResourceManager (maxConcurrent rm) (running rm + 1) (queue rm),
           true))
  /\ (forall me rm,
        maxConcurrent rm <= running rm ->
        acquire me rm
        = (mkResourceManager (maxConcurrent rm) (running rm)
             (queue rm ++ [me]), false))
  /\ (forall rm next rest,
        queue rm = next :: rest ->
        release rm
        = (mkResourceManager (maxConcurrent rm) (running rm) rest, Some next)).
Proof.
  apply (in_flight_bounded two_sites (Some (VRef 0)) two_envs 2 1
           example_world one_slot_batch).
  - lia.
  - apply (run_schedule_sound _ _ _ _ [TStart 0 1000; TStart 1 1000]).
    vm_compute. reflexivity.
Defined.

(** ** The summary *)

Lemma with_category_filter category results :
  with_category category results
  = filter (fun r => is_Some (score category r)) results.
Proof.
  unfold with_category, successfulResults.
  induction results as [|r results IH]; [reflexivity|].
  rewrite !filter_cons.
  destruct r as [url error|url s reportPath screenshotPath].
  - repeat case_decide;
      try match goal with H : is_Some _ |- _ => destruct H; discriminate end.
    exact IH.
  - case_decide as Hs; [|exfalso; apply Hs; eauto].
    rewrite filter_cons, IH. reflexivity.
Qed.

Lemma category_scores_with_category category results :
  category_scores category results
  = map (fun r => default 0%Qc (score category r))
      (with_category category results).
Proof.
  rewrite with_category_filter. unfold category_scores.
  induction results as [|r results IH]; [reflexivity|].
  rewrite filter_cons. cbn [omap list_omap] in IH |- *.
  destruct (score category r) as [x|] eqn:E.
  - case_decide as Hs; [|exfalso; apply Hs; eauto].
    cbn [map]. rewrite E. cbn [default]. now rewrite IH.
  - case_decide as Hs; [destruct Hs; discriminate|]. exact IH.
Qed.

Lemma average_sum category results :
  category_scores category results <> [] ->
  average category results
  = number_div (foldl number_add 0%Qc (category_scores category results))
      (Qc_of_Z (Z.of_nat (length (category_scores category results)))).
Proof.
  intros Hne. unfold average.
  rewrite category_scores_with_category, foldl_fmap, length_map.
  rewrite category_scores_with_category in Hne.
  destruct (with_category category results); [contradiction|reflexivity].
Qed.

Lemma exact_sum_foldl xs :
  forall acc,
    exact_sum acc xs ->
    foldl number_add acc xs = (acc + foldr Qcplus 0 xs)%Qc.
Proof.
  induction xs as [|x xs IH]; intros acc Hexact; cbn.
  - now rewrite Qcplus_0_r.
  - destruct Hexact as [Hx Hrest]. unfold number_add at 2.
    rewrite Hx, (IH _ Hrest). now rewrite Qcplus_assoc.
Qed.

Lemma elem_of_categories category results :
  category ∈ categories results <-> category_scores category results <> [].
Proof.
  unfold categories. rewrite elem_of_union_list. split.
  - intros (X & HX & Hc). apply list_elem_of_fmap in HX as (r & -> & Hr).
    apply list_elem_of_filter in Hr as [_ Hr].
    destruct r as [url error|url s reportPath screenshotPath]; cbn in Hc;
      [by apply not_elem_of_empty in Hc|].
    apply elem_of_dom in Hc as [x Hx].
    intros Hnil. unfold category_scores in Hnil.
    assert (Hin : x ∈ omap (score category) results).
    { apply list_elem_of_omap. eexists. split; [exact Hr|exact Hx]. }
    rewrite Hnil in Hin. by apply elem_of_nil in Hin.
  - intros Hne. destruct (category_scores category results) as [|x xs] eqn:E;
      [congruence|].
    assert (Hin : x ∈ category_scores category results)
      by (rewrite E; apply list_elem_of_here).
    apply list_elem_of_omap in Hin as (r & Hr & Hx).
    destruct r as [url error|url s reportPath screenshotPath]; [discriminate|].
    exists (dom s). split.
    + apply list_elem_of_fmap.
      exists (EScores url s reportPath screenshotPath).
      split; [reflexivity|].
      apply list_elem_of_filter. split; [cbn; eauto|exact Hr].
    + apply elem_of_dom. eauto.
Qed.

Lemma successfulResults_failure results1 results2 url error :
  successfulResults (results1 ++ EError url error :: results2)
  = successfulResults (results1 ++ results2).
Proof.
  unfold successfulResults. rewrite !filter_app, filter_cons.
  case_decide as Hs; [destruct Hs; discriminate|reflexivity].
Qed.




(** ** The configuration *)

(** C10.  When the file of the configuration cannot be read, or its text is
    not JSON, [loadConfig] returns [{ websites: [] }], and the batch returns
    before it dispatches a job. *)
Theorem loadConfig_total `{ConfigSource} configPath :
  (exists message, readTextSync configPath = Throw message)
  \/ (exists configData,
        readTextSync configPath = Return configData
        /\ JSON_parse configData = None) ->
  loadConfig configPath = no_websites
  /\ optimizedBatchTest_guard configPath = Return None.
Proof.
  intros Hbad.
  assert (Hload : loadConfig configPath = no_websites).
  { unfold loadConfig.
    destruct Hbad as [[message ->]|(configData & -> & ->)]; reflexivity. }
  split; [exact Hload|]. unfold optimizedBatchTest_guard. now rewrite Hload.
Qed.

(** C10 on the example directory: a file that is not there, and a file whose
    text is cut off. *)
Lemma loadConfig_total_witness :
  (loadConfig "./missing.json" = no_websites
   /\ optimizedBatchTest_guard "./missing.json" = Return None)
  /\ (loadConfig "./websites.json" = no_websites
      /\ optimizedBatchTest_guard "./websites.json" = Return None).
Proof.
  split.
  - apply (loadConfig_total "./missing.json"). left. eexists. reflexivity.
  - apply (loadConfig_total "./websites.json"). right. eexists.
    split; reflexivity.
Defined.

(** * Further properties *)

(** ** The resource manager *)

Lemma acquire_all_full js :
  forall rm,
    maxConcurrent rm <= running rm ->
    acquire_all js rm
    = (mkResourceManager (maxConcurrent rm) (running rm) (queue rm ++ js),
       replicate (length js) false).
Proof.
  induction js as [|me js IH]; intros rm Hfull; cbn.
  - rewrite app_nil_r. now destruct rm.
  - unfold acquire. destruct (Z.ltb_spec (running rm) (maxConcurrent rm)); [lia|].
    rewrite IH by (cbn; lia). cbn. now rewrite <- app_assoc.
Qed.

Lemma release_n_queue q :
  forall c r,
    release_n (length q) (mkResourceManager c r q)
    = (mkResourceManager c r [], map Some q).
Proof.
  induction q as [|j q IH]; intros c r; cbn; [reflexivity|].
  unfold release. cbn. now rewrite IH.
Qed.

(** X1: when every slot is taken, the jobs that call [acquire] all wait, and
    the calls of [release] that follow wake the waiters in the order in which
    they called, earlier waiters first; each hands its slot over, so the
    number of running jobs stays what it was. *)
Theorem release_wakes_in_arrival_order js rm :
  maxConcurrent rm <= running rm ->
  (acquire_all js rm).2 = replicate (length js) false
  /\ release_n (length (queue rm ++ js)) (acquire_all js rm).1
     = (mkResourceManager (maxConcurrent rm) (running rm) [],
        map Some (queue rm ++ js)).
Proof.
  intros Hfull. rewrite (acquire_all_full js rm Hfull). cbn.
  split; [reflexivity|]. apply release_n_queue.
Qed.

Lemma release_wakes_in_arrival_order_witness :
  (acquire_all [7; 3; 5]%nat (mkResourceManager 2 2 [4%nat])).2
    = [false; false; false]
  /\ release_n 4 (acquire_all [7; 3; 5]%nat (mkResourceManager 2 2 [4%nat])).1
     = (mkResourceManager 2 2 [], [Some 4; Some 7; Some 3; Some 5]%nat).
Proof.
  apply (release_wakes_in_arrival_order [7; 3; 5]%nat
           (mkResourceManager 2 2 [4%nat])).
  cbn. lia.
Defined.

(** ** The result cache *)

Section CacheMore.
Context `{Platform}.

(** [has] answers yes only for an entry that has not expired, and then
    changes nothing. *)
Lemma has_true url options w w' :
  has url options w = (Return true, w') ->
  w' = w
  /\ exists data timestamp,
       key_data (heap w) url options = Some data
       /\ cache (resultCache w) !! key_of data = Some timestamp
       /\ clock w - timestamp < cacheDuration (resultCache w).
Proof.
  unfold has, generateKey, bind.
  destruct (key_data (heap w) url options) as [data|] eqn:Ek; [|discriminate].
  mrun.
  destruct (cache (resultCache w) !! key_of data) as [timestamp|] eqn:Ec;
    cbn; [|discriminate].
  destruct (bool_decide (clock w - timestamp < cacheDuration (resultCache w)))
    eqn:Efresh; cbn.
  - apply bool_decide_eq_true in Efresh. intros [= <-]. eauto 10.
  - destruct (existsSync _ _); cbn; [|discriminate].
    destruct (unlinkSync _ _); discriminate.
Qed.

(** X2: a result that [get] returns comes from an entry of the map that has
    not expired and from the file of its key, and the call changes
    nothing. *)
Theorem get_returns_fresh_entry url options w r w' :
  get url options w = (Return (Some r), w') ->
  w' = w
  /\ exists data timestamp written,
       key_data (heap w) url options = Some data
       /\ cache (resultCache w) !! key_of data = Some timestamp
       /\ clock w - timestamp < cacheDuration (resultCache w)
       /\ files (disk w) !! cacheFile (key_of data)
          = Some (FCache written r).
Proof.
  unfold get. unfold bind at 1. unfold generateKey at 1.
  destruct (key_data (heap w) url options) as [data|] eqn:Ek; [|discriminate].
  unfold bind at 1.
  destruct (has url options w) as [[[|]|e] w1] eqn:Eh; cbn; try discriminate.
  destruct (has_true _ _ _ _ Eh) as (-> & data' & timestamp & Ek' & Ec & Ht).
  assert (data' = data) as -> by congruence.
  mrun. unfold existsSync, readFileSync.
  destruct (files (disk w) !! cacheFile (key_of data)) as [c|] eqn:Ef; cbn.
  - rewrite Ef.
    destruct (bool_decide _); cbn; [discriminate|].
    destruct c as [written result|]; cbn; [|discriminate].
    intros [= -> <-]. split; [reflexivity|]. eauto 10.
  - discriminate.
Qed.

(** What [has] and [get] answer depends on the world through the tree of the
    options, the clock, the duration, the entry of the key and the file of
    the key only. *)
Lemma has_get_local url options w1 w2 data :
  key_data (heap w1) url options = Some data ->
  key_data (heap w2) url options = Some data ->
  clock w1 = clock w2 ->
  cacheDuration (resultCache w1) = cacheDuration (resultCache w2) ->
  cache (resultCache w1) !! key_of data = cache (resultCache w2) !! key_of data ->
  files (disk w1) !! cacheFile (key_of data)
  = files (disk w2) !! cacheFile (key_of data) ->
  read_denied (disk w1) = read_denied (disk w2) ->
  unlink_denied (disk w1) = unlink_denied (disk w2) ->
  (has url options w1).1 = (has url options w2).1
  /\ (get url options w1).1 = (get url options w2).1.
Proof.
  intros E1 E2 Hclock Hdur Hc Hf Hr Hu.
  unfold get, has, bind.
  rewrite !(generateKey_run _ _ _ _ E1), !(generateKey_run _ _ _ _ E2).
  mrun. rewrite Hc.
  destruct (cache (resultCache w2) !! key_of data) as [timestamp|]; cbn;
    [|split; reflexivity].
  rewrite Hclock, Hdur.
  destruct (bool_decide _); cbn.
  - split; [reflexivity|].
    unfold existsSync, readFileSync. rewrite Hf.
    destruct (files (disk w2) !! cacheFile (key_of data)) as [c|] eqn:Ef; cbn;
      [|reflexivity].
    rewrite ?Hf, ?Ef, ?Hr.
    destruct (bool_decide _); cbn; [reflexivity|].
    destruct c; reflexivity.
  - unfold existsSync, unlinkSync. cbn. rewrite Hf.
    destruct (files (disk w2) !! cacheFile (key_of data)) as [c|] eqn:Ef; cbn;
      [|split; reflexivity].
    rewrite ?Hf, ?Ef, ?Hu.
    destruct (bool_decide _); cbn; split; reflexivity.
Qed.

Lemma length_append_string s1 s2 :
  String.length (s1 +:+ s2) = (String.length s1 + String.length s2)%nat.
Proof.
  induction s1 as [|a s1 IH]; [reflexivity|].
  change (S (String.length (s1 +:+ s2))
          = S (String.length s1 + String.length s2)).
  now rewrite IH.
Qed.

Lemma append_cancel_r s : forall k k', k +:+ s = k' +:+ s -> k = k'.
Proof.
  induction k as [|a k IH]; intros [|a' k'] E.
  - reflexivity.
  - apply (f_equal String.length) in E.
    rewrite !length_append_string in E. cbn in E. lia.
  - apply (f_equal String.length) in E.
    rewrite !length_append_string in E. cbn in E. lia.
  - change (String a (k +:+ s) = String a' (k' +:+ s)) in E.
    injection E as -> E. f_equal. now apply IH.
Qed.

Lemma cacheFile_inj key key' : cacheFile key = cacheFile key' -> key = key'.
Proof.
  unfold cacheFile. intros E. apply String.app_inj in E.
  exact (append_cancel_r _ _ _ E).
Qed.

(** X3: caching the results of one test leaves the answers of the cache for
    every test with another key as they were. *)
Theorem set_keeps_other_keys url options r url' options' w data data' :
  key_data (heap w) url options = Some data ->
  key_data (heap w) url' options' = Some data' ->
  key_of data <> key_of data' ->
  (has url' options' (set url options r w).2).1 = (has url' options' w).1
  /\ (get url' options' (set url options r w).2).1 = (get url' options' w).1.
Proof.
  intros E E' Hne. unfold set, bind. rewrite (generateKey_run _ _ _ _ E).
  mrun. unfold writeFileSync.
  destruct (bool_decide (cacheFile (key_of data) ∈ write_denied (disk w)));
    cbn; apply (has_get_local _ _ _ _ data'); cbn; auto.
  - now rewrite lookup_insert_ne.
  - now rewrite lookup_insert_ne.
  - rewrite lookup_insert_ne; [reflexivity|].
    intros Ef. apply cacheFile_inj in Ef. contradiction.
Qed.

End CacheMore.

Lemma get_returns_fresh_entry_witness :
  cached_world = cached_world
  /\ exists data timestamp written,
       key_data (heap cached_world) "https://a.example" (VRef 0) = Some data
       /\ cache (resultCache cached_world) !! key_of data = Some timestamp
       /\ clock cached_world - timestamp
          < cacheDuration (resultCache cached_world)
       /\ files (disk cached_world) !! cacheFile (key_of data)
          = Some (FCache written (example_results 80)).
Proof.
  apply (get_returns_fresh_entry "https://a.example" (VRef 0) cached_world
           (example_results 80) cached_world).
  reflexivity.
Defined.

Lemma set_keeps_other_keys_witness :
  (has "https://a.example" (VRef 0)
     (set "https://b.example" (VRef 0) (example_results 100) cached_world).2).1
  = (has "https://a.example" (VRef 0) cached_world).1
  /\ (get "https://a.example" (VRef 0)
        (set "https://b.example" (VRef 0) (example_results 100)
           cached_world).2).1
     = (get "https://a.example" (VRef 0) cached_world).1.
Proof.
  apply (set_keeps_other_keys "https://b.example" (VRef 0)
           (example_results 100) "https://a.example" (VRef 0) cached_world
           (JObj [("url", JStr "https://b.example");
                  ("options", JObj [("outputFormat", JStr "html")])])
           (JObj [("url", JStr "https://a.example");
                  ("options", JObj [("outputFormat", JStr "html")])])).
  - reflexivity.
  - reflexivity.
  - discriminate.
Defined.

(** ** One job and the cache *)

Section JobMore.
Context `{Platform}.

(** What [set] does to the world. *)
Lemma set_store url options r w c w' :
  set url options r w = (c, w') ->
  match c with
  | Throw _ => w' = w
  | Return _ =>
      exists data,
        key_data (heap w) url options = Some data
        /\ heap w' = heap w /\ clock w' = clock w
        /\ cache (resultCache w') = <[key_of data := clock w]> (cache (resultCache w))
        /\ cacheDuration (resultCache w') = cacheDuration (resultCache w)
        /\ read_denied (disk w') = read_denied (disk w)
        /\ write_denied (disk w') = write_denied (disk w)
        /\ (cacheFile (key_of data) ∉ write_denied (disk w) ->
            files (disk w') !! cacheFile (key_of data)
            = Some (FCache (clock w) r))
  end.
Proof.
  unfold set, bind, generateKey.
  destruct (key_data (heap w) url options) as [data|] eqn:E.
  - mrun. unfold writeFileSync.
    destruct (bool_decide _) eqn:Ew; cbn; intros [= <- <-]; exists data; cbn;
      repeat split; auto.
    + apply bool_decide_eq_true in Ew. contradiction.
    + intros _. apply lookup_insert_eq.
  - now intros [= <- <-].
Qed.

(** An attempt that fails leaves the cache and the disk alone; one that
    returns has cached its results. *)
Lemma attempt_store env website options enhancedOptions retries w c w' :
  attempt env website options enhancedOptions retries w = (c, w') ->
  match c with
  | Throw _ => resultCache w' = resultCache w /\ disk w' = disk w
  | Return r => cached_in website options r w w'
  end.
Proof.
  unfold attempt.
  destruct (0 <? retries)%nat; destruct (2 <=? retries)%nat;
    unfold read, assign, warmup, sleep, runFullTest; mrun;
    destruct (env retries) as [[r| |message] t]; cbn;
    try (intros [= <- <-]; cbn; auto).
  all: match goal with
    | |- context [set ?u ?o ?r ?w0] =>
        pose proof (set_store u o r w0) as Hset;
        destruct (set u o r w0) as [[[]|e] w1]; specialize (Hset _ _ eq_refl);
        cbn in Hset
    end.
  all: try (subst w1; intros [= <- <-]; cbn; auto).
  all: destruct Hset as (data & Ek & Hh & Hcl & Hc & Hd & Hrd & Hwd & Hf).
  all: unfold rm_release; cbn.
  all: destruct (release (resourceManager w1)) as [rm next]; cbn.
  all: intros [= <- <-]; exists data; cbn.
  all: rewrite Hh, Hcl, Hc, Hd, Hrd.
  all: repeat split; auto; try apply lookup_insert_eq.
  all: intros Hno; apply Hf; rewrite Hno; apply not_elem_of_empty.
Qed.

Lemma cached_in_store website options r w0 w w' :
  resultCache w = resultCache w0 -> disk w = disk w0 ->
  cached_in website options r w w' -> cached_in website options r w0 w'.
Proof.
  intros Hc Hd (data & ? & ? & ? & ? & ?). exists data.
  rewrite <- Hc, <- Hd. auto.
Qed.

Lemma fail_job_store website lastError w c w' :
  fail_job website lastError w = (c, w') ->
  (exists message, c = Return (TError website message))
  /\ resultCache w' = resultCache w /\ disk w' = disk w.
Proof.
  unfold fail_job, rm_release. mrun.
  destruct (release (resourceManager w)) as [rm next]. cbn.
  intros [= <- <-]. cbn. eauto.
Qed.

(** The loop caches what it returns, and nothing when the job fails. *)
Lemma retry_loop_store env website options enhancedOptions maxRetries fuel :
  forall retries lastError w c w',
    retry_loop fuel env website options enhancedOptions maxRetries retries
      lastError w = (c, w') ->
    match c with
    | Return (TResults r) => cached_in website options r w w'
    | Return (TError _ _) => resultCache w' = resultCache w /\ disk w' = disk w
    | _ => True
    end.
Proof.
  induction fuel as [|fuel IH]; intros retries lastError w c w';
    cbn [retry_loop].
  - intros Hf. apply fail_job_store in Hf as ((message & ->) & ? & ?). auto.
  - destruct (retries <=? maxRetries)%nat.
    2:{ intros Hf. apply fail_job_store in Hf as ((message & ->) & ? & ?).
        auto. }
    unfold try_catch. unfold bind at 1.
    destruct (attempt env website options enhancedOptions retries w)
      as [[r|message] w1] eqn:Ea; apply attempt_store in Ea.
    + cbn. intros [= <- <-]. exact Ea.
    + destruct Ea as [Hc1 Hd1].
      destruct (retries <? maxRetries)%nat; [|rewrite andb_false_r].
      * unfold read, assign, sleep; mrun.
        destruct (includes _ _); cbn; intros Hloop; apply IH in Hloop;
          (destruct c as [[|r|url error]|]; [exact I| |cbn in Hloop|exact I]).
        all: try (eapply cached_in_store; [| |exact Hloop]; cbn; auto).
        all: cbn in Hloop; destruct Hloop; split; congruence.
      * mrun. intros Hf.
        apply fail_job_store in Hf as ((message' & ->) & ? & ?).
        split; congruence.
Qed.

(** The same for a job from the moment it holds a slot. *)
Lemma testWebsite_resume_store env website options maxRetries w c w' :
  testWebsite_resume env website options maxRetries w = (c, w') ->
  match c with
  | Return (TResults r) => cached_in website options r w w'
  | Return (TError _ _) => resultCache w' = resultCache w /\ disk w' = disk w
  | _ => True
  end.
Proof.
  unfold testWebsite_resume, alloc, read, assign, bind, gets, modify.
  cbn -[retry_loop].
  intros Hloop. apply retry_loop_store in Hloop.
  destruct c as [[|r|url error]|]; auto.
Qed.

(** The cache check keeps the duration of the cache, the clock and what the
    disk refuses; when it misses, the map has no entry for the key. *)
Lemma has_store url options w c w' :
  has url options w = (c, w') ->
  same_settings w w'
  /\ (c = Return false ->
      exists data,
        key_data (heap w) url options = Some data
        /\ cache (resultCache w') !! key_of data = None).
Proof.
  unfold same_settings, has, generateKey, existsSync, unlinkSync. mrun.
  destruct (key_data (heap w) url options) as [data|];
    [|cbn; intros [= <- <-]; split; [auto 10|discriminate]].
  destruct (cache (resultCache w) !! _) as [timestamp|] eqn:Ec;
    [|cbn; intros [= <- <-]; split; [auto 10|eauto]].
  cbn. destruct (bool_decide (clock w - _ < _));
    [cbn; intros [= <- <-]; split; [auto 10|discriminate]|].
  cbn. destruct (bool_decide (is_Some _)).
  2:{ cbn. intros [= <- <-]. split; [auto 10|]. intros _. exists data.
      split; [reflexivity|]. cbn. apply lookup_delete_eq. }
  cbn. destruct (files (disk w) !! _);
    [|cbn; intros [= <- <-]; split; [auto 10|discriminate]].
  cbn. destruct (bool_decide (_ ∈ _)); cbn; intros [= <- <-];
    (split; [auto 10|]); [discriminate|].
  intros _. exists data. split; [reflexivity|]. cbn. apply lookup_delete_eq.
Qed.

Lemma get_store url options w c w' :
  get url options w = (c, w') -> same_settings w w'.
Proof.
  unfold get. unfold bind at 1. unfold generateKey.
  destruct (key_data (heap w) url options);
    [|cbn; intros [= <- <-]; repeat split].
  unfold bind at 1.
  destruct (has url options w) as [[hit|e] w1] eqn:Hhas;
    apply has_store in Hhas as [Hs _];
    [|cbn; intros [= <- <-]; exact Hs].
  assert (Hdone : forall c0, (c0, w1) = (c, w') -> same_settings w w')
    by (intros c0 [= <- <-]; exact Hs).
  destruct hit; cbn; [|apply Hdone].
  unfold existsSync, readFileSync. mrun.
  destruct (bool_decide (is_Some _)); [|apply Hdone].
  cbn. destruct (files (disk w1) !! _) as [content|]; [|apply Hdone].
  cbn. destruct (bool_decide (_ ∈ _)); [apply Hdone|].
  destruct content; apply Hdone.
Qed.

Lemma testWebsite_start_store me website options w c w' :
  testWebsite_start me website options w = (c, w') ->
  same_settings w w'
  /\ (forall granted,
        c = Return (Awaiting granted) ->
        exists data,
          key_data (heap w) website options = Some data
          /\ cache (resultCache w') !! key_of data = None).
Proof.
  unfold testWebsite_start. unfold bind at 1.
  destruct (has website options w) as [[hit|e] w1] eqn:Hhas;
    apply has_store in Hhas as [Hs Hmiss];
    [|cbn; intros [= <- <-]; split; [exact Hs|discriminate]].
  destruct hit.
  - unfold bind at 1.
    destruct (get website options w1) as [[r|e] w2] eqn:Hget;
      apply get_store in Hget; cbn; intros [= <- <-];
      (split; [|discriminate]);
      destruct Hs as (? & ? & ? & ? & ?), Hget as (? & ? & ? & ? & ?);
      repeat split; congruence.
  - unfold rm_acquire. mrun.
    destruct (acquire me (resourceManager w1)) as [rm granted]; cbn.
    intros [= <- <-]. split; [exact Hs|]. intros _ _.
    destruct (Hmiss eq_refl) as (data & ? & ?). eauto.
Qed.

(** X4: once a job has run a full test with success, a job for the same
    site and options is served from the cache for as long as the entry is
    fresh: it returns the same results, runs no test and takes no slot.  The
    disk refuses no read and no write. *)
Theorem testWebsite_repeat_uses_cache me env website options maxRetries w w0
    r w1 me' env' maxRetries' t :
  testWebsite_start me website options w = (Return (Awaiting true), w0) ->
  testWebsite me env website options maxRetries w
    = (Return (Some (TResults r)), w1) ->
  write_denied (disk w) = ∅ -> read_denied (disk w) = ∅ ->
  t - clock w1 < cacheDuration (resultCache w) ->
  testWebsite me' env' website options maxRetries' (with_clock t w1)
  = (Return (Some (TResults r)), with_clock t w1).
Proof.
  intros Hstart Hrun Hwd Hrd Ht.
  rewrite (testWebsite_granted _ _ _ _ _ _ _ Hstart) in Hrun.
  destruct (testWebsite_resume env website options maxRetries w0)
    as [[r'|e] w1'] eqn:Hres; [|discriminate].
  injection Hrun as -> ->.
  apply testWebsite_resume_store in Hres as (data & Ek & Hc & Hd & Hr & Hf).
  apply testWebsite_start_store in Hstart
    as [(Hd0 & _ & Hr0 & Hw0 & _) _].
  assert (Hfresh : clock (with_clock t w1) - clock w1
                   < cacheDuration (resultCache (with_clock t w1)))
    by (cbn; rewrite Hd, Hd0; exact Ht).
  assert (Hread : cacheFile (key_of data) ∉ read_denied (disk (with_clock t w1)))
    by (cbn; rewrite Hr, Hr0, Hrd; apply not_elem_of_empty).
  specialize (Hf ltac:(congruence)).
  unfold testWebsite, testWebsite_start. unfold bind at 1 2.
  rewrite (has_fresh website options (with_clock t w1) data (clock w1) Ek Hc
             Hfresh).
  unfold bind at 1.
  rewrite (get_hit website options (with_clock t w1) data (clock w1) r Ek Hc
             Hfresh Hf Hread).
  reflexivity.
Qed.

Lemma testWebsite_start_settled me website options w s w' :
  testWebsite_start me website options w = (Return (Settled s), w') ->
  s = TNull \/ exists r, s = TResults r.
Proof.
  unfold testWebsite_start. unfold bind at 1.
  destruct (has website options w) as [[[|]|e] w1]; [| |discriminate].
  - unfold bind at 1.
    destruct (get website options w1) as [[[r|]|e] w2]; cbn;
      intros [= <- <-]; eauto.
  - unfold rm_acquire. mrun.
    destruct (acquire me (resourceManager w1)). discriminate.
Qed.

(** X5: a job that fails leaves nothing in the cache: the next job for the
    same site and options, whenever it comes, misses the cache and asks for a
    slot. *)
Theorem failed_job_is_not_cached me env website options maxRetries w url
    message w' me' t :
  testWebsite me env website options maxRetries w
    = (Return (Some (TError url message)), w') ->
  exists granted w'',
    testWebsite_start me' website options (with_clock t w')
    = (Return (Awaiting granted), w'').
Proof.
  unfold testWebsite. unfold bind at 1.
  destruct (testWebsite_start me website options w) as [[[s|[|]]|e] w0]
    eqn:Hstart; cbn; try discriminate.
  { intros [= -> <-].
    destruct (testWebsite_start_settled _ _ _ _ _ _ Hstart) as [|[r ?]];
      discriminate. }
  unfold bind.
  destruct (testWebsite_resume env website options maxRetries w0)
    as [[r|e] w1] eqn:Hres; [|discriminate].
  cbn. intros [= -> <-].
  pose proof (testWebsite_start_frame _ _ _ _ _ _ Hstart) as [Hh0 _].
  apply testWebsite_start_store in Hstart as [_ Hmiss].
  destruct (Hmiss true eq_refl) as (data & Ek & Hnone).
  destruct (testWebsite_resume_spec env website options maxRetries w0)
    as (r' & w1' & new & wu & a & b & Hres' & Hjh & _).
  rewrite Hres in Hres'. injection Hres' as <- <-.
  apply job_heap_prefix in Hjh. rewrite Hh0 in Hjh.
  pose proof (key_data_prefix _ _ _ _ _ Ek Hjh) as Ek1.
  apply testWebsite_resume_store in Hres as [Hc1 _].
  unfold testWebsite_start. unfold bind at 1.
  rewrite (has_absent website options (with_clock t w1) data Ek1)
    by (cbn; rewrite Hc1; exact Hnone).
  unfold rm_acquire. mrun.
  destruct (acquire me' (resourceManager w1)) as [rm granted]. cbn. eauto.
Qed.

(** X6: a job gives back the slot it took, once, whether its test succeeds
    or fails, and a job served from the cache takes none: a call of
    [testWebsite] that does not end up waiting in the queue leaves the
    resource manager as it found it.  (A manager has waiters only while all
    its slots are taken.) *)
Theorem testWebsite_slot_balance me env website options maxRetries w c w' :
  (queue (resourceManager w) <> [] ->
   maxConcurrent (resourceManager w) <= running (resourceManager w)) ->
  testWebsite me env website options maxRetries w = (c, w') ->
  match c with
  | Return None =>
      resourceManager w'
      = mkResourceManager (maxConcurrent (resourceManager w))
          (running (resourceManager w)) (queue (resourceManager w) ++ [me])
      /\ resolved w' = resolved w
  | _ => resourceManager w' = resourceManager w /\ resolved w' = resolved w
  end.
Proof.
  intros Hfull. unfold testWebsite. unfold bind at 1.
  destruct (testWebsite_start me website options w) as [[[s|[|]]|e] w0]
    eqn:Hstart; apply testWebsite_start_rm in Hstart as [Hrs Hrm]; cbn.
  - intros [= <- <-]. auto.
  - unfold bind.
    destruct (testWebsite_resume_spec env website options maxRetries w0)
      as (r & w1 & new & wu & a & b & -> & _ & [Hrel1 Hrel2] & _).
    cbn. intros [= <- <-]. unfold acquire in Hrm.
    destruct (Z.ltb_spec (running (resourceManager w))
                (maxConcurrent (resourceManager w))) as [Hlt|Hge];
      [|discriminate].
    injection Hrm as Hrm. rewrite <- Hrm in Hrel1, Hrel2.
    unfold release in Hrel1, Hrel2. cbn in Hrel1, Hrel2.
    destruct (queue (resourceManager w)) as [|next rest] eqn:Eq.
    + cbn in Hrel1, Hrel2. rewrite app_nil_r in Hrel2.
      split; [|congruence]. rewrite Hrel1.
      destruct (resourceManager w) as [mc run q]. cbn in *. subst q.
      f_equal. lia.
    + specialize (Hfull ltac:(discriminate)). lia.
  - intros [= <- <-]. unfold acquire in Hrm.
    destruct (_ <? _); [discriminate|]. injection Hrm as Hrm.
    split; [now rewrite <- Hrm|exact Hrs].
  - intros [= <- <-]. auto.
Qed.

End JobMore.


Lemma testWebsite_repeat_uses_cache_witness :
  testWebsite 1 (first_try 100) "https://a.example" (VRef 0) 0
    (with_clock 30000 tested_world)
  = (Return (Some (TResults (example_results 80))),
     with_clock 30000 tested_world).
Proof.
  apply (testWebsite_repeat_uses_cache 0 example_env "https://a.example"
           (VRef 0) 3 example_world
           (with_resourceManager (mkResourceManager 3 1 []) example_world)
           (example_results 80) tested_world 1%nat (first_try 100) 0 30000).
  - reflexivity.
  - vm_compute. reflexivity.
  - reflexivity.
  - reflexivity.
  - vm_compute. reflexivity.
Defined.

Lemma failed_job_is_not_cached_witness :
  exists granted w'',
    testWebsite_start 1 "https://a.example" (VRef 0)
      (with_clock 9000 failed_world)
    = (Return (Awaiting granted), w'').
Proof.
  apply (failed_job_is_not_cached 0 failing_env "https://a.example" (VRef 0) 1
           example_world "https://a.example" "net::ERR_NAME_NOT_RESOLVED"
           failed_world 1%nat 9000).
  vm_compute. reflexivity.
Defined.

Lemma testWebsite_slot_balance_witness :
  resourceManager tested_world = resourceManager example_world
  /\ resolved tested_world = resolved example_world.
Proof.
  apply (testWebsite_slot_balance 0 example_env "https://a.example" (VRef 0) 3
           example_world (Return (Some (TResults (example_results 80))))
           tested_world).
  - intros Hq. now contradiction Hq.
  - vm_compute. reflexivity.
Defined.

(** ** The batch: starvation and termination *)

Section BatchMore.
Context `{Platform}.
Variable websites : list string.
Variable testOptions : option Value.
Variable envs : nat -> JobEnv.
Variable maxRetries : nat.

Lemma job_options_log w c w' :
  job_options testOptions w = (c, w') -> log w' = log w.
Proof.
  unfold job_options. destruct testOptions as [options|].
  - now intros [= <- <-].
  - unfold alloc. mrun. now intros [= <- <-].
Qed.

(** Without a slot nothing is in flight. *)
Lemma no_slot_idle cap b :
  cap <= 0 -> consistent cap (length websites) b ->
  resolved (world b) = []
  /\ forall i options, status b !! i <> Some (Holding options).
Proof.
  intros Hcap Hc.
  pose proof (cons_running _ _ _ Hc) as Hrun.
  pose proof (cons_bound _ _ _ Hc) as Hb.
  assert (Hz : in_flight b = 0%nat) by lia.
  unfold in_flight in Hz. split.
  - destruct (resolved (world b)); [reflexivity|cbn in Hz; lia].
  - intros i options Hi.
    assert (Hin : Holding options
                  ∈ filter (fun s => is_Holding s = true) (status b)).
    { apply list_elem_of_filter. split; [reflexivity|].
      eapply list_elem_of_lookup_2; eauto. }
    destruct (filter _ (status b)); [inversion Hin|cbn in Hz; lia].
Qed.

Lemma no_slot_step cap b b' :
  cap <= 0 -> consistent cap (length websites) b ->
  step websites testOptions envs maxRetries b b' ->
  log (world b') = log (world b)
  /\ forall i options,
       status b !! i = Some (Queued options) ->
       status b' !! i = Some (Queued options).
Proof.
  intros Hcap Hc Hstep.
  destruct (no_slot_idle cap b Hcap Hc) as [Hres Hhold].
  destruct Hstep as [i website t w options c w' b0 Hi _ _ Hopt Hstart
                    |i options b0 _ Hi Hin
                    |i website options c w' b0 _ Hi _ _
                    |i website c b0 _ Hi _]; cbn [world status].
  - split.
    + apply testWebsite_start_frame in Hstart as [_ ->].
      now apply job_options_log in Hopt as ->.
    + intros j o Hj. rewrite list_lookup_insert_ne; [exact Hj|congruence].
  - rewrite Hres in Hin. inversion Hin.
  - now destruct (Hhold i options).
  - split; [reflexivity|].
    intros j o Hj. rewrite list_lookup_insert_ne; [exact Hj|congruence].
Qed.

(** X7: with no slot at all (a cap of zero or less) a batch starves: no job
    ever holds a slot, no full test ever runs, a job that waits for a slot
    waits in every later state, and so the batch does not come to its
    end. *)
Theorem no_slot_starves cap w b :
  cap <= 0 ->
  rtc (step websites testOptions envs maxRetries) (initial websites cap w) b ->
  in_flight b = 0%nat
  /\ log (world b) = log w
  /\ forall i options b',
       status b !! i = Some (Queued options) ->
       rtc (step websites testOptions envs maxRetries) b b' ->
       status b' !! i = Some (Queued options) /\ ~ finished b'.
Proof.
  intros Hcap Hrun. split; [|split].
  - destruct (reachable_invariant _ _ _ _ _ _ _ Hrun) as [Hc _].
    pose proof (cons_running _ _ _ Hc). pose proof (cons_bound _ _ _ Hc). lia.
  - revert b Hrun. apply rtc_ind_r; [reflexivity|].
    intros b b' Hrun Hstep IH.
    destruct (reachable_invariant _ _ _ _ _ _ _ Hrun) as [Hc _].
    destruct (no_slot_step cap b b' Hcap Hc Hstep) as [-> _]. exact IH.
  - intros i options b' Hi Hrest.
    assert (Hq : status b' !! i = Some (Queued options)).
    { revert Hrun Hi. induction Hrest as [b|b b1 b' Hstep Hrest IH];
        intros Hrun Hi; [exact Hi|].
      destruct (reachable_invariant _ _ _ _ _ _ _ Hrun) as [Hc _].
      apply IH.
      - eapply rtc_r; eauto.
      - now apply (no_slot_step cap b b1 Hcap Hc Hstep). }
    split; [exact Hq|]. intros Hf.
    eapply Forall_lookup_1 in Hf; [|exact Hq]. discriminate.
Qed.

Lemma nsteps_progress k b b' :
  nsteps (step websites testOptions envs maxRetries) k b b' ->
  (progress b + k <= progress b')%nat.
Proof.
  induction 1 as [b|k b b1 b' Hstep _ IH]; [lia|].
  pose proof (step_progress _ _ _ _ _ _ Hstep). lia.
Qed.

(** X8: a batch with at least one slot cannot run on for ever and cannot get
    stuck, whatever the order of the turns: a run from the start has at most
    four turns per website, and in a state it has reached, a turn can be
    taken unless every callback is over. *)
Theorem every_schedule_ends cap w k b :
  nsteps (step websites testOptions envs maxRetries) k
    (initial websites cap w) b ->
  (k <= 4 * length websites)%nat
  /\ (1 <= cap -> ~ finished b ->
      exists b', step websites testOptions envs maxRetries b b').
Proof.
  intros Hrun.
  pose proof (nsteps_progress _ _ _ Hrun) as Hk.
  apply rtc_nsteps_2 in Hrun.
  destruct (reachable_invariant _ _ _ _ _ _ _ Hrun) as [Hc _].
  split.
  - pose proof (progress_bound b) as Hb.
    rewrite (cons_length _ _ _ Hc) in Hb. lia.
  - intros Hcap Hnot.
    exact (can_step websites testOptions envs maxRetries cap b Hcap Hc Hnot).
Qed.

Lemma take_turn_nsteps turns :
  forall b b',
    run_schedule websites testOptions envs maxRetries turns b = Some b' ->
    nsteps (step websites testOptions envs maxRetries) (length turns) b b'.
Proof.
  induction turns as [|turn turns IH]; intros b b'; cbn.
  - intros [= ->]. constructor.
  - destruct (take_turn websites testOptions envs maxRetries turn b)
      as [b1|] eqn:Hturn; [|discriminate].
    intros Hrest. econstructor; [|apply IH; exact Hrest].
    exact (take_turn_sound _ _ _ _ _ _ _ Hturn).
Qed.

End BatchMore.

Lemma no_slot_starves_witness :
  in_flight no_slot_batch = 0%nat
  /\ log (world no_slot_batch) = log example_world
  /\ forall i options b',
       status no_slot_batch !! i = Some (Queued options) ->
       rtc (step two_sites (Some (VRef 0)) two_envs 2) no_slot_batch b' ->
       status b' !! i = Some (Queued options) /\ ~ finished b'.
Proof.
  apply (no_slot_starves two_sites (Some (VRef 0)) two_envs 2 0 example_world
           no_slot_batch).
  - lia.
  - apply (run_schedule_sound _ _ _ _ [TStart 0 1000; TStart 1 1000]).
    vm_compute. reflexivity.
Defined.

Lemma every_schedule_ends_witness :
  (2 <= 4 * length two_sites)%nat
  /\ (1 <= 1 -> ~ finished one_slot_batch ->
      exists b', step two_sites (Some (VRef 0)) two_envs 2 one_slot_batch b').
Proof.
  apply (every_schedule_ends two_sites (Some (VRef 0)) two_envs 2 1
           example_world 2 one_slot_batch).
  apply (take_turn_nsteps _ _ _ _ [TStart 0 1000; TStart 1 1000]).
  vm_compute. reflexivity.
Defined.

(** ** The summary *)

(** X9: in the summary the successful and the failed tests add up to the
    total.  A test counts as failed when its entry has a non-empty error
    message; so the successful tests are the entries with scores and the
    entries whose error message is empty, which have no scores and no part in
    the averages. *)
Theorem summary_counts results :
  (successfulTests (generateSummaryReport results)
   + failedTests (generateSummaryReport results)
   = totalWebsites (generateSummaryReport results))%nat
  /\ (successfulTests (generateSummaryReport results)
      = length (successfulResults results)
        + length (filter (fun r => empty_error r = true) results))%nat.
Proof.
  cbn [generateSummaryReport successfulTests failedTests totalWebsites].
  unfold successfulResults.
  induction results as [|r results [IH1 IH2]]; [split; reflexivity|].
  rewrite !filter_cons.
  destruct r as [url [|a error]|url s reportPath screenshotPath];
    cbn [has_error truthy empty_error entry_scores];
    repeat case_decide; try discriminate; try congruence;
    try match goal with H : is_Some None |- _ => destruct H; discriminate end;
    try match goal with H : ~ is_Some (Some _) |- _ =>
          exfalso; apply H; eauto end;
    cbn [length]; lia.
Qed.

Lemma dom_averages results averages :
  averageScores (generateSummaryReport results) = Some averages ->
  dom averages = categories results.
Proof.
  cbn [generateSummaryReport averageScores].
  destruct (0 <? length (successfulResults results))%nat; [|discriminate].
  intros [= <-]. apply set_eq. intros c. rewrite elem_of_dom. split.
  - intros [x Hx].
    apply lookup_set_to_map in Hx as (c' & Hc & [= -> _]);
      [exact Hc|intros ? ? _ _ Heq; exact Heq].
  - intros Hc. eexists.
    apply lookup_set_to_map; [intros ? ? _ _ Heq; exact Heq|].
    exists c. split; [exact Hc|reflexivity].
Qed.

(** X10: the counts of the summary, and the categories that get an average,
    do not depend on the order of the entries, hence not on the order in
    which the jobs of a batch come to their end.  The averages do: a sum is
    added up along the entries and every addition rounds.  The scores 0.21,
    0.58 and 0.29 times 100 have the average 36 in this order and another
    one in the opposite order. *)
Theorem summary_counts_order_irrelevant :
  (forall results results',
      results ≡ₚ results' ->
      totalWebsites (generateSummaryReport results)
      = totalWebsites (generateSummaryReport results')
      /\ successfulTests (generateSummaryReport results)
         = successfulTests (generateSummaryReport results')
      /\ failedTests (generateSummaryReport results)
         = failedTests (generateSummaryReport results')
      /\ dom <$> averageScores (generateSummaryReport results)
         = dom <$> averageScores (generateSummaryReport results'))
  /\ ((averages ← averageScores (generateSummaryReport rounded_results);
       averages !! "performance") = Some (Qc_of_Z 36)
      /\ (averages ← averageScores
                      (generateSummaryReport (reverse rounded_results));
          averages !! "performance") <> Some (Qc_of_Z 36)).
Proof.
  split.
  - intros results results' Hp.
    assert (Hs : successfulResults results ≡ₚ successfulResults results')
      by (unfold successfulResults; now rewrite Hp).
    assert (Hcat : categories results = categories results').
    { unfold categories. apply leibniz_equiv. now rewrite Hs. }
    split; [cbn; now apply Permutation_length|].
    split; [cbn; apply Permutation_length; now rewrite Hp|].
    split; [cbn; apply Permutation_length; now rewrite Hp|].
    destruct (averageScores (generateSummaryReport results)) as [a|] eqn:Ea;
      destruct (averageScores (generateSummaryReport results')) as [a'|] eqn:Ea';
      cbn [fmap option_fmap option_map].
    + f_equal. now rewrite (dom_averages _ _ Ea), (dom_averages _ _ Ea').
    + exfalso. revert Ea Ea'. cbn [generateSummaryReport averageScores].
      rewrite (Permutation_length Hs).
      destruct (0 <? length (successfulResults results'))%nat; discriminate.
    + exfalso. revert Ea Ea'. cbn [generateSummaryReport averageScores].
      rewrite (Permutation_length Hs).
      destruct (0 <? length (successfulResults results'))%nat; discriminate.
    + reflexivity.
  - split.
    + vm_compute. f_equal. apply Qc_is_canon. reflexivity.
    + vm_compute. discriminate.
Qed.

(** ** Loading and cleaning the cache *)

Lemma append_cons a (s1 s2 : string) :
  String a s1 +:+ s2 = String a (s1 +:+ s2).
Proof. reflexivity. Qed.

Lemma endsWith_append suffix key : endsWith suffix (key +:+ suffix) = true.
Proof.
  induction key as [|a key IH].
  - change ("" +:+ suffix) with suffix. destruct suffix; cbn.
    + reflexivity.
    + now rewrite Ascii.eqb_refl, String.eqb_refl.
  - rewrite append_cons. cbn [endsWith]. rewrite IH. apply orb_true_r.
Qed.

Lemma prefix_cons a s1 b s2 :
  String.prefix (String a s1) (String b s2)
  = if Ascii.ascii_dec a b then String.prefix s1 s2 else false.
Proof. reflexivity. Qed.

Lemma prefix_nil_r a s : String.prefix (String a s) "" = false.
Proof. reflexivity. Qed.

Lemma prefix_json_append c s :
  String.prefix ".json" (String c s) = false ->
  String.prefix ".json" (String c s +:+ ".json") = false.
Proof.
  destruct s as [|c2 [|c3 [|c4 [|c5 s]]]]; rewrite ?append_cons;
    change ("" +:+ ".json") with ".json";
    repeat (rewrite ?prefix_cons, ?prefix_nil_r;
            match goal with
            | |- context [Ascii.ascii_dec ?a ?b] =>
                destruct (Ascii.ascii_dec a b) as [<-|?]
            end);
    try reflexivity; try discriminate; auto.
  destruct s; discriminate.
Qed.

(** A key that has no [.json] in it comes back from the name of its file. *)
Lemma replace_first_json key :
  includes ".json" key = false ->
  replace_first ".json" "" (key +:+ ".json") = key.
Proof.
  induction key as [|a key IH]; intros Hno.
  - reflexivity.
  - cbn [includes] in Hno. apply orb_false_elim in Hno as [Hp Hno].
    pose proof (prefix_json_append _ _ Hp) as Hp'.
    rewrite append_cons in Hp' |- *. cbn [replace_first].
    rewrite Hp'. now rewrite (IH Hno).
Qed.

Lemma cachePath_cacheFile key : cachePath (key +:+ ".json") = cacheFile key.
Proof. reflexivity. Qed.

Lemma load_files_disk listing :
  forall w c w',
    load_files listing w = (c, w') ->
    disk w' = disk w /\ heap w' = heap w /\ clock w' = clock w
    /\ cacheDuration (resultCache w') = cacheDuration (resultCache w).
Proof.
  induction listing as [|file rest IH]; intros w c w'; cbn [load_files].
  - now intros [= <- <-].
  - unfold bind at 1. unfold load_file. destruct (endsWith ".json" file).
    + unfold bind at 1. unfold readFileSync.
      destruct (files (disk w) !! cachePath file) as [[timestamp result|]|];
        [| |now intros [= <- <-]].
      * destruct (bool_decide _); [now intros [= <- <-]|].
        mrun. intros Hrest. now apply IH in Hrest.
      * destruct (bool_decide _); now intros [= <- <-].
    + mrun. apply IH.
Qed.

Lemma load_files_spec listing :
  forall w,
    Forall (written_by_set (disk w)) listing ->
    exists w',
      load_files listing w = (Return tt, w')
      /\ (forall key timestamp result,
            key +:+ ".json" ∈ listing ->
            files (disk w) !! cacheFile key = Some (FCache timestamp result) ->
            cache (resultCache w') !! key = Some timestamp)
      /\ (forall key,
            key +:+ ".json" ∉ listing ->
            cache (resultCache w') !! key = cache (resultCache w) !! key).
Proof.
  induction listing as [|file rest IH]; intros w Hall; cbn [load_files].
  - exists w. split; [reflexivity|]. split; [|reflexivity].
    intros key timestamp result Hin. inversion Hin.
  - apply Forall_cons in Hall
      as [((key0 & -> & Hno) & (ts0 & r0 & Hf0) & Hr0) Hall].
    unfold bind at 1. unfold load_file.
    rewrite endsWith_append, (replace_first_json _ Hno).
    unfold bind at 1. unfold readFileSync. rewrite Hf0.
    rewrite bool_decide_eq_false_2 by exact Hr0. mrun.
    set (w1 := with_cache (<[key0 := ts0]> (cache (resultCache w))) w).
    destruct (IH w1 Hall) as (w' & Hrest & Hin & Hout).
    exists w'. split; [exact Hrest|]. split.
    + intros key timestamp result Hkey Hf.
      destruct (decide (key +:+ ".json" ∈ rest)) as [Hr|Hr].
      * exact (Hin key timestamp result Hr Hf).
      * apply elem_of_cons in Hkey as [Heq|Hkey]; [|contradiction].
        apply append_cancel_r in Heq as ->.
        rewrite (Hout _ Hr). subst w1. cbn. rewrite lookup_insert_eq.
        rewrite cachePath_cacheFile in Hf0. congruence.
    + intros key Hkey. apply not_elem_of_cons in Hkey as [Hne Hkey].
      rewrite (Hout _ Hkey). subst w1. cbn.
      apply lookup_insert_ne. intros ->. contradiction.
Qed.

Section LoadMore.
Context `{Platform}.

(** X11: the cache survives a restart.  In a cache directory that only [set]
    has written to, a new [ResultCache] finds the entry of every file again,
    and [get] returns the results of a test whose entry has not expired:
    here the test of [url] with [options], cached at [timestamp].  The keys
    have no [.json] in them (they are hexadecimal digests). *)
Theorem loadCache_restores url options data timestamp r listing duration w t :
  Forall (written_by_set (disk w)) listing ->
  key_data (heap w) url options = Some data ->
  key_of data +:+ ".json" ∈ listing ->
  files (disk w) !! cacheFile (key_of data) = Some (FCache timestamp r) ->
  t - timestamp < duration ->
  exists w',
    newResultCache duration (Return listing) w = (Return tt, w')
    /\ disk w' = disk w
    /\ cache (resultCache w') !! key_of data = Some timestamp
    /\ get url options (with_clock t w') = (Return (Some r), with_clock t w').
Proof.
  intros Hall Ek Hin Hf Ht.
  unfold newResultCache, loadCache, try_catch. mrun.
  set (w0 := mkWorld (heap w) (mkResultCache ∅ duration) (disk w)
               (resourceManager w) (resolved w) (clock w) (log w)).
  destruct (load_files_spec listing w0 Hall) as (w' & Hload & Hfound & _).
  pose proof (load_files_disk _ _ _ _ Hload) as (Hd & Hh & _ & Hdur).
  rewrite Hload. exists w'.
  pose proof (Hfound _ _ _ Hin Hf) as Hc.
  split; [reflexivity|]. split; [exact Hd|]. split; [exact Hc|].
  apply (get_hit url options (with_clock t w') data timestamp r); cbn.
  - now rewrite Hh.
  - exact Hc.
  - now rewrite Hdur.
  - now rewrite Hd.
  - rewrite Hd. rewrite Forall_forall in Hall.
    destruct (Hall _ Hin) as (_ & _ & Hr). exact Hr.
Qed.

End LoadMore.

(** X12: [loadCache] stops at the first file it cannot read or parse, without
    an error: the entries of the files listed before it are loaded, those of
    the files listed after it are not, whatever they hold. *)
Theorem loadCache_stops_at_bad_file before bad after w w1 :
  load_files before w = (Return tt, w1) ->
  endsWith ".json" bad = true ->
  (forall c, readFileSync (cachePath bad) (disk w) = Return c -> c = FGarbage) ->
  loadCache (Return (before ++ bad :: after)) w = (Return tt, w1).
Proof.
  intros Hbefore Hjson Hbad. unfold loadCache, try_catch.
  assert (Hthrow : exists message,
             load_files (before ++ bad :: after) w = (Throw message, w1)).
  { revert w Hbefore Hbad.
    induction before as [|file rest IH]; intros w Hbefore Hbad.
    - cbn in Hbefore. injection Hbefore as <-.
      cbn [app load_files]. unfold bind at 1. unfold load_file.
      rewrite Hjson. unfold bind at 1.
      destruct (readFileSync (cachePath bad) (disk w)) as [c|message] eqn:Er;
        [|eauto].
      rewrite (Hbad c eq_refl). cbn. eauto.
    - cbn [app load_files] in Hbefore |- *. unfold bind at 1 in Hbefore.
      unfold bind at 1.
      destruct (load_file file w) as [[[]|message] w0] eqn:Efile;
        [|discriminate].
      apply IH; [exact Hbefore|].
      assert (Hd : disk w0 = disk w).
      { assert (Hone : load_files [file] w = (Return tt, w0)).
        { cbn [load_files]. unfold bind at 1. now rewrite Efile. }
        now apply load_files_disk in Hone as [-> _]. }
      now rewrite Hd. }
  destruct Hthrow as [message ->]. reflexivity.
Qed.

Lemma loadCache_restores_witness :
  exists w',
    newResultCache 3600000 (Return example_listing) cached_world
      = (Return tt, w')
    /\ disk w' = disk cached_world
    /\ cache (resultCache w') !! example_key = Some 1000
    /\ get "https://a.example" (VRef 0) (with_clock 5000 w')
       = (Return (Some (example_results 80)), with_clock 5000 w').
Proof.
  apply (loadCache_restores "https://a.example" (VRef 0)
           (JObj [("url", JStr "https://a.example");
                  ("options", JObj [("outputFormat", JStr "html")])])
           1000 (example_results 80) example_listing 3600000 cached_world
           5000).
  - repeat constructor.
    + exists example_key. split; reflexivity.
    + exists 1000, (example_results 80). vm_compute. reflexivity.
    + apply not_elem_of_empty.
  - reflexivity.
  - apply list_elem_of_here.
  - vm_compute. reflexivity.
  - reflexivity.
Defined.

Lemma loadCache_stops_at_bad_file_witness :
  loadCache (Return ([] ++ "broken.json" :: example_listing)) corrupt_world
  = (Return tt, corrupt_world).
Proof.
  apply (loadCache_stops_at_bad_file [] "broken.json" example_listing
           corrupt_world corrupt_world).
  - reflexivity.
  - reflexivity.
  - intros c. vm_compute. now intros [= <-].
Defined.

Section CleanupMore.
Context `{Platform}.

Lemma cleanup_entry_cases now key timestamp w :
  exists c w',
    cleanup_entry now key timestamp w = (c, w')
    /\ heap w' = heap w /\ clock w' = clock w
    /\ cacheDuration (resultCache w') = cacheDuration (resultCache w)
    /\ unlink_denied (disk w') = unlink_denied (disk w)
    /\ match c with
       | Return _ =>
           if bool_decide (cacheDuration (resultCache w) <= now - timestamp)
           then cache (resultCache w') = delete key (cache (resultCache w))
                /\ files (disk w') = delete (cacheFile key) (files (disk w))
           else cache (resultCache w') = cache (resultCache w)
                /\ files (disk w') = files (disk w)
       | Throw _ =>
           cacheDuration (resultCache w) <= now - timestamp
           /\ is_Some (files (disk w) !! cacheFile key)
           /\ cacheFile key ∈ unlink_denied (disk w)
       end.
Proof.
  unfold cleanup_entry. mrun.
  destruct (bool_decide (cacheDuration (resultCache w) <= now - timestamp))
    eqn:Ex; cbn.
  2:{ eexists _, _. split; [reflexivity|]. auto 10. }
  apply bool_decide_eq_true in Ex.
  unfold existsSync, unlinkSync. cbn.
  destruct (files (disk w) !! cacheFile key) as [c|] eqn:Ef; cbn.
  - rewrite Ef.
    destruct (bool_decide (cacheFile key ∈ unlink_denied (disk w))) eqn:Eu;
      cbn; eexists _, _; (split; [reflexivity|]); cbn.
    + apply bool_decide_eq_true in Eu. repeat split; auto.
    + auto 10.
  - eexists _, _. split; [reflexivity|]. cbn.
    repeat split; auto. symmetry. now apply delete_id.
Qed.

Lemma lookup_sweep_keys (m : gmap string Z) keys key :
  foldl (fun m k => delete k m) m keys !! key
  = if decide (key ∈ keys) then None else m !! key.
Proof.
  revert m. induction keys as [|k keys IH]; intros m; cbn.
  - case_decide as Hin; [inversion Hin|reflexivity].
  - rewrite IH.
    destruct (decide (key ∈ keys)) as [Hin|Hnin];
      destruct (decide (key ∈ k :: keys)) as [Hin'|Hnin']; try reflexivity.
    + exfalso. apply Hnin'. now apply list_elem_of_further.
    + apply elem_of_cons in Hin' as [->|?]; [|contradiction].
      apply lookup_delete_eq.
    + apply not_elem_of_cons in Hnin' as [Hne _]. now apply lookup_delete_ne.
Qed.

Lemma lookup_sweep_files (m : gmap string FileContent) keys key :
  foldl (fun m k => delete (cacheFile k) m) m keys !! cacheFile key
  = if decide (key ∈ keys) then None else m !! cacheFile key.
Proof.
  revert m. induction keys as [|k keys IH]; intros m; cbn.
  - case_decide as Hin; [inversion Hin|reflexivity].
  - rewrite IH.
    destruct (decide (key ∈ keys)) as [Hin|Hnin];
      destruct (decide (key ∈ k :: keys)) as [Hin'|Hnin']; try reflexivity.
    + exfalso. apply Hnin'. now apply list_elem_of_further.
    + apply elem_of_cons in Hin' as [->|?]; [|contradiction].
      apply lookup_delete_eq.
    + apply not_elem_of_cons in Hnin' as [Hne _]. apply lookup_delete_ne.
      intros Heq. apply cacheFile_inj in Heq. congruence.
Qed.

Lemma expired_keys_cons duration now key timestamp entries :
  expired_keys duration now ((key, timestamp) :: entries)
  = if bool_decide (duration <= now - timestamp)
    then key :: expired_keys duration now entries
    else expired_keys duration now entries.
Proof.
  unfold expired_keys. rewrite filter_cons. cbn.
  case_decide as Hx.
  - now rewrite bool_decide_eq_true_2 by exact Hx.
  - now rewrite bool_decide_eq_false_2 by exact Hx.
Qed.

Lemma elem_of_expired_keys duration now entries key :
  key ∈ expired_keys duration now entries
  <-> exists timestamp,
        (key, timestamp) ∈ entries /\ duration <= now - timestamp.
Proof.
  unfold expired_keys. rewrite list_elem_of_fmap. split.
  - intros ([k ts] & -> & Hin). apply list_elem_of_filter in Hin as [Hx Hin].
    eauto.
  - intros (ts & Hin & Hx). exists (key, ts). split; [reflexivity|].
    apply list_elem_of_filter. auto.
Qed.

(** On a disk that lets every file go, the loop removes the expired entries
    and their files, and nothing else. *)
Lemma cleanup_entries_sweeps now entries :
  forall w,
    unlink_denied (disk w) = ∅ ->
    exists w',
      cleanup_entries now entries w = (Return tt, w')
      /\ clock w' = clock w
      /\ cacheDuration (resultCache w') = cacheDuration (resultCache w)
      /\ cache (resultCache w')
         = foldl (fun m k => delete k m) (cache (resultCache w))
             (expired_keys (cacheDuration (resultCache w)) now entries)
      /\ files (disk w')
         = foldl (fun m k => delete (cacheFile k) m) (files (disk w))
             (expired_keys (cacheDuration (resultCache w)) now entries).
Proof.
  induction entries as [|[key timestamp] rest IH]; intros w Hu;
    cbn [cleanup_entries].
  - exists w. split; [reflexivity|]. auto.
  - destruct (cleanup_entry_cases now key timestamp w)
      as (c & w1 & Hone & _ & Hcl & Hd & Hu1 & Hc).
    unfold bind. rewrite Hone. destruct c as [[]|message].
    2:{ destruct Hc as (_ & _ & Hin). rewrite Hu in Hin.
        now apply not_elem_of_empty in Hin. }
    destruct (IH w1 ltac:(congruence))
      as (w' & Hrest & Hcl' & Hd' & Hc' & Hf').
    exists w'. split; [exact Hrest|]. split; [congruence|].
    split; [congruence|]. rewrite Hc', Hf', Hd, expired_keys_cons.
    destruct (bool_decide _); destruct Hc as [-> ->]; auto.
Qed.

(** X13: [cleanup] on a disk that lets every file go: the entries that have
    expired leave the map and their files leave the disk; the entries that
    have not stay, and so do their files.  [entries] are the entries of the
    map, in any order. *)
Theorem cleanup_sweeps_expired entries w :
  (forall key timestamp,
      (key, timestamp) ∈ entries
      <-> cache (resultCache w) !! key = Some timestamp) ->
  unlink_denied (disk w) = ∅ ->
  exists w',
    cleanup entries w = (Return tt, w')
    /\ forall key,
         match cache (resultCache w) !! key with
         | Some timestamp =>
             if bool_decide (clock w - timestamp
                             < cacheDuration (resultCache w))
             then cache (resultCache w') !! key = Some timestamp
                  /\ files (disk w') !! cacheFile key
                     = files (disk w) !! cacheFile key
             else cache (resultCache w') !! key = None
                  /\ files (disk w') !! cacheFile key = None
         | None => cache (resultCache w') !! key = None
         end.
Proof.
  intros Hentries Hu. unfold cleanup. mrun.
  destruct (cleanup_entries_sweeps (clock w) entries w Hu)
    as (w' & -> & _ & _ & Hc & Hf).
  exists w'. split; [reflexivity|]. intros key.
  rewrite Hc, Hf, lookup_sweep_keys, lookup_sweep_files.
  destruct (cache (resultCache w) !! key) as [timestamp|] eqn:Ek.
  - apply Hentries in Ek as Hin.
    destruct (bool_decide (clock w - timestamp < _)) eqn:Efresh.
    + apply bool_decide_eq_true in Efresh.
      case_decide as Hx; [|auto].
      apply elem_of_expired_keys in Hx as (ts & Hin' & Hx).
      apply Hentries in Hin'. assert (ts = timestamp) by congruence. lia.
    + apply bool_decide_eq_false in Efresh.
      case_decide as Hx; [auto|].
      exfalso. apply Hx. apply elem_of_expired_keys. exists timestamp.
      split; [exact Hin|lia].
  - case_decide; reflexivity.
Qed.

Lemma cleanup_entries_throws now key timestamp c entries :
  forall w,
    (key, timestamp) ∈ entries ->
    (forall t, (key, t) ∈ entries -> cacheDuration (resultCache w) <= now - t) ->
    files (disk w) !! cacheFile key = Some c ->
    cacheFile key ∈ unlink_denied (disk w) ->
    exists message w', cleanup_entries now entries w = (Throw message, w').
Proof.
  induction entries as [|[k t0] rest IH]; intros w Hin Hx Hf Hu;
    [inversion Hin|].
  cbn [cleanup_entries].
  destruct (cleanup_entry_cases now k t0 w)
    as (c1 & w1 & Hone & _ & _ & Hd & Hu1 & Hc).
  unfold bind. rewrite Hone. destruct c1 as [[]|message]; [|eauto].
  destruct (decide (k = key)) as [->|Hne].
  - exfalso.
    assert (Hexp : cacheDuration (resultCache w) <= now - t0)
      by (apply Hx; apply list_elem_of_here).
    revert Hone. unfold cleanup_entry. mrun.
    rewrite bool_decide_eq_true_2 by exact Hexp. cbn.
    unfold existsSync, unlinkSync. cbn. rewrite Hf. cbn. rewrite Hf.
    now rewrite bool_decide_eq_true_2 by exact Hu.
  - apply (IH w1).
    + apply elem_of_cons in Hin as [[= ? ?]|Hin]; [congruence|exact Hin].
    + intros t Ht. rewrite Hd. apply Hx. now apply list_elem_of_further.
    + destruct (bool_decide _); destruct Hc as [_ ->]; [|exact Hf].
      rewrite lookup_delete_ne; [exact Hf|].
      intros Heq. apply cacheFile_inj in Heq. contradiction.
    + now rewrite Hu1.
Qed.

(** X14: [cleanup] throws when the disk does not let the file of an expired
    entry go.  ([optimizedBatchTest] calls [cleanup] outside any [try], so
    the batch is rejected before the first test.) *)
Theorem cleanup_throws_on_locked_file entries w key timestamp c :
  (forall key timestamp,
      (key, timestamp) ∈ entries
      <-> cache (resultCache w) !! key = Some timestamp) ->
  cache (resultCache w) !! key = Some timestamp ->
  cacheDuration (resultCache w) <= clock w - timestamp ->
  files (disk w) !! cacheFile key = Some c ->
  cacheFile key ∈ unlink_denied (disk w) ->
  exists message w', cleanup entries w = (Throw message, w').
Proof.
  intros Hentries Hk Hx Hf Hu. unfold cleanup. mrun.
  destruct (cleanup_entries_throws (clock w) key timestamp c entries w)
    as (message & w' & ->); eauto.
  - now apply Hentries.
  - intros t Ht. apply Hentries in Ht.
    assert (t = timestamp) by congruence. now subst.
Qed.

End CleanupMore.

Lemma cleanup_sweeps_expired_witness :
  exists w',
    cleanup [(example_key, 1000)] (with_clock 3601000 cached_world)
      = (Return tt, w')
    /\ forall key,
         match cache (resultCache (with_clock 3601000 cached_world)) !! key with
         | Some timestamp =>
             if bool_decide
                  (clock (with_clock 3601000 cached_world) - timestamp
                   < cacheDuration
                       (resultCache (with_clock 3601000 cached_world)))
             then cache (resultCache w') !! key = Some timestamp
                  /\ files (disk w') !! cacheFile key
                     = files (disk (with_clock 3601000 cached_world))
                         !! cacheFile key
             else cache (resultCache w') !! key = None
                  /\ files (disk w') !! cacheFile key = None
         | None => cache (resultCache w') !! key = None
         end.
Proof.
  apply (cleanup_sweeps_expired [(example_key, 1000)]
           (with_clock 3601000 cached_world)).
  - intros key timestamp.
    change (cache (resultCache (with_clock 3601000 cached_world)))
      with ({[example_key := 1000]} : gmap string Z).
    rewrite list_elem_of_singleton, lookup_singleton_Some.
    split; [intros [= -> ->]; auto|intros [-> ->]; reflexivity].
  - reflexivity.
Defined.

Lemma cleanup_throws_on_locked_file_witness :
  exists message w',
    cleanup [(example_key, 1000)] locked_world = (Throw message, w').
Proof.
  apply (cleanup_throws_on_locked_file [(example_key, 1000)] locked_world
           example_key 1000 (FCache 1000 (example_results 80))).
  - intros key timestamp.
    change (cache (resultCache locked_world))
      with ({[example_key := 1000]} : gmap string Z).
    rewrite list_elem_of_singleton, lookup_singleton_Some.
    split; [intros [= -> ->]; auto|intros [-> ->]; reflexivity].
  - vm_compute. reflexivity.
  - vm_compute. discriminate.
  - vm_compute. reflexivity.
  - change (cacheFile example_key ∈ ({[cacheFile example_key]} : gset string)).
    now apply elem_of_singleton.
Defined.

(** ** The sequential batch *)

Lemma batchTest_loop_app websites runs :
  forall i batchResults,
    batchTest_loop i websites runs batchResults
    = batchResults ++ batchTest_loop i websites runs [].
Proof.
  induction websites as [|website rest IH]; intros i batchResults; cbn.
  - now rewrite app_nil_r.
  - rewrite (IH (S i) (batchResults ++ _)), (IH (S i) (batchTest_turn _ _)).
    now rewrite app_assoc.
Qed.

Lemma batchTest_turn_url website outcome :
  map entry_url (batchTest_turn website outcome)
  = match outcome with FTInvalid => [] | _ => [website] end.
Proof. now destruct outcome. Qed.

Lemma batchTest_loop_urls websites runs :
  forall i,
    map entry_url (batchTest_loop i websites runs []) `sublist_of` websites
    /\ ((forall j, (j < length websites)%nat -> runs (i + j)%nat <> FTInvalid) ->
        map entry_url (batchTest_loop i websites runs []) = websites).
Proof.
  induction websites as [|website rest IH]; intros i; cbn.
  - split; [constructor|reflexivity].
  - rewrite batchTest_loop_app, map_app, batchTest_turn_url.
    destruct (IH (S i)) as [Hsub Heq]. split.
    + destruct (runs i); cbn; try (now constructor).
    + intros Hvalid.
      assert (Hrest : forall j, (j < length rest)%nat ->
                                runs (S i + j)%nat <> FTInvalid).
      { intros j Hj. replace (S i + j)%nat with (i + S j)%nat by lia.
        apply Hvalid. lia. }
      rewrite (Heq Hrest).
      specialize (Hvalid 0%nat ltac:(lia)). rewrite Nat.add_0_r in Hvalid.
      now destruct (runs i).
Qed.

Lemma batchTest_turn_silent website outcome :
  existsb empty_error (batchTest_turn website outcome) = true
  <-> outcome = FTThrow "".
Proof.
  destruct outcome as [r| |[|a message]]; cbn; split; try discriminate;
    try reflexivity.
Qed.

Lemma batchTest_loop_silent websites runs :
  forall i,
    existsb empty_error (batchTest_loop i websites runs []) = true
    <-> exists j, (j < length websites)%nat /\ runs (i + j)%nat = FTThrow "".
Proof.
  induction websites as [|website rest IH]; intros i; cbn [batchTest_loop].
  - cbn. split; [discriminate|]. intros (j & Hj & _). cbn in Hj. lia.
  - rewrite batchTest_loop_app, existsb_app, orb_true_iff.
    rewrite app_nil_l, batchTest_turn_silent, IH. split.
    + intros [Hi|(j & Hj & Hrun)].
      * exists 0%nat. rewrite Nat.add_0_r. split; [cbn; lia|exact Hi].
      * exists (S j). split; [cbn; lia|].
        now replace (i + S j)%nat with (S i + j)%nat by lia.
    + intros ([|j] & Hj & Hrun).
      * left. now rewrite Nat.add_0_r in Hrun.
      * right. exists j. split; [cbn in Hj; lia|].
        now replace (S i + j)%nat with (i + S j)%nat by lia.
Qed.

(** X15: the sequential batch keeps the order of the input, when it returns.
    The urls of the results it returns are websites of the input in the
    order of the input, each at most once by position; they are all the
    websites when no full test returns without a [lighthouse] result.  The
    total it returns counts the websites, the total of the summary it has
    written counts the results, and no result has an empty error message.
    When a full test throws an error with an empty message and the JSON
    summary can be written, [batchTest] does not return: the summary stands
    in [batch-summary.json], and the HTML report throws a TypeError that
    rejects the promise.  With a directory that takes every write
    [batchTest] returns exactly when no full test throws such an error. *)
Theorem batchTest_keeps_input_order dir websites runs :
  (forall b,
      (batchTest dir websites runs).1 = Return (Some b) ->
      map entry_url (returned_results b) `sublist_of` websites
      /\ returned_totalWebsites b = length websites
      /\ (exists summaryData,
            (batchTest dir websites runs).2 = Some summaryData
            /\ totalWebsites summaryData = length (returned_results b))
      /\ Forall (fun r => empty_error r = false) (returned_results b)
      /\ ((forall i, (i < length websites)%nat -> runs i <> FTInvalid) ->
          map entry_url (returned_results b) = websites))
  /\ (mkdirSync dir = Return tt -> write_json dir = Return tt ->
      (exists i, (i < length websites)%nat /\ runs i = FTThrow "") ->
      batchTest dir websites runs
      = (Throw "Cannot read properties of undefined (reading 'performance')",
         Some (generateSummaryReport (batchTest_loop 0 websites runs []))))
  /\ (websites <> [] ->
      mkdirSync dir = Return tt -> write_json dir = Return tt ->
      write_html dir = Return tt ->
      (forall i, (i < length websites)%nat -> runs i <> FTThrow "") ->
      exists b, (batchTest dir websites runs).1 = Return (Some b)).
Proof.
  pose proof (batchTest_loop_silent websites runs 0) as Hsilent.
  cbn [Nat.add] in Hsilent.
  unfold batchTest, generateResultRows. split; [|split].
  - intros b. destruct websites as [|website rest]; [discriminate|].
    destruct (mkdirSync dir); [|discriminate].
    destruct (write_json dir); [|discriminate].
    destruct (existsb empty_error _) eqn:Hex; [discriminate|].
    destruct (write_html dir); [|discriminate].
    cbn [fst snd]. intros [= <-]. cbn [returned_results returned_totalWebsites].
    destruct (batchTest_loop_urls (website :: rest) runs 0) as [Hsub Heq].
    split; [exact Hsub|]. split; [reflexivity|].
    split; [eexists; split; reflexivity|].
    split; [|exact Heq].
    apply Forall_forall. intros r Hr.
    destruct (empty_error r) eqn:Er; [|reflexivity].
    assert (Hin : existsb empty_error
                    (batchTest_loop 0 (website :: rest) runs []) = true).
    { apply existsb_exists. exists r. split; [|exact Er].
      now apply list_elem_of_In. }
    congruence.
  - intros -> -> Hthrown. apply Hsilent in Hthrown.
    destruct websites as [|website rest].
    { cbn in Hthrown. discriminate. }
    now rewrite Hthrown.
  - intros Hne -> -> -> Hloud.
    destruct websites as [|website rest]; [contradiction|].
    destruct (existsb empty_error _) eqn:Hex.
    + destruct (proj1 Hsilent eq_refl) as (i & Hi & Hrun).
      now apply Hloud in Hrun.
    + eexists. reflexivity.
Qed.

Lemma batchTest_keeps_input_order_witness :
  (exists b,
      (batchTest writable_dir
         ["https://a.example"; "https://b.example"; "https://c.example"]
         three_runs).1 = Return (Some b)
      /\ map entry_url (returned_results b)
         = ["https://a.example"; "https://c.example"]
      /\ map entry_url (returned_results b)
           `sublist_of`
           ["https://a.example"; "https://b.example"; "https://c.example"]
      /\ returned_totalWebsites b = 3%nat)
  /\ batchTest writable_dir ["https://a.example"; "https://b.example"]
       silent_runs
     = (Throw "Cannot read properties of undefined (reading 'performance')",
        Some (generateSummaryReport
                (batchTest_loop 0 ["https://a.example"; "https://b.example"]
                   silent_runs []))).
Proof.
  split.
  - eexists. split; [reflexivity|]. split; [reflexivity|].
    destruct (batchTest_keeps_input_order writable_dir
                ["https://a.example"; "https://b.example"; "https://c.example"]
                three_runs) as (Hreturns & _ & _).
    destruct (Hreturns _ eq_refl) as (Hsub & Htotal & _).
    split; [exact Hsub|exact Htotal].
  - destruct (batchTest_keeps_input_order writable_dir
                ["https://a.example"; "https://b.example"] silent_runs)
      as (_ & Hthrows & _).
    apply Hthrows; [reflexivity|reflexivity|].
    exists 1%nat. split; [cbn; lia|reflexivity].
Defined.

(** ** The browser side: [index.js] *)

Section IndexFacts.
Import Index.

Lemma next_waitUntil_wait_at initial retryAttempt :
  0 <= retryAttempt ->
  next_waitUntil (retryAttempt + 1) (wait_at initial retryAttempt)
  = wait_at initial (retryAttempt + 1).
Proof.
  intros Hpos. unfold next_waitUntil, wait_at.
  destruct (Z.eqb_spec (retryAttempt + 1) 1) as [E1|E1].
  - now destruct (Z.leb_spec (retryAttempt + 1) 0); [lia|].
  - destruct (Z.eqb_spec (retryAttempt + 1) 2) as [E2|E2].
    + now destruct (Z.leb_spec (retryAttempt + 1) 0); [lia|].
    + destruct (Z.leb_spec retryAttempt 0); [lia|].
      destruct (Z.eqb_spec retryAttempt 1); [lia|].
      now destruct (Z.leb_spec (retryAttempt + 1) 0); [lia|].
Qed.

(** The loop from the attempt [a] on, when the attempts before [a + more]
    fail and the attempt [a + more] is the last: it succeeds, or the retries
    are used up. *)
Lemma screenshot_loop_run env outputPath full initial time scale retries :
  forall more a fuel lastError,
    0 <= a ->
    (forall i, a <= i < a + Z.of_nat more -> page_attempt env i <> None) ->
    a + Z.of_nat more <= retries ->
    (page_attempt env (a + Z.of_nat more) = None
     \/ a + Z.of_nat more = retries) ->
    (more < fuel)%nat ->
    screenshot_loop fuel env outputPath
      (mkScreenshotOptions full time (wait_at initial a) scale retries) a
      lastError
    = (match page_attempt env (a + Z.of_nat more) with
       | None => Returned outputPath
       | Some error => Thrown (Some error)
       end,
       schedule initial time a more).
Proof.
  induction more as [|more IH]; intros a [|fuel] lastError Ha Hfail Hle Hlast
    Hfuel; try lia; cbn [screenshot_loop retryCount waitUntil timeout
                          fullPage deviceScaleFactor schedule].
  - rewrite Z.add_0_r in *.
    destruct (Z.leb_spec a retries); [|lia].
    destruct (page_attempt env a) as [error|]; [|reflexivity].
    destruct Hlast as [|Hlast]; [discriminate|].
    destruct (Z.ltb_spec a retries); [lia|reflexivity].
  - destruct (Z.leb_spec a retries); [|lia].
    destruct (page_attempt env a) as [error|] eqn:Ea.
    2:{ exfalso. apply (Hfail a); [lia|exact Ea]. }
    destruct (Z.ltb_spec a retries); [|lia].
    rewrite (next_waitUntil_wait_at initial a Ha).
    rewrite (IH (a + 1) fuel (Some error)); try lia.
    + now replace (a + 1 + Z.of_nat more) with (a + Z.of_nat (S more)) by lia.
    + intros i Hi. apply Hfail. lia.
    + now replace (a + 1 + Z.of_nat more) with (a + Z.of_nat (S more)) by lia.
Qed.

(** X16: [captureScreenshot] when the browser starts and closes, and the
    attempts before the attempt [K] fail.  If attempt [K] succeeds within
    the retries, the path is returned after exactly [K + 1] attempts; if the
    retries are used up first, the error of the last attempt is thrown after
    [retryCount + 1] attempts.  The first attempt waits for the condition of
    the options, the second for ['load'], every later one for ['commit'];
    the wait before attempt [i] is [2^i] seconds; the browser is launched
    once and closed once, last of all.  With a negative [retryCount] no
    attempt is made and [null] is thrown. *)
Theorem captureScreenshot_schedule env outputPath options K :
  chromium_launch env = None ->
  browser_close env = None ->
  (forall i, 0 <= i < Z.of_nat K -> page_attempt env i <> None) ->
  (Z.of_nat K <= retryCount (screenshotOptions options) ->
   page_attempt env (Z.of_nat K) = None ->
   captureScreenshot env outputPath options
   = (Returned outputPath,
      BrLaunch
      :: schedule (waitUntil (screenshotOptions options))
           (timeout (screenshotOptions options)) 0 K
      ++ [BrClose]))
  /\ (0 <= retryCount (screenshotOptions options) < Z.of_nat K ->
      captureScreenshot env outputPath options
      = (Thrown (page_attempt env (retryCount (screenshotOptions options))),
         BrLaunch
         :: schedule (waitUntil (screenshotOptions options))
              (timeout (screenshotOptions options)) 0
              (Z.to_nat (retryCount (screenshotOptions options)))
         ++ [BrClose]))
  /\ (retryCount (screenshotOptions options) < 0 ->
      captureScreenshot env outputPath options
      = (Thrown None, [BrLaunch; BrClose])).
Proof.
  intros Hlaunch Hclose Hfail. unfold captureScreenshot.
  set (so := screenshotOptions options).
  rewrite Hlaunch, Hclose.
  assert (Hso : so = mkScreenshotOptions (fullPage so) (timeout so)
                       (wait_at (waitUntil so) 0) (deviceScaleFactor so)
                       (retryCount so)) by now destruct so.
  split; [|split].
  - intros Hle Hok. rewrite Hso at 2.
    rewrite (screenshot_loop_run env outputPath _ _ _ _ _ K 0); try lia.
    + rewrite Z.add_0_l. now rewrite Hok.
    + exact Hfail.
    + left. exact Hok.
  - intros Hlt. rewrite Hso at 2.
    rewrite (screenshot_loop_run env outputPath _ _ _ _ _
               (Z.to_nat (retryCount so)) 0); try lia.
    + rewrite Z.add_0_l, Z2Nat.id by lia.
      destruct (page_attempt env (retryCount so)) as [error|] eqn:E;
        [reflexivity|].
      exfalso. apply (Hfail (retryCount so)); [lia|exact E].
    + intros i Hi. apply Hfail. lia.
  - intros Hneg.
    destruct (Z.to_nat (retryCount so + 1)) eqn:Ef; [reflexivity|lia].
Qed.

Lemma restart_quiet env s :
  throttlingMethod (restart env s).1 = throttlingMethod s
  /\ runs_of (restart env s).2 = []
  /\ backoffs (restart env s).2 = []
  /\ attempts_of (restart env s).2 = [].
Proof.
  unfold restart.
  destruct (chrome_kill env (kills s)); [auto|].
  destruct (chrome_launch env (launches s)); auto.
Qed.

Lemma runs_of_app t1 t2 : runs_of (t1 ++ t2) = runs_of t1 ++ runs_of t2.
Proof. apply omap_app. Qed.

Lemma backoffs_app t1 t2 : backoffs (t1 ++ t2) = backoffs t1 ++ backoffs t2.
Proof. apply omap_app. Qed.

Lemma attempts_of_app t1 t2 :
  attempts_of (t1 ++ t2) = attempts_of t1 ++ attempts_of t2.
Proof. apply omap_app. Qed.

Lemma throttlingMethod_relax message s :
  throttlingMethod (relax message s)
  = if marked (LhThrow message) then "provided" else throttlingMethod s.
Proof. unfold relax, marked. now destruct (includes _ _). Qed.

(** The loop from the call [a] on, when the calls before [a + more] throw
    and the call [a + more] is the last: it returns, or the retries are used
    up. *)
Lemma lighthouse_loop_run env :
  forall more a fuel s,
    0 <= a -> a + Z.of_nat more <= 2 ->
    (forall i, a <= i < a + Z.of_nat more ->
               exists message, lighthouse_run env i = LhThrow message) ->
    ((exists runnerResult,
         lighthouse_run env (a + Z.of_nat more) = LhReturn runnerResult)
     \/ a + Z.of_nat more = 2) ->
    (more < fuel)%nat ->
    exists s' trace,
      lighthouse_loop fuel env s a
      = (match lighthouse_run env (a + Z.of_nat more) with
         | LhReturn runnerResult => Returned runnerResult
         | LhThrow message => Thrown (Some message)
         end, s', trace)
      /\ runs_of trace = runs_from env a (throttlingMethod s) more
      /\ backoffs trace = backoffs_from a more
      /\ attempts_of trace = [].
Proof.
  induction more as [|more IH]; intros a [|fuel] s Ha Hle Hthrow Hlast Hfuel;
    try lia; cbn [lighthouse_loop runs_from backoffs_from].
  - rewrite Z.add_0_r in *. unfold maxRetries.
    destruct (Z.leb_spec a 2); [|lia].
    destruct (lighthouse_run env a) as [runnerResult|message] eqn:Ea.
    + eexists _, _. split; [reflexivity|]. auto.
    + destruct Hlast as [[? ?]|Hlast]; [discriminate|].
      destruct (Z.ltb_spec a 2); [lia|].
      eexists _, _. split; [reflexivity|]. auto.
  - unfold maxRetries.
    destruct (Z.leb_spec a 2); [|lia].
    destruct (Hthrow a ltac:(lia)) as [message Ea]. rewrite Ea.
    destruct (Z.ltb_spec a 2); [|lia].
    pose proof (restart_quiet env (relax message s)) as (Hth & Hr & Hb & Hat).
    destruct (restart env (relax message s)) as [s2 restarted].
    cbn [fst snd] in Hth, Hr, Hb, Hat.
    destruct (IH (a + 1) fuel s2) as (s' & trace & Hloop & Hruns & Hbacks & Ha');
      try lia.
    + intros i Hi. apply Hthrow. lia.
    + now replace (a + 1 + Z.of_nat more) with (a + Z.of_nat (S more)) by lia.
    + replace (a + 1 + Z.of_nat more) with (a + Z.of_nat (S more)) in Hloop
        by lia.
      rewrite Hloop. eexists _, _. split; [reflexivity|].
      cbn [runs_of backoffs attempts_of omap list_omap].
      fold (runs_of (restarted ++ trace)). fold (backoffs (restarted ++ trace)).
      fold (attempts_of (restarted ++ trace)).
      rewrite runs_of_app, backoffs_app, attempts_of_app, Hr, Hb, Hat, Hruns,
        Hbacks, Ha', Hth, throttlingMethod_relax.
      cbn [marked app]. auto.
Qed.

Lemma runs_from_expected env K :
  (K <= 2)%nat -> runs_from env 0 "simulate" K = expected_runs env (S K).
Proof.
  intros HK. unfold expected_runs.
  destruct K as [|[|[|K]]]; [| | |lia]; cbn;
    repeat (destruct (marked _)); reflexivity.
Qed.

(** X17: [runLighthouseTest] when Chrome starts and Lighthouse loads, and
    the calls of [lighthouse] before the call [K] throw.  If call [K]
    returns a report within the two retries, the scores are a hundred times
    those of the report and exactly [K + 1] calls were made; if the first
    three calls throw, the error of the third is thrown and no fourth call
    is made.  The waits before the second and the third call are 4 and 8
    seconds; the throttling is ['simulate'] until a call fails on the
    navigation mark and ['provided'] afterwards. *)
Theorem runLighthouseTest_retry_budget env K :
  chrome_launch env 0 = None ->
  lighthouse_loads env = true ->
  (forall i, (i < K)%nat ->
             exists message, lighthouse_run env (Z.of_nat i) = LhThrow message) ->
  (forall categories,
      (K <= 2)%nat ->
      lighthouse_run env (Z.of_nat K) = LhReturn (RReport categories) ->
      write_reports env = None ->
      exists trace,
        runLighthouseTest env = (Returned (report env categories), trace)
        /\ runs_of trace = expected_runs env (S K)
        /\ backoffs trace = take K [4000; 8000])
  /\ ((2 < K)%nat ->
      exists message trace,
        lighthouse_run env 2 = LhThrow message
        /\ runLighthouseTest env = (Thrown (Some message), trace)
        /\ runs_of trace = expected_runs env 3
        /\ backoffs trace = [4000; 8000]).
Proof.
  intros Hlaunch Hloads Hthrow. unfold runLighthouseTest.
  rewrite Hlaunch, Hloads.
  assert (Hthrow' : forall k, (k <= K)%nat ->
            forall i, 0 <= i < 0 + Z.of_nat k ->
                      exists message, lighthouse_run env i = LhThrow message).
  { intros k Hk i Hi. specialize (Hthrow (Z.to_nat i) ltac:(lia)).
    now rewrite Z2Nat.id in Hthrow by lia. }
  split.
  - intros categories HK Hrun Hwrite.
    destruct (lighthouse_loop_run env K 0 3 (mkLhState 0 0 "simulate" 1 0))
      as (s' & trace & Hloop & Hruns & Hbacks & _);
      [lia|lia|apply Hthrow'; lia|left; rewrite Z.add_0_l; eauto|lia|].
    rewrite Z.add_0_l, Hrun in Hloop. rewrite Hloop, Hwrite.
    eexists. split; [reflexivity|].
    cbn [runs_of backoffs omap list_omap].
    fold (runs_of (trace ++ [ChKill (chrome s')])).
    fold (backoffs (trace ++ [ChKill (chrome s')])).
    rewrite runs_of_app, backoffs_app, Hruns, Hbacks. cbn [throttlingMethod].
    rewrite (runs_from_expected env K HK). cbn. rewrite !app_nil_r.
    split; [reflexivity|].
    destruct K as [|[|[|K]]]; [| | |lia]; reflexivity.
  - intros HK.
    destruct (lighthouse_loop_run env 2 0 3 (mkLhState 0 0 "simulate" 1 0))
      as (s' & trace & Hloop & Hruns & Hbacks & _);
      [lia|lia|apply Hthrow'; lia|right; reflexivity|lia|].
    destruct (Hthrow 2%nat ltac:(lia)) as [message H2].
    change (Z.of_nat 2) with 2 in H2.
    change (0 + Z.of_nat 2) with 2 in Hloop. rewrite H2 in Hloop.
    rewrite Hloop. exists message. eexists. split; [exact H2|].
    split; [reflexivity|].
    cbn [runs_of backoffs omap list_omap].
    fold (runs_of (trace ++ [ChKill (chrome s')])).
    fold (backoffs (trace ++ [ChKill (chrome s')])).
    rewrite runs_of_app, backoffs_app, Hruns, Hbacks. cbn [throttlingMethod].
    rewrite (runs_from_expected env 2 ltac:(lia)). cbn. rewrite ?app_nil_r.
    split; reflexivity.
Qed.

Lemma unkilled_app t1 t2 :
  unkilled (t1 ++ t2)
  = filter (fun instance => ChKill instance ∉ t2) (unkilled t1) ++ unkilled t2.
Proof.
  induction t1 as [|e t1 IH]; [reflexivity|].
  destruct e as [| | | |launched| |]; cbn [app unkilled]; try exact IH.
  rewrite IH.
  destruct (decide (ChKill launched ∈ t1)) as [Hin|Hnin].
  - rewrite !bool_decide_eq_true_2; [reflexivity|exact Hin|].
    apply elem_of_app. now left.
  - rewrite (bool_decide_eq_false_2 _ Hnin), filter_cons.
    destruct (decide (ChKill launched ∈ t2)) as [Hin2|Hnin2].
    + rewrite bool_decide_eq_true_2 by (apply elem_of_app; now right).
      case_decide; [contradiction|reflexivity].
    + rewrite bool_decide_eq_false_2
        by (intros [?|?]%elem_of_app; contradiction).
      case_decide; [reflexivity|contradiction].
Qed.

Lemma restart_trace env s :
  chrome (restart env s).1 = chrome s /\ (restart env s).2 = [ChKill (chrome s)]
  \/ (restart env s).2 = [ChKill (chrome s); ChLaunch (chrome (restart env s).1)].
Proof.
  unfold restart.
  destruct (chrome_kill env (kills s)); [auto|].
  destruct (chrome_launch env (launches s)); auto.
Qed.

Lemma chrome_relax message s : chrome (relax message s) = chrome s.
Proof. unfold relax. now destruct (includes _ _). Qed.

(** Of the instances the loop launches, only the one in [chrome] at its end
    can be without a [kill]; and the instance in [chrome] at its start was
    sent one if it is not the same. *)
Lemma lighthouse_loop_kills env :
  forall fuel s a r s' trace,
    lighthouse_loop fuel env s a = (r, s', trace) ->
    (forall instance, instance ∈ unkilled trace -> instance = chrome s')
    /\ (chrome s' = chrome s \/ ChKill (chrome s) ∈ trace).
Proof.
  induction fuel as [|fuel IH]; intros s a r s' trace; cbn [lighthouse_loop].
  - intros [= <- <- <-]. split; [intros ? Hin; inversion Hin|now left].
  - destruct (a <=? maxRetries).
    2:{ intros [= <- <- <-]. split; [intros ? Hin; inversion Hin|now left]. }
    destruct (lighthouse_run env a) as [runnerResult|message].
    { intros [= <- <- <-]. split; [intros ? Hin; inversion Hin|now left]. }
    destruct (a <? maxRetries).
    2:{ intros [= <- <- <-]. split; [intros ? Hin; inversion Hin|].
        left. apply chrome_relax. }
    pose proof (restart_trace env (relax message s)) as Hshape.
    destruct (restart env (relax message s)) as [s2 restarted].
    cbn [fst snd] in Hshape. rewrite chrome_relax in Hshape.
    destruct (lighthouse_loop fuel env s2 (a + 1)) as [[r3 s3] rest] eqn:Hloop.
    apply IH in Hloop as [Hunkilled Hstart].
    intros [= <- <- <-]. cbn [unkilled]. rewrite unkilled_app. split.
    + intros instance [Hin|Hin]%elem_of_app; [|now apply Hunkilled].
      apply list_elem_of_filter in Hin as [Hnot Hin].
      destruct Hshape as [[_ ->]| ->]; [inversion Hin|].
      cbn in Hin. apply list_elem_of_singleton in Hin as ->.
      destruct Hstart as [->|Hkilled]; [reflexivity|contradiction].
    + right. do 2 apply list_elem_of_further. apply elem_of_app. left.
      destruct Hshape as [[_ ->]| ->]; apply list_elem_of_here.
Qed.

(** X18: every Chrome that [runLighthouseTest] launches is sent [kill]
    before the function settles, whatever the launches, the kills and the
    audits do: when a relaunch fails, when a kill throws, when the audit
    throws. *)
Theorem runLighthouseTest_kills_every_chrome env :
  unkilled (runLighthouseTest env).2 = [].
Proof.
  unfold runLighthouseTest.
  destruct (chrome_launch env 0); [reflexivity|].
  destruct (lighthouse_loads env); [|reflexivity].
  destruct (lighthouse_loop 3 env (mkLhState 0 0 "simulate" 1 0) 0)
    as [[r s'] trace] eqn:Hloop.
  apply lighthouse_loop_kills in Hloop as [Hunkilled Hstart].
  cbn [snd chrome unkilled] in *.
  rewrite bool_decide_eq_true_2.
  2:{ apply elem_of_app. destruct Hstart as [->|Hin]; [right|now left].
      apply list_elem_of_here. }
  rewrite unkilled_app. cbn [unkilled]. rewrite app_nil_r.
  induction (unkilled trace) as [|instance l IHl]; [reflexivity|].
  rewrite filter_cons.
  rewrite (Hunkilled instance (list_elem_of_here _ _)).
  case_decide as Hnot.
  - exfalso. apply Hnot. apply list_elem_of_here.
  - apply IHl. intros i Hi. apply Hunkilled. now apply list_elem_of_further.
Qed.

Lemma lighthouse_loop_quiet env :
  forall fuel s a r s' trace,
    lighthouse_loop fuel env s a = (r, s', trace) ->
    attempts_of trace = [] /\ r <> Thrown None.
Proof.
  induction fuel as [|fuel IH]; intros s a r s' trace; cbn [lighthouse_loop].
  - intros [= <- <- <-]. split; [reflexivity|discriminate].
  - destruct (a <=? maxRetries).
    2:{ intros [= <- <- <-]. split; [reflexivity|discriminate]. }
    destruct (lighthouse_run env a) as [runnerResult|message].
    { intros [= <- <- <-]. split; [reflexivity|discriminate]. }
    destruct (a <? maxRetries).
    2:{ intros [= <- <- <-]. split; [reflexivity|discriminate]. }
    pose proof (restart_quiet env (relax message s)) as (_ & _ & _ & Hat).
    destruct (restart env (relax message s)) as [s2 restarted].
    cbn [snd] in Hat.
    destruct (lighthouse_loop fuel env s2 (a + 1)) as [[r3 s3] rest] eqn:Hloop.
    apply IH in Hloop as [Hrest Hr].
    intros [= <- <- <-]. split; [|exact Hr].
    cbn [attempts_of omap list_omap]. fold (attempts_of (restarted ++ rest)).
    now rewrite attempts_of_app, Hat, Hrest.
Qed.

Lemma runLighthouseTest_quiet env :
  attempts_of (runLighthouseTest env).2 = []
  /\ (runLighthouseTest env).1 <> Thrown None.
Proof.
  unfold runLighthouseTest.
  destruct (chrome_launch env 0); [split; [reflexivity|discriminate]|].
  destruct (lighthouse_loads env); [|split; [reflexivity|discriminate]].
  destruct (lighthouse_loop 3 env (mkLhState 0 0 "simulate" 1 0) 0)
    as [[r s'] trace] eqn:Hloop.
  apply lighthouse_loop_quiet in Hloop as [Hat Hr]. cbn [fst snd]. split.
  - cbn [attempts_of omap list_omap].
    fold (attempts_of (trace ++ [ChKill (chrome s')])).
    now rewrite attempts_of_app, Hat.
  - destruct r as [[categories| |]|error]; try discriminate.
    + destruct (write_reports env); discriminate.
    + intros [= ->]. now apply Hr.
Qed.

Lemma captureScreenshot_defaults env outputPath :
  exists r shot,
    captureScreenshot env outputPath no_overrides = (r, shot)
    /\ attempts_of shot
       `prefix_of` [(0, "domcontentloaded", 60000); (1, "load", 60000);
                    (2, "commit", 60000)]
    /\ r <> Thrown None
    /\ runs_of shot = []
    /\ (forall path, r = Returned path ->
         exists i, 0 <= i <= 2 /\ page_attempt env i = None).
Proof.
  unfold captureScreenshot, screenshotOptions, no_overrides,
    defaultScreenshotOptions.
  cbn [default retryCount waitUntil timeout fullPage deviceScaleFactor
         set_fullPage set_timeout set_waitUntil set_deviceScaleFactor
         set_retryCount].
  change (Z.to_nat (2 + 1)) with 3%nat.
  destruct (chromium_launch env).
  { eexists _, _. split; [reflexivity|]. split; [by eexists|].
    repeat split; discriminate. }
  cbn [screenshot_loop retryCount waitUntil timeout fullPage
         deviceScaleFactor].
  change (0 + 1) with 1. change (1 + 1) with 2. change (2 + 1) with 3.
  change (0 <=? 2) with true. change (0 <? 2) with true.
  change (1 <=? 2) with true. change (1 <? 2) with true.
  change (2 <=? 2) with true. change (2 <? 2) with false.
  cbn iota.
  change (next_waitUntil 1 "domcontentloaded") with "load".
  change (next_waitUntil 2 "load") with "commit".
  destruct (page_attempt env 0) eqn:E0.
  2:{ eexists _, _. split; [reflexivity|]. split; [by eexists|].
      split; [destruct (browser_close env); discriminate|].
      split; [reflexivity|]. intros _ _. exists 0. split; [lia|exact E0]. }
  destruct (page_attempt env 1) eqn:E1.
  2:{ eexists _, _. split; [reflexivity|]. split; [by eexists|].
      split; [destruct (browser_close env); discriminate|].
      split; [reflexivity|]. intros _ _. exists 1. split; [lia|exact E1]. }
  destruct (page_attempt env 2) eqn:E2.
  2:{ eexists _, _. split; [reflexivity|]. split; [by eexists|].
      split; [destruct (browser_close env); discriminate|].
      split; [reflexivity|]. intros _ _. exists 2. split; [lia|exact E2]. }
  eexists _, _. split; [reflexivity|]. split; [by eexists|].
  split; [destruct (browser_close env); discriminate|].
  split; [reflexivity|]. intros path. destruct (browser_close env); discriminate.
Qed.

Lemma runFullTest_attempts env h options :
  attempts_of (runFullTest env h options).2
    `prefix_of` [(0, "domcontentloaded", 60000); (1, "load", 60000);
                 (2, "commit", 60000)].
Proof.
  unfold runFullTest.
  pose proof (runLighthouseTest_quiet env) as [Hat _].
  destruct (runLighthouseTest env) as [r audit]. cbn [fst snd] in Hat.
  destruct (value_truthy _).
  - destruct (captureScreenshot_defaults env (screenshotFile env))
      as (rs & shot & -> & Hpre & _).
    destruct rs as [path|error]; cbn [fst snd]; [|exact Hpre].
    now rewrite attempts_of_app, Hat, app_nil_r.
  - cbn [fst snd]. rewrite Hat. by eexists.
Qed.

(** X19: [runFullTest] takes the screenshot with the default options,
    whatever options it is given: it hands none of them on to
    [captureScreenshot], so a [screenshotOptions] property has no effect.
    The page is loaded at most three times, waiting for
    ['domcontentloaded'], then ['load'], then ['commit'], each time with a
    timeout of 60 seconds.  What [runFullTest] throws is an error, never
    [null].  When a screenshot is asked for, Lighthouse runs only after an
    attempt at the screenshot has succeeded. *)
Theorem runFullTest_screenshot_defaults env h options :
  attempts_of (runFullTest env h options).2
    `prefix_of` [(0, "domcontentloaded", 60000); (1, "load", 60000);
                 (2, "commit", 60000)]
  /\ (runFullTest env h options).1 <> Thrown None
  /\ (value_truthy (obj_get "captureScreenshot" (fullTestConfig h options))
      = true ->
      runs_of (runFullTest env h options).2 <> [] ->
      exists i, 0 <= i <= 2 /\ page_attempt env i = None).
Proof.
  unfold runFullTest.
  pose proof (runLighthouseTest_quiet env) as [Hat Hr].
  destruct (runLighthouseTest env) as [r audit]. cbn [fst snd] in Hat, Hr.
  destruct (value_truthy _).
  - destruct (captureScreenshot_defaults env (screenshotFile env))
      as (rs & shot & -> & Hpre & Hrs & Hruns & Hok).
    destruct rs as [path|error]; cbn [fst snd].
    + split; [now rewrite attempts_of_app, Hat, app_nil_r|].
      split; [destruct r; [discriminate|intros [= ->]; now apply Hr]|].
      intros _ _. exact (Hok path eq_refl).
    + split; [exact Hpre|].
      split; [intros [= ->]; now apply Hrs|].
      intros _ Hne. contradiction.
  - cbn [fst snd]. split; [rewrite Hat; by eexists|].
    split; [destruct r; [discriminate|intros [= ->]; now apply Hr]|].
    discriminate.
Qed.

End IndexFacts.

Lemma captureScreenshot_schedule_witness :
  (Z.of_nat 1
   <= Index.retryCount (Index.screenshotOptions Index.no_overrides) ->
   Index.page_attempt Index.example_env (Z.of_nat 1) = None ->
   Index.captureScreenshot Index.example_env "screenshot.png"
     Index.no_overrides
   = (Index.Returned "screenshot.png",
      Index.BrLaunch
      :: Index.schedule
           (Index.waitUntil (Index.screenshotOptions Index.no_overrides))
           (Index.timeout (Index.screenshotOptions Index.no_overrides)) 0 1
      ++ [Index.BrClose]))
  /\ (0 <= Index.retryCount (Index.screenshotOptions Index.no_overrides)
       < Z.of_nat 1 ->
      Index.captureScreenshot Index.example_env "screenshot.png"
        Index.no_overrides
      = (Index.Thrown
           (Index.page_attempt Index.example_env
              (Index.retryCount (Index.screenshotOptions Index.no_overrides))),
         Index.BrLaunch
         :: Index.schedule
              (Index.waitUntil (Index.screenshotOptions Index.no_overrides))
              (Index.timeout (Index.screenshotOptions Index.no_overrides)) 0
              (Z.to_nat
                 (Index.retryCount
                    (Index.screenshotOptions Index.no_overrides)))
         ++ [Index.BrClose]))
  /\ (Index.retryCount (Index.screenshotOptions Index.no_overrides) < 0 ->
      Index.captureScreenshot Index.example_env "screenshot.png"
        Index.no_overrides
      = (Index.Thrown None, [Index.BrLaunch; Index.BrClose])).
Proof.
  apply (captureScreenshot_schedule Index.example_env "screenshot.png"
           Index.no_overrides 1).
  - reflexivity.
  - reflexivity.
  - intros i Hi. assert (i = 0) as -> by lia. discriminate.
Defined.

Lemma runLighthouseTest_retry_budget_witness :
  (forall categories,
      (1 <= 2)%nat ->
      Index.lighthouse_run Index.example_env (Z.of_nat 1)
      = Index.LhReturn (Index.RReport categories) ->
      Index.write_reports Index.example_env = None ->
      exists trace,
        Index.runLighthouseTest Index.example_env
        = (Index.Returned (Index.report Index.example_env categories), trace)
        /\ Index.runs_of trace = Index.expected_runs Index.example_env 2
        /\ Index.backoffs trace = take 1 [4000; 8000])
  /\ ((2 < 1)%nat ->
      exists message trace,
        Index.lighthouse_run Index.example_env 2 = Index.LhThrow message
        /\ Index.runLighthouseTest Index.example_env
           = (Index.Thrown (Some message), trace)
        /\ Index.runs_of trace = Index.expected_runs Index.example_env 3
        /\ Index.backoffs trace = [4000; 8000]).
Proof.
  apply (runLighthouseTest_retry_budget Index.example_env 1).
  - reflexivity.
  - reflexivity.
  - intros i Hi. assert (i = 0%nat) as -> by lia. eexists. reflexivity.
Defined.

(** ** Old reports *)

Lemma remove_old_sound dir now maxAgeDays items :
  forall item,
    item ∈ (remove_old dir now (maxAgeDays * 24 * 60 * 60 * 1000) items).2 ->
    item ∈ items /\ old_summary dir now maxAgeDays item.
Proof.
  induction items as [|first rest IH]; intros item; cbn [remove_old].
  - intros Hin. inversion Hin.
  - destruct (statSync dir first) as [stats|message] eqn:Es;
      [|intros Hin; inversion Hin].
    destruct (isDirectory stats) eqn:Ed; cbn [andb].
    2:{ intros Hin. apply IH in Hin as [? ?]. split; [|assumption].
        now apply list_elem_of_further. }
    destruct (String.prefix "batch-summary-" first) eqn:Ep; cbn [andb].
    2:{ intros Hin. apply IH in Hin as [? ?]. split; [|assumption].
        now apply list_elem_of_further. }
    destruct (Z.ltb_spec (maxAgeDays * 24 * 60 * 60 * 1000)
                (now - mtimeMs stats)) as [Hold|Hnew].
    2:{ intros Hin. apply IH in Hin as [? ?]. split; [|assumption].
        now apply list_elem_of_further. }
    destruct (rmSync dir first); [intros Hin; inversion Hin|].
    destruct (remove_old dir now (maxAgeDays * 24 * 60 * 60 * 1000) rest)
      as [c removed].
    cbn [snd] in *. intros [->|Hin]%elem_of_cons.
    + split; [apply list_elem_of_here|]. exists stats.
      repeat split; auto. lia.
    + apply IH in Hin as [? ?]. split; [|assumption].
      now apply list_elem_of_further.
Qed.

Lemma remove_old_complete dir now maxAgeDays items :
  (forall item, item ∈ items ->
                exists stats, statSync dir item = Return stats) ->
  (forall item, item ∈ items -> rmSync dir item = None) ->
  forall item,
    item ∈ items -> old_summary dir now maxAgeDays item ->
    item ∈ (remove_old dir now (maxAgeDays * 24 * 60 * 60 * 1000) items).2.
Proof.
  induction items as [|first rest IH]; intros Hstat Hrm item Hin Hold;
    [inversion Hin|].
  cbn [remove_old].
  destruct (Hstat first (list_elem_of_here _ _)) as [stats Es]. rewrite Es.
  assert (Hrest : forall item,
             item ∈ rest -> old_summary dir now maxAgeDays item ->
             item ∈ (remove_old dir now (maxAgeDays * 24 * 60 * 60 * 1000)
                       rest).2).
  { apply IH.
    - intros i Hi. apply Hstat. now apply list_elem_of_further.
    - intros i Hi. apply Hrm. now apply list_elem_of_further. }
  destruct (isDirectory stats && String.prefix "batch-summary-" first
            && (maxAgeDays * 24 * 60 * 60 * 1000 <? now - mtimeMs stats))
    eqn:Etest.
  - rewrite (Hrm first (list_elem_of_here _ _)).
    destruct (remove_old dir now (maxAgeDays * 24 * 60 * 60 * 1000) rest)
      as [c removed].
    cbn [snd] in *. apply elem_of_cons in Hin as [->|Hin];
      [apply list_elem_of_here|].
    apply list_elem_of_further. now apply Hrest.
  - apply elem_of_cons in Hin as [->|Hin]; [|now apply Hrest].
    exfalso. destruct Hold as (stats' & Es' & Hd & Hp & Hage).
    assert (stats' = stats) as -> by congruence.
    rewrite Hd, Hp in Etest. cbn [andb] in Etest.
    apply Z.ltb_ge in Etest. lia.
Qed.

(** X20: [cleanupOldReports] removes nothing but old batch summaries: an item
    it removes is listed in the reports directory, is a directory, has a
    name that starts with [batch-summary-], and was last modified more than
    [maxAgeDays] days ago.  When every item can be examined and removed, it
    removes all of these. *)
Theorem cleanupOldReports_removes_old_summaries dir now maxAgeDays items :
  reports_exist dir = true ->
  readdirSync dir = Return items ->
  (forall item,
      item ∈ cleanupOldReports dir now maxAgeDays ->
      item ∈ items /\ old_summary dir now maxAgeDays item)
  /\ ((forall item, item ∈ items ->
                    exists stats, statSync dir item = Return stats) ->
      (forall item, item ∈ items -> rmSync dir item = None) ->
      forall item,
        item ∈ items -> old_summary dir now maxAgeDays item ->
        item ∈ cleanupOldReports dir now maxAgeDays).
Proof.
  intros Hexist Hlist. unfold cleanupOldReports. rewrite Hexist, Hlist.
  split.
  - apply remove_old_sound.
  - apply remove_old_complete.
Qed.

Lemma cleanupOldReports_removes_old_summaries_witness :
  cleanupOldReports example_reports 3456000000 30 = ["batch-summary-old"]
  /\ (forall item,
         item ∈ cleanupOldReports example_reports 3456000000 30 ->
         item ∈ ["a.example"; "batch-summary-old"; "batch-summary-now"]
         /\ old_summary example_reports 3456000000 30 item)
  /\ ((forall item,
          item ∈ ["a.example"; "batch-summary-old"; "batch-summary-now"] ->
          exists stats, statSync example_reports item = Return stats) ->
      (forall item,
          item ∈ ["a.example"; "batch-summary-old"; "batch-summary-now"] ->
          rmSync example_reports item = None) ->
      forall item,
        item ∈ ["a.example"; "batch-summary-old"; "batch-summary-now"] ->
        old_summary example_reports 3456000000 30 item ->
        item ∈ cleanupOldReports example_reports 3456000000 30).
Proof.
  split; [reflexivity|].
  apply (cleanupOldReports_removes_old_summaries example_reports 3456000000 30
           ["a.example"; "batch-summary-old"; "batch-summary-now"]);
    reflexivity.
Defined.

(** ** Comparing two runs *)

Section CompareFacts.
Import VersionCompare.

Lemma compareResults_fold previousScores currentScores :
  forall c,
    fold_left (compare_category previousScores) currentScores c
    = mkComparison
        (improved c
         ++ filter (fun ch => (1 < diff ch)%Qc)
              (map (change_of previousScores) currentScores))
        (degraded c
         ++ filter (fun ch => ~ (1 < diff ch)%Qc /\ (diff ch < - (1))%Qc)
              (map (change_of previousScores) currentScores))
        (unchanged c
         ++ filter (fun ch => ~ (1 < diff ch)%Qc /\ ~ (diff ch < - (1))%Qc)
              (map (change_of previousScores) currentScores)).
Proof.
  induction currentScores as [|kv rest IH]; intros c; cbn [fold_left map].
  - rewrite !filter_nil, !app_nil_r. now destruct c.
  - rewrite IH, !filter_cons. unfold compare_category.
    destruct (decide (1 < diff (change_of previousScores kv))%Qc) as [Hi|Hi].
    + rewrite (bool_decide_eq_true_2 _ Hi). cbn [improved degraded unchanged].
      repeat case_decide; try tauto. now rewrite <- app_assoc.
    + rewrite (bool_decide_eq_false_2 _ Hi).
      destruct (decide (diff (change_of previousScores kv) < - (1))%Qc)
        as [Hd|Hd].
      * rewrite (bool_decide_eq_true_2 _ Hd).
        cbn [improved degraded unchanged].
        repeat case_decide; try tauto. now rewrite <- app_assoc.
      * rewrite (bool_decide_eq_false_2 _ Hd).
        cbn [improved degraded unchanged].
        repeat case_decide; try tauto. now rewrite <- app_assoc.
Qed.

Lemma score_of_elem category score scores :
  NoDup scores.*1 -> (category, score) ∈ scores ->
  score_of category scores = Some score.
Proof.
  induction scores as [|[k x] rest IH]; intros Hnd Hin; [inversion Hin|].
  cbn in Hnd. apply NoDup_cons in Hnd as [Hk Hnd]. cbn [score_of].
  apply elem_of_cons in Hin as [[= -> ->]|Hin].
  - now rewrite String.eqb_refl.
  - destruct (String.eqb_spec category k) as [->|_]; [|now apply IH].
    exfalso. apply Hk. apply list_elem_of_fmap. now exists (k, score).
Qed.

Lemma gain_is_loss (d : Qc) : (1 < d)%Qc <-> (- d < - (1))%Qc.
Proof.
  rewrite (Qclt_minus_iff 1%Qc), (Qclt_minus_iff (- d)%Qc).
  now replace (- (1) + - - d)%Qc with (d + - (1))%Qc by ring.
Qed.

Lemma this_opp (x : Qc) : this (- x)%Qc = (- this x)%Q.
Proof.
  destruct x as [q Hq]. cbn. rewrite Qred_opp. now rewrite Hq.
Qed.

Lemma Qabs_opp_eq (q : Q) : Qabs.Qabs (- q) = Qabs.Qabs q.
Proof. destruct q as [n d]. cbn. now rewrite Z.abs_opp. Qed.

Lemma Qcompare_opp_0 (q : Q) : (- q ?= 0)%Q = CompOpp (q ?= 0)%Q.
Proof.
  destruct q as [n d]. unfold Qcompare. cbn.
  rewrite !Z.mul_1_r. now destruct n.
Qed.

(** Rounding is symmetric about zero. *)
Lemma to_double_opp (x : Qc) : to_double (- x) = (- to_double x)%Qc.
Proof.
  unfold to_double. rewrite this_opp, Qabs_opp_eq, Qcompare_opp_0.
  destruct (this x ?= 0)%Q; cbn [CompOpp]; apply Qc_is_canon; cbn.
  - reflexivity.
  - rewrite !Qred_correct. now rewrite Qopp_involutive.
  - now rewrite !Qred_correct.
Qed.

Lemma number_sub_swap (x y : Qc) : number_sub y x = (- number_sub x y)%Qc.
Proof.
  unfold number_sub. rewrite <- to_double_opp. f_equal. ring.
Qed.

(** X21: [compareResults] files every category of the current run under
    exactly one heading, in the order of the current scores: the improved
    categories are those whose score rose by more than one point, the
    degraded ones those whose score fell by more than one point, the
    unchanged ones the others, each list in the order in which
    [currentResult.scores] has them.  The difference of a change is the
    rounded difference of the two scores, a score the earlier run has not
    counting as 0.  A category that both runs have counts as improved from
    the earlier to the later run exactly when it counts as degraded from the
    later to the earlier. *)
Theorem compareResults_classification currentScores previousScores :
  improved (compareResults currentScores previousScores)
  = filter (fun ch => (1 < diff ch)%Qc)
      (map (change_of previousScores) currentScores)
  /\ degraded (compareResults currentScores previousScores)
     = filter (fun ch => (diff ch < - (1))%Qc)
         (map (change_of previousScores) currentScores)
  /\ unchanged (compareResults currentScores previousScores)
     = filter (fun ch => (- (1) <= diff ch)%Qc /\ (diff ch <= 1)%Qc)
         (map (change_of previousScores) currentScores)
  /\ (forall kv,
        category (change_of previousScores kv) = kv.1
        /\ diff (change_of previousScores kv)
           = number_sub kv.2 (default 0%Qc (score_of kv.1 previousScores)))
  /\ (forall name x y,
        NoDup currentScores.*1 -> NoDup previousScores.*1 ->
        (name, x) ∈ currentScores -> (name, y) ∈ previousScores ->
        name ∈ category <$> improved (compareResults currentScores previousScores)
        <-> name ∈ category
                   <$> degraded (compareResults previousScores currentScores)).
Proof.
  unfold compareResults. rewrite !compareResults_fold.
  cbn [improved degraded unchanged app].
  set (changes := map (change_of previousScores) currentScores).
  split; [reflexivity|]. split; [|split; [|split]].
  - apply list_filter_iff. intros ch. split; [now intros [_ ?]|].
    intros Hd. split; [|exact Hd]. intros Hi.
    apply (Qclt_not_le _ _ Hi). apply Qclt_le_weak.
    eapply Qclt_trans; [exact Hd|reflexivity].
  - apply list_filter_iff. intros ch. split.
    + intros [Hi Hd]. split; now apply Qcnot_lt_le.
    + intros [Hd Hi]. split; now apply Qcle_not_lt.
  - intros kv. split; reflexivity.
  - intros name x y Hndc Hndp Hx Hy. subst changes.
    pose proof (score_of_elem _ _ _ Hndc Hx) as Hsx.
    pose proof (score_of_elem _ _ _ Hndp Hy) as Hsy.
    rewrite !list_elem_of_fmap. split.
    + intros (ch & -> & Hin). apply list_elem_of_filter in Hin as [Hi Hin].
      apply list_elem_of_fmap in Hin as ([k x'] & -> & Hin).
      cbn [category change_of fst snd diff] in *.
      assert (x' = x) as ->
        by (pose proof (score_of_elem _ _ _ Hndc Hin); congruence).
      rewrite Hsy in Hi. cbn [default id] in Hi.
      exists (change_of currentScores (k, y)). split; [reflexivity|].
      apply list_elem_of_filter.
      cbn [change_of fst snd diff]. rewrite Hsx. cbn [default id].
      rewrite (number_sub_swap x y).
      apply gain_is_loss in Hi. split.
      * split; [|exact Hi]. intros Hgain.
        apply (Qclt_not_le _ _ Hgain).
        apply Qclt_le_weak. eapply Qclt_trans; [exact Hi|reflexivity].
      * apply list_elem_of_fmap. now exists (k, y).
    + intros (ch & -> & Hin).
      apply list_elem_of_filter in Hin as [[_ Hd] Hin].
      apply list_elem_of_fmap in Hin as ([k y'] & -> & Hin).
      cbn [category change_of fst snd diff] in *.
      assert (y' = y) as ->
        by (pose proof (score_of_elem _ _ _ Hndp Hin); congruence).
      rewrite Hsx in Hd. cbn [default id] in Hd.
      exists (change_of previousScores (k, x)). split; [reflexivity|].
      apply list_elem_of_filter.
      cbn [change_of fst snd diff]. rewrite Hsy. cbn [default id].
      rewrite (number_sub_swap x y) in Hd.
      split; [now apply gain_is_loss|].
      apply list_elem_of_fmap. now exists (k, x).
Qed.

End CompareFacts.

(** ** The relaxation of a job and the navigations of its full tests *)

Lemma job_navigations_S browsers heaps enhancedOptions calls :
  job_navigations browsers heaps enhancedOptions (S calls)
  = job_navigations browsers heaps enhancedOptions calls
    ++ map (fun a : Z * string * Z => a.1.2)
         (Index.attempts_of
            (Index.runFullTest (browsers calls) (heaps calls)
               enhancedOptions).2).
Proof.
  unfold job_navigations. rewrite seq_S, flat_map_app. cbn [flat_map].
  now rewrite app_nil_r.
Qed.


